(** * GHOST local-search engine: a shallow embedding and its properties

    The development follows the sources of the repository:
    - [Engine] embeds the class template [Solver] of the header
      (set_initial_configuration, random_permutations, restart,
      compute_worst_variables, compute_constraints_errors,
      compute_variables_errors, decay_weak_tabu_list, solve);
    - [Legacy] embeds the older translation unit of [Solver]
      (simulate_local_move_cost, simulate_permutation_cost, local_move,
      permutation_move, decay_weak_tabu_list, compute_worst_variables,
      set_initial_configuration and the tail of its satisfaction loop);
    - [ObjectiveImpl] embeds [Objective::expert_heuristic_value];
    - [OldObjective] embeds the older [Objective::heuristicValue], whose
      helper vector is read with [at] (an exception is [None]).

    Numbers.  Costs and errors are C++ [double]s.  They are embedded as
    exact integers ([Z]).  A comparison, a store, or a sum taken in the
    order in which the code takes it is stated as the code has it
    ([accumulate], [foldl Z.add]).  A statement that needs a sum to cancel,
    or to be taken in another order, is what the machine computes as long
    as the numbers are integers of magnitude below 2^53, and carries this
    as a hypothesis ([exact_errors], [legacy_exact_costs]); [Binary64]
    replays the bookkeeping of a move on the machine's doubles, where the
    hypothesis is not met.  [std::numeric_limits<double>::max()] is itself
    an integer and is embedded as such.  The tabu counters are [int]s; the
    statements about them carry their range ([INT_MIN], [INT_MAX]).

    Undefined behaviour.  A pick in an empty vector is undefined in the
    source; the embedding then returns the default element, and the
    statements about what an iteration picks carry the hypothesis that the
    vectors picked in are not empty ([picks_defined]).

    Randomness and time.  The random generators (the solver's, the
    variables' and the objective's) are embedded as one oracle: the list of
    the raw draws still to come.  The steady clock is embedded as the list
    of the elapsed times still to be read; once the list is exhausted the
    clock reads the timeout itself, that is, the budget is eventually
    spent.  All statements quantify over every oracle and every clock. *)

From Corelib Require Import PrimFloat.
From Stdlib Require Import ZArith Lia Permutation.
From stdpp Require Import base list sets.

Local Open Scope Z_scope.

(** ** Numbers *)

(** [std::numeric_limits<double>::max()] = (2 - 2^-52) * 2^1023. *)
Definition DBL_MAX : Z := 2 ^ 1024 - 2 ^ 971.

(** [std::accumulate( first, last, 0.0 )]. *)
Definition accumulate (l : list Z) : Z := foldl Z.add 0 l.

(** [*std::max_element( first, last )]: the first greatest element
    (dereferencing the end iterator of an empty range is undefined; the
    embedding then reads 0).  Elsewhere a read out of the bounds of a
    vector, undefined in the source, gives the default element of the type. *)
Definition max_element (l : list Z) : Z :=
  match l with
  | [] => 0
  | x :: l' => foldl (fun best y => if best <? y then y else best) x l'
  end.

(** ** The random oracle *)

Module Rng.

Definition t := list nat.

Definition draw (g : t) : nat * t :=
  match g with
  | [] => (0%nat, [])
  | r :: g' => (r, g')
  end.

(** [rng.uniform( lo, hi )] on integers. *)
Definition uniform (lo hi : Z) (g : t) : Z * t :=
  let '(r, g') := draw g in (lo + Z.of_nat r `mod` (hi - lo + 1), g').

(** [rng.pick( container )] (picking in an empty container is undefined;
    the embedding then returns the default element). *)
Definition pick {A} `{Inhabited A} (l : list A) (g : t) : A * t :=
  let '(r, g') := draw g in (l !!! (r `mod` length l)%nat, g').

(** [rng.uniform( 0.0, 1.0 ) < 0.1]: the raw draw [r] stands for the real
    number [(r mod 10) / 10]. *)
Definition uniform_below_tenth (g : t) : bool * t :=
  let '(r, g') := draw g in (bool_decide ((r `mod` 10)%nat = 0%nat), g').

End Rng.

(** ** Variables *)

(** Modelled from the spec: the class [Variable] (its header and source are
    not among the sources).  A variable has an id, a finite integer domain
    and a current value; in permutation problems it also holds an index
    into the value pool, and the engine swaps the pair (index, value) of
    two variables directly.  ([Variable] is a reserved word here, hence
    [Var].) *)
Record Var := mkVariable {
  _id : nat;
  _domain : list Z;
  _index : Z;
  _current_value : Z
}.

#[export] Instance Var_inhabited : Inhabited Var :=
  populate (mkVariable 0 [] 0 0).

Definition get_value (v : Var) : Z := _current_value v.

Definition get_full_domain (v : Var) : list Z := _domain v.

(** Position of the first occurrence of [x] in [l] ([length l] if none). *)
Fixpoint index_of (x : Z) (l : list Z) : Z :=
  match l with
  | [] => 0
  | y :: l' => if x =? y then 0 else 1 + index_of x l'
  end.

Definition set_value (x : Z) (v : Var) : Var :=
  mkVariable (_id v) (_domain v) (index_of x (_domain v)) x.

Definition set_id (i : nat) (v : Var) : Var :=
  mkVariable i (_domain v) (_index v) (_current_value v).

(** [pick_random_value]: a uniform pick in the domain. *)
Definition pick_random_value (v : Var) (g : Rng.t) : Var * Rng.t :=
  let '(x, g') := Rng.pick (_domain v) g in (set_value x v, g').

(** [std::swap( a._index, b._index ); std::swap( a._current_value,
    b._current_value )] on the variables at positions [i] and [j]. *)
Definition swap_index_value (i j : nat) (vars : list Var) : list Var :=
  let a := vars !!! i in
  let b := vars !!! j in
  <[j := mkVariable (_id b) (_domain b) (_index a) (_current_value a)]>
    (<[i := mkVariable (_id a) (_domain a) (_index b) (_current_value b)]> vars).

Definition values (vars : list Var) : list Z := get_value <$> vars.

(** [std::transform( variables.begin(), variables.end(), out.begin(),
    get_value )]: the first [variables.size()] cells of [out] are
    overwritten. *)
Definition transform_values (vars : list Var) (out : list Z) : list Z :=
  values vars ++ drop (length vars) out.

(** [for( i = 0 ; i < n ; ++i ) variables[ i ].set_value( src[ i ] )]. *)
Definition set_values_from (n : nat) (src : list Z) (vars : list Var)
  : list Var :=
  foldl (fun vs i => alter (set_value (src !!! i)) i vs) vars (seq 0 n).

(** [for( auto& v : variables ) v.pick_random_value()]. *)
Fixpoint pick_random_values (vars : list Var) (g : Rng.t) : list Var * Rng.t :=
  match vars with
  | [] => ([], g)
  | v :: vars' =>
      let '(v', g1) := pick_random_value v g in
      let '(vs, g2) := pick_random_values vars' g1 in
      (v' :: vs, g2)
  end.

(** The body of the loops of [random_permutations]: 50% to do a swap for
    the couple (var_i, var_j). *)
Definition maybe_swap (i : nat) (st : list Var * Rng.t) (j : nat)
  : list Var * Rng.t :=
  let '(r, g') := Rng.uniform 0 1 st.2 in
  if r =? 0 then (swap_index_value i j st.1, g') else (st.1, g').

(** The two loops of [random_permutations] over the couples [i < j].  The
    bound [size() - 1] of the outer loop is unsigned; for an empty vector
    the source would run out of bounds, the embedding does nothing. *)
Definition random_swaps (vars : list Var) (g : Rng.t) : list Var * Rng.t :=
  let n := length vars in
  foldl (fun st i => foldl (maybe_swap i) st (seq (S i) (n - S i)))
        (vars, g) (seq 0 (n - 1)).

(** ** Constraints and objective, as the engine of the header sees them *)

(** Modelled from the spec: the class [Constraint] (its header is not among
    the sources).  A constraint has a scope (the ids of its variables), a
    user-given error function and its own copy of the variables' values,
    which the engine keeps up to date through [update_variable].
    [error()] is the error of that copy; [simulate_delta( id, x )] is the
    error the copy would have with [x] at [id], minus the current one. *)
Record Ctr := mkCtr {
  ctr_id : nat;
  get_variable_ids : list nat;
  required_error : list Z -> Z;
  ctr_values : list Z
}.

#[export] Instance Ctr_inhabited : Inhabited Ctr :=
  populate (mkCtr 0 [] (fun _ => 0) []).

Definition error (c : Ctr) : Z := required_error c (ctr_values c).

Definition update_variable (variable_id : nat) (x : Z) (c : Ctr) : Ctr :=
  mkCtr (ctr_id c) (get_variable_ids c) (required_error c)
        (<[variable_id := x]> (ctr_values c)).

Definition simulate_delta (variable_id : nat) (x : Z) (c : Ctr) : Z :=
  required_error c (<[variable_id := x]> (ctr_values c)) - error c.

Definition has_variable (variable_id : nat) (c : Ctr) : bool :=
  bool_decide (variable_id ∈ get_variable_ids c).

Definition set_ctr_id (i : nat) (c : Ctr) : Ctr :=
  mkCtr i (get_variable_ids c) (required_error c) (ctr_values c).

(** Modelled from the spec: the class [Objective] as the header uses it
    ([cost()] and [update_variable( id, value )] without a vector of
    variables, and the optional post-processing hook).  The objective holds
    its own copy of the values, like a constraint. *)
Record Objective := mkObjective {
  required_cost : list Z -> Z;
  obj_values : list Z;
  postprocess_optimization : list Var -> Z -> list Z -> list Var * Z * list Z
}.

Definition cost (o : Objective) : Z := required_cost o (obj_values o).

Definition objective_update_variable (variable_id : nat) (x : Z) (o : Objective)
  : Objective :=
  mkObjective (required_cost o) (<[variable_id := x]> (obj_values o))
              (postprocess_optimization o).

(** [NullObjective]: [required_cost] returns 0 and nothing is
    post-processed. *)
Definition NullObjective (vars : list Var) : Objective :=
  mkObjective (fun _ => 0) (values vars) (fun vs c sol => (vs, c, sol)).

(** Modelled from the spec: of the class [Neighborhood] the engine only
    asks [is_permutation()]. *)
Record Neighborhood := mkNeighborhood { is_permutation : bool }.

(** ** The engine of the header *)

Module Engine.

(** The data members of [Solver]. *)
Record Solver := mkSolver {
  _variables : list Var;
  _constraints : list Ctr;
  _objective : Objective;
  _rng : Rng.t;
  _is_optimization : bool;
  _no_random_starting_point : bool;
  _free_variables : bool;
  _number_variables : nat;
  _number_constraints : nat;
  _matrix_var_ctr : list (list nat);
  _weak_tabu_list : list Z;
  _worst_variables_list : list nat;
  _error_constraints : list Z;
  _error_variables : list Z;
  _error_non_tabu_variables : list Z;
  _best_sat_error : Z;
  _best_opt_cost : Z;
  _best_sat_error_opt_loop : Z;
  _current_sat_error : Z;
  _current_opt_cost : Z;
  _cost_before_postprocess : Z;
  _neighborhood : Neighborhood
}.

Definition with_variables (x : list Var) (s : Solver) : Solver :=
  mkSolver x (_constraints s) (_objective s) (_rng s) (_is_optimization s)
    (_no_random_starting_point s) (_free_variables s) (_number_variables s)
    (_number_constraints s) (_matrix_var_ctr s) (_weak_tabu_list s)
    (_worst_variables_list s) (_error_constraints s) (_error_variables s)
    (_error_non_tabu_variables s) (_best_sat_error s) (_best_opt_cost s)
    (_best_sat_error_opt_loop s) (_current_sat_error s)
    (_current_opt_cost s) (_cost_before_postprocess s) (_neighborhood s).

Definition with_constraints (x : list Ctr) (s : Solver) : Solver :=
  mkSolver (_variables s) x (_objective s) (_rng s) (_is_optimization s)
    (_no_random_starting_point s) (_free_variables s) (_number_variables s)
    (_number_constraints s) (_matrix_var_ctr s) (_weak_tabu_list s)
    (_worst_variables_list s) (_error_constraints s) (_error_variables s)
    (_error_non_tabu_variables s) (_best_sat_error s) (_best_opt_cost s)
    (_best_sat_error_opt_loop s) (_current_sat_error s)
    (_current_opt_cost s) (_cost_before_postprocess s) (_neighborhood s).

Definition with_objective (x : Objective) (s : Solver) : Solver :=
  mkSolver (_variables s) (_constraints s) x (_rng s) (_is_optimization s)
    (_no_random_starting_point s) (_free_variables s) (_number_variables s)
    (_number_constraints s) (_matrix_var_ctr s) (_weak_tabu_list s)
    (_worst_variables_list s) (_error_constraints s) (_error_variables s)
    (_error_non_tabu_variables s) (_best_sat_error s) (_best_opt_cost s)
    (_best_sat_error_opt_loop s) (_current_sat_error s)
    (_current_opt_cost s) (_cost_before_postprocess s) (_neighborhood s).

Definition with_rng (x : Rng.t) (s : Solver) : Solver :=
  mkSolver (_variables s) (_constraints s) (_objective s) x
    (_is_optimization s) (_no_random_starting_point s) (_free_variables s)
    (_number_variables s) (_number_constraints s) (_matrix_var_ctr s)
    (_weak_tabu_list s) (_worst_variables_list s) (_error_constraints s)
    (_error_variables s) (_error_non_tabu_variables s) (_best_sat_error s)
    (_best_opt_cost s) (_best_sat_error_opt_loop s) (_current_sat_error s)
    (_current_opt_cost s) (_cost_before_postprocess s) (_neighborhood s).

Definition with_no_random_starting_point (x : bool) (s : Solver) : Solver :=
  mkSolver (_variables s) (_constraints s) (_objective s) (_rng s)
    (_is_optimization s) x (_free_variables s) (_number_variables s)
    (_number_constraints s) (_matrix_var_ctr s) (_weak_tabu_list s)
    (_worst_variables_list s) (_error_constraints s) (_error_variables s)
    (_error_non_tabu_variables s) (_best_sat_error s) (_best_opt_cost s)
    (_best_sat_error_opt_loop s) (_current_sat_error s)
    (_current_opt_cost s) (_cost_before_postprocess s) (_neighborhood s).

Definition with_free_variables (x : bool) (s : Solver) : Solver :=
  mkSolver (_variables s) (_constraints s) (_objective s) (_rng s)
    (_is_optimization s) (_no_random_starting_point s) x
    (_number_variables s) (_number_constraints s) (_matrix_var_ctr s)
    (_weak_tabu_list s) (_worst_variables_list s) (_error_constraints s)
    (_error_variables s) (_error_non_tabu_variables s) (_best_sat_error s)
    (_best_opt_cost s) (_best_sat_error_opt_loop s) (_current_sat_error s)
    (_current_opt_cost s) (_cost_before_postprocess s) (_neighborhood s).

Definition with_weak_tabu_list (x : list Z) (s : Solver) : Solver :=
  mkSolver (_variables s) (_constraints s) (_objective s) (_rng s)
    (_is_optimization s) (_no_random_starting_point s) (_free_variables s)
    (_number_variables s) (_number_constraints s) (_matrix_var_ctr s) x
    (_worst_variables_list s) (_error_constraints s) (_error_variables s)
    (_error_non_tabu_variables s) (_best_sat_error s) (_best_opt_cost s)
    (_best_sat_error_opt_loop s) (_current_sat_error s)
    (_current_opt_cost s) (_cost_before_postprocess s) (_neighborhood s).

Definition with_worst_variables_list (x : list nat) (s : Solver) : Solver :=
  mkSolver (_variables s) (_constraints s) (_objective s) (_rng s)
    (_is_optimization s) (_no_random_starting_point s) (_free_variables s)
    (_number_variables s) (_number_constraints s) (_matrix_var_ctr s)
    (_weak_tabu_list s) x (_error_constraints s) (_error_variables s)
    (_error_non_tabu_variables s) (_best_sat_error s) (_best_opt_cost s)
    (_best_sat_error_opt_loop s) (_current_sat_error s)
    (_current_opt_cost s) (_cost_before_postprocess s) (_neighborhood s).

Definition with_error_constraints (x : list Z) (s : Solver) : Solver :=
  mkSolver (_variables s) (_constraints s) (_objective s) (_rng s)
    (_is_optimization s) (_no_random_starting_point s) (_free_variables s)
    (_number_variables s) (_number_constraints s) (_matrix_var_ctr s)
    (_weak_tabu_list s) (_worst_variables_list s) x (_error_variables s)
    (_error_non_tabu_variables s) (_best_sat_error s) (_best_opt_cost s)
    (_best_sat_error_opt_loop s) (_current_sat_error s)
    (_current_opt_cost s) (_cost_before_postprocess s) (_neighborhood s).

Definition with_error_variables (x : list Z) (s : Solver) : Solver :=
  mkSolver (_variables s) (_constraints s) (_objective s) (_rng s)
    (_is_optimization s) (_no_random_starting_point s) (_free_variables s)
    (_number_variables s) (_number_constraints s) (_matrix_var_ctr s)
    (_weak_tabu_list s) (_worst_variables_list s) (_error_constraints s) x
    (_error_non_tabu_variables s) (_best_sat_error s) (_best_opt_cost s)
    (_best_sat_error_opt_loop s) (_current_sat_error s)
    (_current_opt_cost s) (_cost_before_postprocess s) (_neighborhood s).

Definition with_error_non_tabu_variables (x : list Z) (s : Solver) : Solver :=
  mkSolver (_variables s) (_constraints s) (_objective s) (_rng s)
    (_is_optimization s) (_no_random_starting_point s) (_free_variables s)
    (_number_variables s) (_number_constraints s) (_matrix_var_ctr s)
    (_weak_tabu_list s) (_worst_variables_list s) (_error_constraints s)
    (_error_variables s) x (_best_sat_error s) (_best_opt_cost s)
    (_best_sat_error_opt_loop s) (_current_sat_error s)
    (_current_opt_cost s) (_cost_before_postprocess s) (_neighborhood s).

Definition with_best_sat_error (x : Z) (s : Solver) : Solver :=
  mkSolver (_variables s) (_constraints s) (_objective s) (_rng s)
    (_is_optimization s) (_no_random_starting_point s) (_free_variables s)
    (_number_variables s) (_number_constraints s) (_matrix_var_ctr s)
    (_weak_tabu_list s) (_worst_variables_list s) (_error_constraints s)
    (_error_variables s) (_error_non_tabu_variables s) x (_best_opt_cost s)
    (_best_sat_error_opt_loop s) (_current_sat_error s)
    (_current_opt_cost s) (_cost_before_postprocess s) (_neighborhood s).

Definition with_best_opt_cost (x : Z) (s : Solver) : Solver :=
  mkSolver (_variables s) (_constraints s) (_objective s) (_rng s)
    (_is_optimization s) (_no_random_starting_point s) (_free_variables s)
    (_number_variables s) (_number_constraints s) (_matrix_var_ctr s)
    (_weak_tabu_list s) (_worst_variables_list s) (_error_constraints s)
    (_error_variables s) (_error_non_tabu_variables s) (_best_sat_error s) x
    (_best_sat_error_opt_loop s) (_current_sat_error s)
    (_current_opt_cost s) (_cost_before_postprocess s) (_neighborhood s).

Definition with_best_sat_error_opt_loop (x : Z) (s : Solver) : Solver :=
  mkSolver (_variables s) (_constraints s) (_objective s) (_rng s)
    (_is_optimization s) (_no_random_starting_point s) (_free_variables s)
    (_number_variables s) (_number_constraints s) (_matrix_var_ctr s)
    (_weak_tabu_list s) (_worst_variables_list s) (_error_constraints s)
    (_error_variables s) (_error_non_tabu_variables s) (_best_sat_error s)
    (_best_opt_cost s) x (_current_sat_error s) (_current_opt_cost s)
    (_cost_before_postprocess s) (_neighborhood s).

Definition with_current_sat_error (x : Z) (s : Solver) : Solver :=
  mkSolver (_variables s) (_constraints s) (_objective s) (_rng s)
    (_is_optimization s) (_no_random_starting_point s) (_free_variables s)
    (_number_variables s) (_number_constraints s) (_matrix_var_ctr s)
    (_weak_tabu_list s) (_worst_variables_list s) (_error_constraints s)
    (_error_variables s) (_error_non_tabu_variables s) (_best_sat_error s)
    (_best_opt_cost s) (_best_sat_error_opt_loop s) x (_current_opt_cost s)
    (_cost_before_postprocess s) (_neighborhood s).

Definition with_current_opt_cost (x : Z) (s : Solver) : Solver :=
  mkSolver (_variables s) (_constraints s) (_objective s) (_rng s)
    (_is_optimization s) (_no_random_starting_point s) (_free_variables s)
    (_number_variables s) (_number_constraints s) (_matrix_var_ctr s)
    (_weak_tabu_list s) (_worst_variables_list s) (_error_constraints s)
    (_error_variables s) (_error_non_tabu_variables s) (_best_sat_error s)
    (_best_opt_cost s) (_best_sat_error_opt_loop s) (_current_sat_error s) x
    (_cost_before_postprocess s) (_neighborhood s).

Definition with_cost_before_postprocess (x : Z) (s : Solver) : Solver :=
  mkSolver (_variables s) (_constraints s) (_objective s) (_rng s)
    (_is_optimization s) (_no_random_starting_point s) (_free_variables s)
    (_number_variables s) (_number_constraints s) (_matrix_var_ctr s)
    (_weak_tabu_list s) (_worst_variables_list s) (_error_constraints s)
    (_error_variables s) (_error_non_tabu_variables s) (_best_sat_error s)
    (_best_opt_cost s) (_best_sat_error_opt_loop s) (_current_sat_error s)
    (_current_opt_cost s) x (_neighborhood s).

(** [tabu_time_local_min] and [tabu_time_selected], the two locals that
    [solve] computes first. *)
Definition tabu_time_local_min (s : Solver) : Z :=
  Z.max 1 (Z.of_nat (_number_variables s) / 2).

Definition tabu_time_selected (s : Solver) : Z :=
  Z.max 1 (tabu_time_local_min s / 2).

Definition call_error (s : Solver) (constraint_id : nat) : Z :=
  error (_constraints s !!! constraint_id).

Definition call_update_variable (constraint_id variable_id : nat) (x : Z)
    (cs : list Ctr) : list Ctr :=
  alter (update_variable variable_id x) constraint_id cs.

(** *** Sampling *)

Definition monte_carlo_sampling (s : Solver) : Solver :=
  let '(vs, g) := pick_random_values (_variables s) (_rng s) in
  with_rng g (with_variables vs s).

Definition random_permutations (s : Solver) : Solver :=
  let '(vs, g) := random_swaps (_variables s) (_rng s) in
  with_rng g (with_variables vs s).

(** [for( id = 0 ; id < _number_constraints ; ++id ) sum += call_error( id )]. *)
Definition sum_call_error (s : Solver) : Z :=
  foldl (fun acc constraint_id => acc + call_error s constraint_id)
        0 (seq 0 (_number_constraints s)).

(** [for( i = 0 ; i < _number_variables ; ++i )
       best_values[ i ] = _variables[ i ].get_value()]. *)
Definition record_values (s : Solver) (best_values : list Z) : list Z :=
  foldl (fun bv i => <[i := get_value (_variables s !!! i)]> bv)
        best_values (seq 0 (_number_variables s)).

(** The sampling loop of [set_initial_configuration], [i] samplings being
    left.  When a sample beats [best_sat_error] the source executes
    [best_sat_cost = current_sat_cost], which names neither of the two
    locals [best_sat_error] and [current_sat_error]: the local
    [best_sat_error] keeps the value it was initialised with. *)
Fixpoint sampling_loop (i : nat) (best_sat_error : Z) (best_values : list Z)
    (s : Solver) : Solver * list Z :=
  match i with
  | O => (s, best_values)
  | S i' =>
      let s1 := if is_permutation (_neighborhood s)
                then random_permutations s else monte_carlo_sampling s in
      let current_sat_error := sum_call_error s1 in
      let best_values1 :=
        if best_sat_error >? current_sat_error
        then record_values s1 best_values else best_values in
      if current_sat_error =? 0 then (s1, best_values1)
      else sampling_loop i' best_sat_error best_values1 s1
  end.

Definition set_initial_configuration (samplings : Z) (s : Solver) : Solver :=
  if negb (is_permutation (_neighborhood s)) && (samplings <=? 1)
  then monte_carlo_sampling s
  else
    let best_values := replicate (_number_variables s) 0 in
    let samplings := Z.max 1 samplings in
    let '(s1, best_values1) :=
      sampling_loop (Z.to_nat samplings) DBL_MAX best_values s in
    with_variables
      (set_values_from (_number_variables s1) best_values1 (_variables s1)) s1.

(** *** Cost bookkeeping *)

(** [_error_constraints[ id ] = cost; satisfaction_cost += cost]. *)
Definition record_error (st : Solver * Z) (constraint_id : nat) : Solver * Z :=
  let cost := call_error st.1 constraint_id in
  (with_error_constraints
     (<[constraint_id := cost]> (_error_constraints st.1)) st.1,
   st.2 + cost).

Definition compute_constraints_errors (s : Solver) : Solver * Z :=
  foldl record_error (s, 0) (seq 0 (_number_constraints s)).

(** [_error_variables[ variable_id ] += _error_constraints[ constraint_id ]]. *)
Definition add_constraint_error (variable_id : nat) (s : Solver)
    (constraint_id : nat) : Solver :=
  with_error_variables
    (alter (fun e => e + _error_constraints s !!! constraint_id)
           variable_id (_error_variables s)) s.

Definition compute_variables_errors (s : Solver) : Solver :=
  foldl (fun s variable_id =>
           foldl (add_constraint_error variable_id) s
                 (_matrix_var_ctr s !!! variable_id))
        s (seq 0 (_number_variables s)).

(** [std::fill( first, last, x )]. *)
Definition fill {A} (x : A) (l : list A) : list A := replicate (length l) x.

(** [std::copy( src.begin(), src.end(), dst.begin() )]. *)
Definition copy_into {A} (src dst : list A) : list A :=
  src ++ drop (length src) dst.

(** [call_update_variable( constraint_id, variable_id, value )] on the
    engine. *)
Definition send_value (variable_id : nat) (x : Z) (s : Solver)
    (constraint_id : nat) : Solver :=
  with_constraints
    (call_update_variable constraint_id variable_id x (_constraints s)) s.

(** Send the current assignment to the constraints. *)
Definition broadcast_values (s : Solver) : Solver :=
  foldl (fun s variable_id =>
           foldl (send_value variable_id
                    (get_value (_variables s !!! variable_id)))
                 s (_matrix_var_ctr s !!! variable_id))
        s (seq 0 (_number_variables s)).

Definition restart (s : Solver) : Solver :=
  let s := with_best_sat_error DBL_MAX s in
  let s := with_best_opt_cost DBL_MAX s in
  let s := with_best_sat_error_opt_loop DBL_MAX s in
  let s := with_weak_tabu_list (fill 0 (_weak_tabu_list s)) s in
  let s := if negb (_no_random_starting_point s)
           then set_initial_configuration 10 s
           else with_no_random_starting_point false s in
  let s := with_error_constraints (fill 0 (_error_constraints s)) s in
  let s := broadcast_values s in
  let '(s, satisfaction_cost) := compute_constraints_errors s in
  let s := with_current_sat_error satisfaction_cost s in
  let s := with_error_variables (fill 0 (_error_variables s)) s in
  let s := compute_variables_errors s in
  let s := with_error_non_tabu_variables
             (copy_into (_error_variables s) (_error_non_tabu_variables s)) s in
  with_free_variables true s.

(** *** Tabu list and worst variables *)

(** Decreasing values in the tabu list; returns true iff some counter is 0.
    The counters are [int]s: [tabu - 1] is the machine's as long as the
    counter is above the least [int]. *)
Definition decay_weak_tabu_list (s : Solver) : Solver * bool :=
  let l := (fun tabu => Z.max 0 (tabu - 1)) <$> _weak_tabu_list s in
  (with_weak_tabu_list l s, existsb (fun tabu => tabu =? 0) l).

Definition compute_worst_variables (s : Solver) : Solver :=
  let worst_variable_cost := max_element (_error_variables s) in
  with_worst_variables_list
    (filter (fun variable_id =>
               _error_variables s !!! variable_id = worst_variable_cost)
            (seq 0 (_number_variables s))) s.

(** *** The search loop *)

(** [std::map<int, std::vector<double>>] as an association list sorted by
    key; [map_push k d m] is [m[ k ].push_back( d )]. *)
Fixpoint map_push (k : Z) (d : Z) (m : list (Z * list Z)) : list (Z * list Z) :=
  match m with
  | [] => [(k, [d])]
  | (k', ds) :: m' =>
      if k <? k' then (k, [d]) :: m
      else if k =? k' then (k', ds ++ [d]) :: m'
      else (k', ds) :: map_push k d m'
  end.

(** [m.at( k )] (throws when the key is absent; the embedding then gives
    the empty vector). *)
Fixpoint map_at (k : Z) (m : list (Z * list Z)) : list Z :=
  match m with
  | [] => []
  | (k', ds) :: m' => if k =? k' then ds else map_at k m'
  end.

(** Simulate the delta errors of every value of the domain to explore. *)
Definition simulate_value (s : Solver) (variable_to_change : nat)
    (new_value : Z) (m : list (Z * list Z)) (constraint_id : nat)
  : list (Z * list Z) :=
  map_push new_value
    (simulate_delta variable_to_change new_value
       (_constraints s !!! constraint_id)) m.

Definition simulate_deltas (s : Solver) (variable_to_change : nat)
    (domain_to_explore : list Z) : list (Z * list Z) :=
  foldl (fun m new_value =>
           foldl (simulate_value s variable_to_change new_value)
                 m (_matrix_var_ctr s !!! variable_to_change))
        [] domain_to_explore.

Definition cumulate (delta_errors : list (Z * list Z)) : list (Z * Z) :=
  (fun deltas => (deltas.1, accumulate deltas.2)) <$> delta_errors.

(** Select the values with the least cumulated delta. *)
Definition keep_least (st : Z * list Z) (deltas : Z * Z) : Z * list Z :=
  let '(min_conflict, candidate_values) := st in
  if min_conflict >? deltas.2 then (deltas.2, [deltas.1])
  else if min_conflict =? deltas.2
       then (min_conflict, candidate_values ++ [deltas.1])
       else (min_conflict, candidate_values).

Definition select_candidates (cumulated_delta_errors : list (Z * Z))
  : Z * list Z :=
  foldl keep_least (DBL_MAX, []) cumulated_delta_errors.

(** The local state of one call of [solve]: the engine, the caller's
    [final_solution], [elapsed_time] and the clock readings to come. *)
Record Run := mkRun {
  solver : Solver;
  final_solution : list Z;
  elapsed_time : Z;
  clock : list Z
}.

Definition on_solver (f : Solver -> Solver) (r : Run) : Run :=
  mkRun (f (solver r)) (final_solution r) (elapsed_time r) (clock r).

(** [elapsed_time = std::chrono::steady_clock::now() - start]. *)
Definition read_clock (timeout : Z) (r : Run) : Run :=
  match clock r with
  | [] => mkRun (solver r) (final_solution r) timeout []
  | t :: c => mkRun (solver r) (final_solution r) t c
  end.

(** [_error_variables[ variable_id ] += delta]. *)
Definition add_delta (delta : Z) (s : Solver) (variable_id : nat) : Solver :=
  with_error_variables
    (alter (fun e => e + delta) variable_id (_error_variables s)) s.

(** The update of the errors when [new_value] is given to
    [variable_to_change]: the loop over [_matrix_var_ctr[ variable_to_change ]]
    with its running [delta_index]. *)
Fixpoint update_errors (variable_to_change : nat) (new_value : Z)
    (deltas : list Z) (delta_index : nat) (row : list nat) (s : Solver)
  : Solver :=
  match row with
  | [] => s
  | constraint_id :: row' =>
      let delta := deltas !!! delta_index in
      let s := with_error_constraints
                 (alter (fun e => e + delta) constraint_id
                        (_error_constraints s)) s in
      let s := foldl (add_delta delta) s
                     (get_variable_ids (_constraints s !!! constraint_id)) in
      let s := send_value variable_to_change new_value s constraint_id in
      update_errors variable_to_change new_value deltas (S delta_index) row' s
  end.

(** The rest of the block [min_conflict <= 0]: the move is applied. *)
Definition apply_move (variable_to_change : nat) (new_value min_conflict : Z)
    (delta_errors : list (Z * list Z)) (r : Run) : Run :=
  let s := solver r in
  let s := with_current_sat_error (_current_sat_error s + min_conflict) s in
  let s := with_variables
             (alter (set_value new_value) variable_to_change (_variables s)) s in
  let s := update_errors variable_to_change new_value
             (map_at new_value delta_errors) 0
             (_matrix_var_ctr s !!! variable_to_change) s in
  let '(s, final_solution) :=
    if _best_sat_error s >? _current_sat_error s
    then (with_best_sat_error (_current_sat_error s) s,
          transform_values (_variables s) (final_solution r))
    else (s, final_solution r) in
  let s := with_objective
             (objective_update_variable variable_to_change new_value
                (_objective s)) s in
  let s := with_current_opt_cost (cost (_objective s)) s in
  mkRun s final_solution (elapsed_time r) (clock r).

(** "For consistency, we still need to update changes in constraints'
    variables". *)
Definition update_constraints_of (variable_to_change : nat) (new_value : Z)
    (s : Solver) : Solver :=
  foldl (send_value variable_to_change new_value)
        s (_matrix_var_ctr s !!! variable_to_change).

(** The branch of the loop body that an iteration takes. *)
Inductive Branch :=
  | ObjectiveImproved        (* the objective improves: [continue] *)
  | ObjectivePlateauRestart  (* same objective cost, draw below 0.1 *)
  | ObjectivePlateauWalk     (* same objective cost: [continue] *)
  | ObjectiveWorseRestart    (* higher objective cost *)
  | PlateauRestart           (* [min_conflict == 0], draw below 0.1 *)
  | Move                     (* no restart *)
  | WorseningRestart.        (* [min_conflict > 0] *)

(** The first half of the loop body: pick a worst variable, simulate every
    value of its domain, keep the values with the least cumulated delta and
    pick one of them.  Both picks are undefined in the source when the
    vector picked in is empty ([_worst_variables_list] of an engine without
    variable, [candidate_values] of a variable that no constraint has). *)
Definition evaluate_moves (s : Solver)
  : nat * Z * Z * list (Z * list Z) * Solver :=
  let s := compute_worst_variables s in
  let '(variable_to_change, g) := Rng.pick (_worst_variables_list s) (_rng s) in
  let domain_to_explore := get_full_domain (_variables s !!! variable_to_change) in
  let delta_errors := simulate_deltas s variable_to_change domain_to_explore in
  let '(min_conflict, candidate_values) :=
    select_candidates (cumulate delta_errors) in
  let '(new_value, g) := Rng.pick candidate_values g in
  (variable_to_change, new_value, min_conflict, delta_errors, with_rng g s).

(** The second half of the loop body: the [if( min_conflict <= 0.0 )]
    statement and the last clock reading.  A [restart()] of the first
    three restarting branches is followed by the rest of the block. *)
Definition apply_or_restart (timeout : Z) (variable_to_change : nat)
    (new_value min_conflict : Z) (delta_errors : list (Z * list Z)) (r : Run)
  : Branch * Run :=
  let s := solver r in
  let finish := apply_move variable_to_change new_value min_conflict delta_errors in
  if min_conflict <=? 0 then
    if (_current_sat_error s + min_conflict =? 0) && _is_optimization s then
      let s := with_objective
                 (objective_update_variable variable_to_change new_value
                    (_objective s)) s in
      let candidate_opt_cost := cost (_objective s) in
      if _current_opt_cost s >? candidate_opt_cost then
        let s := with_current_opt_cost candidate_opt_cost s in
        let '(s, final_solution) :=
          if _best_opt_cost s >? _current_opt_cost s
          then (with_best_opt_cost (_current_opt_cost s) s,
                transform_values (_variables s) (final_solution r))
          else (s, final_solution r) in
        let s := update_constraints_of variable_to_change new_value s in
        (ObjectiveImproved,
         read_clock timeout (mkRun s final_solution (elapsed_time r) (clock r)))
      else if _current_opt_cost s =? candidate_opt_cost then
        let '(below, g) := Rng.uniform_below_tenth (_rng s) in
        let s := with_rng g s in
        let r := mkRun s (final_solution r) (elapsed_time r) (clock r) in
        if below then
          (ObjectivePlateauRestart,
           read_clock timeout
             (finish (on_solver restart (read_clock timeout r))))
        else
          (ObjectivePlateauWalk,
           read_clock timeout
             (on_solver (update_constraints_of variable_to_change new_value) r))
      else
        let r := mkRun s (final_solution r) (elapsed_time r) (clock r) in
        (ObjectiveWorseRestart,
         read_clock timeout (finish (on_solver restart (read_clock timeout r))))
    else if min_conflict =? 0 then
      let '(below, g) := Rng.uniform_below_tenth (_rng s) in
      let r := on_solver (with_rng g) r in
      if below then
        (PlateauRestart,
         read_clock timeout (finish (on_solver restart (read_clock timeout r))))
      else (Move, read_clock timeout (finish r))
    else (Move, read_clock timeout (finish r))
  else
    (WorseningRestart,
     read_clock timeout (on_solver restart (read_clock timeout r))).

(** One iteration of the [while] loop of [solve]. *)
Definition iteration (timeout : Z) (r : Run) : Branch * Run :=
  let '(variable_to_change, new_value, min_conflict, delta_errors, s) :=
    evaluate_moves (solver r) in
  apply_or_restart timeout variable_to_change new_value min_conflict
    delta_errors (mkRun s (final_solution r) (elapsed_time r) (clock r)).

(** The guard of the [while] loop. *)
Definition continue_search (timeout : Z) (r : Run) : bool :=
  (elapsed_time r <? timeout)
  && ((0 <? _best_sat_error (solver r))
      || ((_best_sat_error (solver r) =? 0) && _is_optimization (solver r))).

(** The [while] loop, with at most [fuel] iterations. *)
Fixpoint search (fuel : nat) (timeout : Z) (r : Run) : option Run :=
  if continue_search timeout r then
    match fuel with
    | O => None
    | S fuel' => search fuel' timeout (iteration timeout r).2
    end
  else Some r.

(** [final_solution.resize( n )]. *)
Definition resize (n : nat) (l : list Z) : list Z :=
  take n l ++ replicate (n - length l) 0.

(** What [solve] gives back: the returned boolean, [final_cost],
    [final_solution], and the engine as it is left. *)
Record Outcome := mkOutcome {
  found : bool;
  final_cost : Z;
  solution : list Z;
  engine : Solver
}.

(** The end of [solve], after the loop. *)
Definition finalize (r : Run) : Outcome :=
  let s := solver r in
  let '(s, final_solution) :=
    if (_best_sat_error s =? 0) && _is_optimization s then
      let s := with_cost_before_postprocess (_best_opt_cost s) s in
      let '(vars, best, sol) :=
        postprocess_optimization (_objective s) (_variables s)
          (_best_opt_cost s) (final_solution r) in
      (with_best_opt_cost best (with_variables vars s), sol)
    else (s, final_solution r) in
  let '(s, final_cost) :=
    if _is_optimization s then
      let s := if _best_opt_cost s <? 0
               then with_cost_before_postprocess (- _cost_before_postprocess s)
                      (with_best_opt_cost (- _best_opt_cost s) s)
               else s in
      (s, _best_opt_cost s)
    else (s, _best_sat_error s) in
  let s := with_variables
             (set_values_from (_number_variables s) final_solution
                (_variables s)) s in
  mkOutcome (_best_sat_error s =? 0) final_cost final_solution s.

(** [solve( final_cost, final_solution, timeout, no_random_starting_point )].
    The loop is given one iteration per clock reading, and two more. *)
Definition solve (final_solution : list Z) (timeout : Z)
    (no_random_starting_point : bool) (clock : list Z) (s : Solver)
  : option Outcome :=
  let s := with_no_random_starting_point no_random_starting_point s in
  let final_solution := resize (_number_variables s) final_solution in
  let s := restart s in
  let r := read_clock timeout (mkRun s final_solution 0 clock) in
  finalize <$> search (S (S (length clock))) timeout r.

(** *** Construction *)

(** [Solver]'s constructors; [objective] is [None] for the constructor
    without objective, which substitutes [NullObjective]. *)
Definition make (variables : list Var) (constraints : list Ctr)
    (objective : option Objective) (permutation_problem : bool) : Solver :=
  let number_variables := length variables in
  let number_constraints := length constraints in
  let vars := imap (fun i v => set_id i v) variables in
  let ctrs := imap (fun i c => set_ctr_id i c) constraints in
  mkSolver vars ctrs
    (match objective with Some o => o | None => NullObjective vars end)
    []
    (match objective with Some _ => true | None => false end)
    false true number_variables number_constraints
    ((fun variable_id =>
        filter (fun constraint_id =>
                  has_variable variable_id (ctrs !!! constraint_id) = true)
               (seq 0 number_constraints))
       <$> seq 0 number_variables)
    (replicate number_variables 0)
    (replicate number_variables 0%nat)
    (replicate number_constraints 0)
    (replicate number_variables 0)
    (replicate number_variables 0)
    DBL_MAX DBL_MAX DBL_MAX DBL_MAX DBL_MAX DBL_MAX
    (mkNeighborhood permutation_problem).

End Engine.

(** ** The default tie-break of the objective *)

Module ObjectiveImpl.
Section Objective.

(** [Objective::cost( variables )], that is, the user's [required_cost]. *)
Variable cost : list Var -> Z.

(** The loop of [expert_heuristic_value] over the candidate values; [var]
    is the position in [variables] of the variable passed by reference,
    so that setting its value is seen by [cost( variables )]. *)
Definition rescore (var : nat) (possible_values : list Z)
    (variables : list Var) : list Var * Z * list Z :=
  foldl (fun '(variables, minCost, bestValues) v =>
           let variables := alter (set_value v) var variables in
           let simulatedCost := cost variables in
           if minCost >? simulatedCost then (variables, simulatedCost, [v])
           else if minCost =? simulatedCost
                then (variables, minCost, bestValues ++ [v])
                else (variables, minCost, bestValues))
        (variables, DBL_MAX, []) possible_values.

Definition expert_heuristic_value (variables : list Var) (var : nat)
    (possible_values : list Z) (g : Rng.t) : list Var * Z * Rng.t :=
  let backup := get_value (variables !!! var) in
  let '(variables, _, bestValues) := rescore var possible_values variables in
  let variables := alter (set_value backup) var variables in
  let '(x, g) := Rng.pick bestValues g in
  (variables, x, g).

(** The overload on a vector of variables: a uniform pick. *)
Definition expert_heuristic_variable (bad_variables : list nat) (g : Rng.t)
  : nat * Rng.t :=
  Rng.pick bad_variables g.

End Objective.
End ObjectiveImpl.

(** ** The older translation unit of the solver *)

Module Legacy.

(** Modelled from the spec: the class [Constraint] as the older solver uses
    it.  The constraint observes the solver's variables themselves (it holds
    references to them), so that [cost()] is the user's function of the
    live variables. *)
Record Constr := mkConstr {
  get_id : nat;
  scope : list nat;
  required_cost : list Var -> Z
}.

Definition cost (c : Constr) (vars : list Var) : Z := required_cost c vars.

Definition has_variable (c : Constr) (var : Var) : bool :=
  bool_decide (_id var ∈ scope c).

(** The data members of the older [Solver].  A [Variable*] is embedded as
    the position of the variable in [_vecVariables]; the field
    [_cache_value] of this version is [_current_value] of [Var]. *)
Record Solver := mkSolver {
  _vecVariables : list Var;
  _vecConstraints : list Constr;
  _objective : list Var -> Z;
  _weakTabuList : list Z;
  _isOptimization : bool;
  _permutationProblem : bool;
  _number_variables : nat;
  _varOffset : nat;
  _ctrOffset : nat;
  _bestSatCost : Z;
  _bestSatCostOptLoop : Z;
  _bestOptCost : Z;
  _rng : Rng.t
}.

Definition with_vecVariables (x : list Var) (s : Solver) : Solver :=
  mkSolver x (_vecConstraints s) (_objective s) (_weakTabuList s)
    (_isOptimization s) (_permutationProblem s) (_number_variables s)
    (_varOffset s) (_ctrOffset s) (_bestSatCost s) (_bestSatCostOptLoop s)
    (_bestOptCost s) (_rng s).

Definition with_weakTabuList (x : list Z) (s : Solver) : Solver :=
  mkSolver (_vecVariables s) (_vecConstraints s) (_objective s) x
    (_isOptimization s) (_permutationProblem s) (_number_variables s)
    (_varOffset s) (_ctrOffset s) (_bestSatCost s) (_bestSatCostOptLoop s)
    (_bestOptCost s) (_rng s).

Definition with_bestSatCost (x : Z) (s : Solver) : Solver :=
  mkSolver (_vecVariables s) (_vecConstraints s) (_objective s)
    (_weakTabuList s) (_isOptimization s) (_permutationProblem s)
    (_number_variables s) (_varOffset s) (_ctrOffset s) x
    (_bestSatCostOptLoop s) (_bestOptCost s) (_rng s).

Definition with_bestSatCostOptLoop (x : Z) (s : Solver) : Solver :=
  mkSolver (_vecVariables s) (_vecConstraints s) (_objective s)
    (_weakTabuList s) (_isOptimization s) (_permutationProblem s)
    (_number_variables s) (_varOffset s) (_ctrOffset s) (_bestSatCost s) x
    (_bestOptCost s) (_rng s).

Definition with_rng (x : Rng.t) (s : Solver) : Solver :=
  mkSolver (_vecVariables s) (_vecConstraints s) (_objective s)
    (_weakTabuList s) (_isOptimization s) (_permutationProblem s)
    (_number_variables s) (_varOffset s) (_ctrOffset s) (_bestSatCost s)
    (_bestSatCostOptLoop s) (_bestOptCost s) x.

(** [_mapVarCtr[ var ]]: the constructor pushes, in order, every constraint
    that has the variable. *)
Definition _mapVarCtr (s : Solver) (var : Var) : list Constr :=
  filter (fun c => has_variable c var = true) (_vecConstraints s).

(** The index [v._id - _varOffset] of a variable in the cost vectors. *)
Definition var_slot (s : Solver) (v : Var) : nat := (_id v - _varOffset s)%nat.

Definition ctr_slot (s : Solver) (c : Constr) : nat :=
  (get_id c - _ctrOffset s)%nat.

Definition compute_constraints_costs (s : Solver) (costConstraints : list Z)
  : list Z * Z :=
  foldl (fun '(costConstraints, satisfactionCost) c =>
           let cost := cost c (_vecVariables s) in
           (<[ctr_slot s c := cost]> costConstraints, satisfactionCost + cost))
        (costConstraints, 0) (_vecConstraints s).

Definition compute_variables_costs (s : Solver) (costConstraints : list Z)
    (costVariables costNonTabuVariables : list Z) : list Z * list Z :=
  foldl (fun '(costVariables, costNonTabuVariables) v =>
           let id := var_slot s v in
           let costVariables :=
             foldl (fun cv c =>
                      alter (fun e => e + costConstraints !!! ctr_slot s c) id cv)
                   costVariables (_mapVarCtr s v) in
           (costVariables,
            if _weakTabuList s !!! id =? 0
            then <[id := costVariables !!! id]> costNonTabuVariables
            else costNonTabuVariables))
        (costVariables, replicate (length costNonTabuVariables) 0)
        (_vecVariables s).

Definition monte_carlo_sampling (s : Solver) : Solver :=
  let '(vs, g) := pick_random_values (_vecVariables s) (_rng s) in
  with_rng g (with_vecVariables vs s).

Definition random_permutations (s : Solver) : Solver :=
  let '(vs, g) := random_swaps (_vecVariables s) (_rng s) in
  with_rng g (with_vecVariables vs s).

(** [update_better_configuration( best, current, configuration )]: returns
    the new [best] and the new [configuration]. *)
Definition update_better_configuration (s : Solver) (current : Z)
    (configuration : list Z) : Z * list Z :=
  (current,
   foldl (fun conf i => <[i := get_value (_vecVariables s !!! i)]> conf)
         configuration (seq 0 (_number_variables s))).

Definition sum_costs (s : Solver) : Z :=
  foldl (fun acc c => acc + cost c (_vecVariables s)) 0 (_vecConstraints s).

(** The sampling loops of [set_initial_configuration] (the two loops of the
    source differ by their sampler only). *)
Fixpoint sampling_loop (sampler : Solver -> Solver) (i : nat) (bestSatCost : Z)
    (bestValues : list Z) (s : Solver) : Solver * list Z :=
  match i with
  | O => (s, bestValues)
  | S i' =>
      let s1 := sampler s in
      let currentSatCost := sum_costs s1 in
      let '(bestSatCost1, bestValues1) :=
        if bestSatCost >? currentSatCost
        then update_better_configuration s1 currentSatCost bestValues
        else (bestSatCost, bestValues) in
      if currentSatCost =? 0 then (s1, bestValues1)
      else sampling_loop sampler i' bestSatCost1 bestValues1 s1
  end.

Definition set_initial_configuration (samplings : Z) (s : Solver) : Solver :=
  if negb (_permutationProblem s) then
    if samplings =? 1 then monte_carlo_sampling s
    else
      let samplings := Z.max 2 samplings in
      let '(s1, bestValues) :=
        sampling_loop monte_carlo_sampling (Z.to_nat samplings) DBL_MAX
          (replicate (_number_variables s) 0) s in
      with_vecVariables
        (set_values_from (_number_variables s1) bestValues (_vecVariables s1)) s1
  else
    let samplings := Z.max 1 samplings in
    let '(s1, bestValues) :=
      sampling_loop random_permutations (Z.to_nat samplings) DBL_MAX
        (replicate (_number_variables s) 0) s in
    with_vecVariables
      (set_values_from (_number_variables s1) bestValues (_vecVariables s1)) s1.

(** [decay_weak_tabu_list( freeVariables )]: returns the new list and the
    new value of the flag passed by reference.  The [assert] that ends the
    body of the loop is left out: it holds at every cell when no counter
    is negative at the call, and the counters are then decremented without
    leaving the range of [int]. *)
Definition decay_weak_tabu_list (s : Solver) (freeVariables : bool)
  : Solver * bool :=
  let '(l, free) :=
    foldl (fun '(l, free) i =>
             if l !!! i =? 0 then (l, true)
             else (alter (fun t => t - 1) i l, free))
          (_weakTabuList s, freeVariables) (seq 0 (length (_weakTabuList s))) in
  (with_weakTabuList l s, free).

(** [compute_worst_variables( freeVariables, costVariables )]: the positions
    of the worst variables. *)
Definition compute_worst_variables (s : Solver) (freeVariables : bool)
    (costVariables : list Z) : list nat :=
  (foldl (fun '(worstVariableList, worstVariableCost) p =>
            let v := _vecVariables s !!! p in
            let id := var_slot s v in
            if negb freeVariables || (_weakTabuList s !!! id =? 0) then
              if worstVariableCost <? costVariables !!! id
              then ([p], costVariables !!! id)
              else if worstVariableCost =? costVariables !!! id
                   then (worstVariableList ++ [p], worstVariableCost)
                   else (worstVariableList, worstVariableCost)
            else (worstVariableList, worstVariableCost))
         ([], 0) (seq 0 (length (_vecVariables s)))).1.

(** "NO VALUE BACKED-UP!" *)
Definition simulate_local_move_cost (s : Solver) (variable : nat) (value : Z)
    (costConstraints : list Z) (currentSatCost : Z) : Solver * Z :=
  let s := with_vecVariables
             (alter (set_value value) variable (_vecVariables s)) s in
  (s,
   foldl (fun newCurrentSatCost c =>
            newCurrentSatCost
            + (cost c (_vecVariables s) - costConstraints !!! ctr_slot s c))
         currentSatCost (_mapVarCtr s (_vecVariables s !!! variable))).

Definition simulate_permutation_cost (s : Solver) (worstVariable : nat)
    (otherVariable : nat) (costConstraints : list Z) (currentSatCost : Z)
  : Solver * Z :=
  let done := replicate (length costConstraints) false in
  let s := with_vecVariables
             (swap_index_value worstVariable otherVariable (_vecVariables s)) s in
  let '(newCurrentSatCost, done) :=
    foldl (fun '(newCurrentSatCost, done) c =>
             (newCurrentSatCost
              + (cost c (_vecVariables s) - costConstraints !!! ctr_slot s c),
              <[ctr_slot s c := true]> done))
          (currentSatCost, done)
          (_mapVarCtr s (_vecVariables s !!! worstVariable)) in
  let newCurrentSatCost :=
    foldl (fun newCurrentSatCost c =>
             if negb (done !!! ctr_slot s c)
             then newCurrentSatCost
                  + (cost c (_vecVariables s) - costConstraints !!! ctr_slot s c)
             else newCurrentSatCost)
          newCurrentSatCost
          (_mapVarCtr s (_vecVariables s !!! otherVariable)) in
  (* We must roll back to the previous state before returning. *)
  let s := with_vecVariables
             (swap_index_value worstVariable otherVariable (_vecVariables s)) s in
  (s, newCurrentSatCost).

(** [_objective->heuristic_value( _vecVariables, *variable, bestValuesList )]:
    the default tie-break. *)
Definition heuristic_value (s : Solver) (variable : nat)
    (bestValuesList : list Z) : Solver * Z :=
  let '(vars, x, g) :=
    ObjectiveImpl.expert_heuristic_value (_objective s) (_vecVariables s)
      variable bestValuesList (_rng s) in
  (with_rng g (with_vecVariables vars s), x).

Definition local_move (s : Solver) (variable : nat) (costConstraints : list Z)
    (currentSatCost : Z) : Solver * Z :=
  let '(s, bestCost, bestValuesList) :=
    foldl (fun '(s, bestCost, bestValuesList) val =>
             let '(s, newCurrentSatCost) :=
               simulate_local_move_cost s variable val costConstraints
                 currentSatCost in
             if bestCost >? newCurrentSatCost then (s, newCurrentSatCost, [val])
             else if bestCost =? newCurrentSatCost
                  then (s, bestCost, bestValuesList ++ [val])
                  else (s, bestCost, bestValuesList))
          (s, DBL_MAX, []) (_domain (_vecVariables s !!! variable)) in
  let '(s, bestValue) :=
    if (1 <? length bestValuesList)%nat
    then heuristic_value s variable bestValuesList
    else (s, bestValuesList !!! 0%nat) in
  (with_vecVariables (alter (set_value bestValue) variable (_vecVariables s)) s,
   bestCost).

Definition permutation_move (s : Solver) (variable : nat)
    (costConstraints : list Z) (currentSatCost : Z) : Solver * Z :=
  let '(s, bestCost, bestVarToSwapList) :=
    foldl (fun '(s, bestCost, bestVarToSwapList) otherVariable =>
             if bool_decide (_id (_vecVariables s !!! otherVariable)
                             = _id (_vecVariables s !!! variable))
             then (s, bestCost, bestVarToSwapList)
             else
               let '(s, newCurrentSatCost) :=
                 simulate_permutation_cost s variable otherVariable
                   costConstraints currentSatCost in
               if bestCost >? newCurrentSatCost
               then (s, newCurrentSatCost, [otherVariable])
               else if bestCost =? newCurrentSatCost
                    then (s, bestCost, bestVarToSwapList ++ [otherVariable])
                    else (s, bestCost, bestVarToSwapList))
          (s, DBL_MAX, []) (seq 0 (length (_vecVariables s))) in
  let '(bestVarToSwap, g) :=
    if (1 <? length bestVarToSwapList)%nat
    then ObjectiveImpl.expert_heuristic_variable bestVarToSwapList (_rng s)
    else (bestVarToSwapList !!! 0%nat, _rng s) in
  (with_rng g
     (with_vecVariables
        (swap_index_value variable bestVarToSwap (_vecVariables s)) s),
   bestCost).

(** [tabuTimeLocalMin] and [tabuTimeSelected]. *)
Definition tabuTimeLocalMin (s : Solver) : Z :=
  Z.max 1 (Z.of_nat (_number_variables s) / 2).

Definition tabuTimeSelected (s : Solver) : Z :=
  Z.max 1 (tabuTimeLocalMin s / 2).

(** One turn of the satisfaction loop, up to the rounding guard; returns
    the solver, [finalSolution], the worst variable and [currentSatCost]. *)
Definition satisfaction_turn (s : Solver) (finalSolution : list Z)
  : Solver * list Z * nat * Z :=
  let costConstraints := replicate (length (_vecConstraints s)) 0 in
  let costVariables := replicate (_number_variables s) 0 in
  let costNonTabuVariables := replicate (_number_variables s) 0 in
  let '(costConstraints, currentSatCost) :=
    compute_constraints_costs s costConstraints in
  let '(costVariables, costNonTabuVariables) :=
    compute_variables_costs s costConstraints costVariables
      costNonTabuVariables in
  let '(s, freeVariables) := decay_weak_tabu_list s false in
  let worstVariableList := compute_worst_variables s freeVariables costVariables in
  let '(worstVariable, g) :=
    if (1 <? length worstVariableList)%nat
    then Rng.pick worstVariableList (_rng s)
    else (worstVariableList !!! 0%nat, _rng s) in
  let s := with_rng g s in
  let '(s, currentSatCost) :=
    if _permutationProblem s
    then permutation_move s worstVariable costConstraints currentSatCost
    else local_move s worstVariable costConstraints currentSatCost in
  let slot := var_slot s (_vecVariables s !!! worstVariable) in
  let '(s, finalSolution) :=
    if _bestSatCostOptLoop s >? currentSatCost then
      let s := with_bestSatCostOptLoop currentSatCost s in
      let '(s, finalSolution) :=
        if (_bestSatCost s >=? _bestSatCostOptLoop s) && (_bestSatCost s >? 0)
        then (with_bestSatCost (_bestSatCostOptLoop s) s,
              foldl (fun fs v => <[var_slot s v := get_value v]> fs)
                    finalSolution (_vecVariables s))
        else (s, finalSolution) in
      (* freeze the variable a bit *)
      (with_weakTabuList (<[slot := tabuTimeSelected s]> (_weakTabuList s)) s,
       finalSolution)
    else (* local minima *)
      (with_weakTabuList (<[slot := tabuTimeLocalMin s]> (_weakTabuList s)) s,
       finalSolution) in
  let s := if _bestSatCostOptLoop s <? 1 (* 1.0e-10 on integer costs *)
           then with_bestSatCost 0 (with_bestSatCostOptLoop 0 s) else s in
  (s, finalSolution, worstVariable, currentSatCost).

End Legacy.

(** * Stated properties *)

Import Engine.

(** The sum of a vector of errors. *)
Definition total (l : list Z) : Z := foldr Z.add 0 l.

(** The constraints whose scope contains the variable [v]. *)
Definition constraints_of (s : Solver) (v : nat) : list nat :=
  filter (fun i => v ∈ get_variable_ids (_constraints s !!! i))
         (seq 0 (_number_constraints s)).

(** P1: [current_sat_error] is the sum of [error_constraints]. *)
Definition P1 (s : Solver) : Prop :=
  _current_sat_error s = total (_error_constraints s).

(** P2: [error_variables[v]] is the sum of [error_constraints[i]] over
    exactly the constraints [i] whose scope contains [v]. *)
Definition P2 (s : Solver) : Prop :=
  forall v, (v < _number_variables s)%nat ->
    _error_variables s !!! v
    = total ((fun i => _error_constraints s !!! i) <$> constraints_of s v).

(** P3: a fresh call to [error()] equals [error_constraints[i]]. *)
Definition P3 (s : Solver) : Prop :=
  forall i, (i < _number_constraints s)%nat ->
    error (_constraints s !!! i) = _error_constraints s !!! i.

(** The scopes of the constraints, which never change. *)
Definition scopes (s : Solver) : list (list nat) :=
  get_variable_ids <$> _constraints s.

(** An engine as the constructor builds it from a model whose domains and
    scopes are sets, the scopes naming variables of the model. *)
Record well_formed (s : Solver) : Prop := mk_well_formed {
  wf_variables : length (_variables s) = _number_variables s;
  wf_constraints : length (_constraints s) = _number_constraints s;
  wf_matrix :
    _matrix_var_ctr s
    = (fun v => filter (fun i => has_variable v (_constraints s !!! i) = true)
                       (seq 0 (_number_constraints s)))
      <$> seq 0 (_number_variables s);
  wf_error_constraints :
    length (_error_constraints s) = _number_constraints s;
  wf_error_variables : length (_error_variables s) = _number_variables s;
  wf_scopes :
    forall ids, ids ∈ scopes s ->
      NoDup ids /\ forall v, v ∈ ids -> (v < _number_variables s)%nat;
  wf_domains : forall d, d ∈ (_domain <$> _variables s) -> NoDup d
}.

(** The run of [solve] up to its loop, and the states at the head of the
    loop during at most [fuel] iterations. *)
Definition start_run (final_solution : list Z) (timeout : Z)
    (no_random_starting_point : bool) (clock : list Z) (s : Solver) : Run :=
  let s := with_no_random_starting_point no_random_starting_point s in
  read_clock timeout
    (mkRun (restart s) (resize (_number_variables s) final_solution) 0 clock).

Fixpoint loop_heads (fuel : nat) (timeout : Z) (r : Run) : list Run :=
  r :: match fuel with
       | O => []
       | S fuel' =>
           if continue_search timeout r
           then loop_heads fuel' timeout (iteration timeout r).2
           else []
       end.

(** What the loop of [expert_heuristic_value] has established once the
    candidates [seen] have been rescored, [variables] being the vector at
    the call. *)
Definition rescored (cost : list Var -> Z) (var : nat) (variables : list Var)
    (seen : list Z) (st : list Var * Z * list Z) : Prop :=
  let '(vars, minCost, bestValues) := st in
  (forall b, alter (set_value b) var vars = alter (set_value b) var variables)
  /\ minCost <= DBL_MAX
  /\ (forall x, x ∈ bestValues ->
        x ∈ seen /\ cost (alter (set_value x) var variables) = minCost)
  /\ (forall v, v ∈ seen ->
        minCost <= cost (alter (set_value v) var variables))
  /\ (seen <> [] -> bestValues <> [])
  /\ (seen = [] -> minCost = DBL_MAX).

(** Two engine states over the same model: same sizes, same adjacency, same
    scopes and domains, same mode, error vectors of the same lengths. *)
Record same_model (s s' : Solver) : Prop := mk_same_model {
  sm_number_variables : _number_variables s' = _number_variables s;
  sm_number_constraints : _number_constraints s' = _number_constraints s;
  sm_matrix : _matrix_var_ctr s' = _matrix_var_ctr s;
  sm_scopes : scopes s' = scopes s;
  sm_domains : _domain <$> _variables s' = _domain <$> _variables s;
  sm_is_optimization : _is_optimization s' = _is_optimization s;
  sm_neighborhood : _neighborhood s' = _neighborhood s;
  sm_error_constraints :
    length (_error_constraints s') = length (_error_constraints s);
  sm_error_variables :
    length (_error_variables s') = length (_error_variables s)
}.


(** The cost that [solve] reports for an engine state: [best_opt_cost]
    (un-negated) for optimization problems, [best_sat_error] otherwise. *)
Definition best_cost (s : Solver) : Z :=
  if _is_optimization s
  then (if _best_opt_cost s <? 0 then - _best_opt_cost s else _best_opt_cost s)
  else _best_sat_error s.

(** The keys of a [std::map] are strictly increasing. *)
Fixpoint sorted_keys (m : list (Z * list Z)) : Prop :=
  match m with
  | [] => True
  | kv :: m' => (forall k', k' ∈ m'.*1 -> kv.1 < k') /\ sorted_keys m'
  end.

(** The candidate of an iteration, as long as it is a real one
    ([min_conflict] below its initial value): its cumulated delta is the
    sum of its deltas, one per constraint of the variable. *)
Definition real_candidate (s : Solver) (v : nat) (x mc : Z)
    (de : list (Z * list Z)) : Prop :=
  mc < DBL_MAX ->
  mc = accumulate (map_at x de)
  /\ length (map_at x de) = length (_matrix_var_ctr s !!! v).

(** What a branch of the loop body does to [best_sat_error], [s] being
    the engine before the iteration, [s'] the engine after it and [mc] the
    least cumulated delta. *)
Definition branch_effect (b : Branch) (mc : Z) (s s' : Solver) : Prop :=
  match b with
  | Move =>
      mc <= 0
      /\ _current_sat_error s' = _current_sat_error s + mc
      /\ _best_sat_error s' = Z.min (_best_sat_error s) (_current_sat_error s')
      /\ _weak_tabu_list s' = _weak_tabu_list s
  | ObjectiveImproved | ObjectivePlateauWalk =>
      _current_sat_error s' = _current_sat_error s
      /\ _best_sat_error s' = _best_sat_error s
      /\ _weak_tabu_list s' = _weak_tabu_list s
  | WorseningRestart =>
      _best_sat_error s' = DBL_MAX
      /\ _weak_tabu_list s' = fill 0 (_weak_tabu_list s)
  | PlateauRestart | ObjectivePlateauRestart | ObjectiveWorseRestart =>
      _best_sat_error s' = Z.min DBL_MAX (_current_sat_error s')
      /\ _weak_tabu_list s' = fill 0 (_weak_tabu_list s)
  end.

(** The values of [best_sat_error] at the head of the loop, one after the
    other, and the claim that they never increase. *)
Definition bests (heads : list Run) : list Z :=
  (fun r => _best_sat_error (solver r)) <$> heads.

Definition best_sat_error_non_increasing (heads : list Run) : Prop :=
  forall i j b b', (i <= j)%nat ->
    bests heads !! i = Some b -> bests heads !! j = Some b' -> b' <= b.

(** ** Concrete models *)

(** One variable [x] in [0, 3] and the constraint of error [|x - 10|]
    (the unsatisfiable problem of the spec), the generator holding the
    draws [g]. *)
Definition unsat_engine (g : Rng.t) : Solver :=
  with_rng g
    (make [mkVariable 0 [0; 1; 2; 3] 0 0]
          [mkCtr 0 [0%nat] (fun vs => Z.abs (vs !!! 0%nat - 10)) [0]]
          None false).

(** The run on that problem from the user's starting point [x = 0], every
    draw being 0, at the head of the loop and one iteration later. *)
Definition unsat_start : Run :=
  start_run [] 1000 true [1; 2; 3] (unsat_engine []).

Definition unsat_second : Run := (iteration 1000 unsat_start).2.

(** One variable in [0, 2] and the constraint of error [x + 1]; the ten
    samplings of a restart draw 0, then eight times 1, then 2. *)
Definition sampling_engine : Solver :=
  with_rng [0; 1; 1; 1; 1; 1; 1; 1; 1; 2]%nat
    (make [mkVariable 0 [0; 1; 2] 0 0]
          [mkCtr 0 [0%nat] (fun vs => vs !!! 0%nat + 1) [0]]
          None false).

(** The permutation problem of the spec: four variables holding 0, 1, 2, 3
    and a constraint that is always satisfied.  The draws: no swap for the
    six couples, then variable 0, value 1, and no restart. *)
Definition permutation_engine : Solver :=
  with_rng [1; 1; 1; 1; 1; 1; 0; 1; 1]%nat
    (make ((fun i => mkVariable (Z.to_nat i) [0; 1; 2; 3] i i) <$> [0; 1; 2; 3])
          [mkCtr 0 [0; 1; 2; 3]%nat (fun _ => 0) [0; 1; 2; 3]]
          None true).

(** The claim that a simulation of the older solver, which leads from [s]
    to [s'], has no net effect: every variable has its value back and every
    constraint its cost. *)
Definition no_net_effect (s s' : Legacy.Solver) : Prop :=
  values (Legacy._vecVariables s') = values (Legacy._vecVariables s)
  /\ forall c, c ∈ Legacy._vecConstraints s ->
       Legacy.cost c (Legacy._vecVariables s')
       = Legacy.cost c (Legacy._vecVariables s).

(** An older solver on one variable in [0, 1], holding 0, and the constraint
    whose cost is the value of the variable. *)
Definition legacy_example : Legacy.Solver :=
  Legacy.mkSolver
    [mkVariable 0 [0; 1] 0 0]
    [Legacy.mkConstr 0 [0%nat] (fun vars => get_value (vars !!! 0%nat))]
    (fun _ => 0) [0] false false 1 0 0 DBL_MAX DBL_MAX DBL_MAX [].

(** An engine on three variables whose errors are 3, 5 and 5. *)
Definition three_errors_engine : Solver :=
  with_error_variables [3; 5; 5]
    (make (replicate 3 (mkVariable 0 [0; 1] 0 0)) [] None false).

(** An objective that prefers the value 1 to any other. *)
Definition prefers_one (vars : list Var) : Z :=
  if get_value (vars !!! 0%nat) =? 1 then 0 else 1.

(** One variable in [0, 3], holding 0. *)
Definition one_variable : list Var := [mkVariable 0 [0; 1; 2; 3] 0 0].

(** ** Notions used by the further properties *)

(** The (index, value) pairs held by the variables. *)
Definition pairs (vars : list Var) : list (Z * Z) :=
  (fun v => (_index v, _current_value v)) <$> vars.

(** What the loops of [random_permutations] keep. *)
Definition swapped (vars0 : list Var) (st : list Var * Rng.t) : Prop :=
  length st.1 = length vars0
  /\ Permutation (pairs st.1) (pairs vars0)
  /\ _id <$> st.1 = _id <$> vars0.

(** The deltas that the constraints of the variable [v] simulate for the
    value [x], one per constraint and in the order of [_matrix_var_ctr],
    and their sum as [std::accumulate] takes it (from 0.0, left to
    right). *)
Definition deltas_of (s : Solver) (v : nat) (x : Z) : list Z :=
  (fun c => simulate_delta v x (_constraints s !!! c))
    <$> _matrix_var_ctr s !!! v.

Definition conflict (s : Solver) (v : nat) (x : Z) : Z :=
  accumulate (deltas_of s v x).


(** For the older solver: the variable at position [p] may be chosen by
    [compute_worst_variables] (it is not tabu, or no variable is free), and
    its cost in [costVariables]. *)
Definition legacy_eligible (s : Legacy.Solver) (freeVariables : bool)
    (p : nat) : bool :=
  negb freeVariables
  || (Legacy._weakTabuList s
        !!! Legacy.var_slot s (Legacy._vecVariables s !!! p) =? 0).

Definition legacy_cost_of (s : Legacy.Solver) (costVariables : list Z)
    (p : nat) : Z :=
  costVariables !!! Legacy.var_slot s (Legacy._vecVariables s !!! p).

(** The decay of one counter of the older solver. *)
Definition legacy_decay (t : Z) : Z := if t =? 0 then 0 else t - 1.

(** [costConstraints] holds the cost of every constraint of the older
    solver on its current configuration. *)
Definition legacy_costs_cached (s : Legacy.Solver) (costConstraints : list Z)
  : Prop :=
  forall c, c ∈ Legacy._vecConstraints s ->
    costConstraints !!! Legacy.ctr_slot s c
    = Legacy.cost c (Legacy._vecVariables s).

(** The cost of a constraint depends on the variables it has only: giving
    a new value to the variable at position [p] leaves the cost of the
    constraints without that variable as it is. *)
Definition legacy_local (s : Legacy.Solver) (p : nat) : Prop :=
  forall c x, c ∈ Legacy._vecConstraints s ->
    Legacy.has_variable c (Legacy._vecVariables s !!! p) = false ->
    Legacy.cost c (alter (set_value x) p (Legacy._vecVariables s))
    = Legacy.cost c (Legacy._vecVariables s).

(** The cost that the older solver simulates for giving the value [x] to
    the variable at position [variable], and for swapping this variable
    with the one at position [other]. *)
Definition legacy_move_cost (s : Legacy.Solver) (variable : nat)
    (costConstraints : list Z) (currentSatCost : Z) (x : Z) : Z :=
  (Legacy.simulate_local_move_cost s variable x costConstraints
     currentSatCost).2.

Definition legacy_swap_cost (s : Legacy.Solver) (variable : nat)
    (costConstraints : list Z) (currentSatCost : Z) (other : nat) : Z :=
  (Legacy.simulate_permutation_cost s variable other costConstraints
     currentSatCost).2.

(** The variable at position [p] is another variable than the one at
    position [variable]. *)
Definition legacy_other (s : Legacy.Solver) (variable p : nat) : Prop :=
  _id (Legacy._vecVariables s !!! p)
  <> _id (Legacy._vecVariables s !!! variable).

(** ** The older [Objective]: tie-break on a helper vector *)

Module OldObjective.

(** [numeric_limits<int>::max()]. *)
Definition INT_MAX : Z := 2147483647.

(** The locals [best] and [bestHelp] and the two reference parameters of
    [heuristicValue]. *)
Record Scan := mkScan {
  best : nat;
  bestHelp : Z;
  bestEstimatedCost : Z;
  bestValue : Z
}.

(** One turn of the loop of [heuristicValue]; [None] is the exception
    [std::out_of_range] that [heuristicValueHelper.at( i )] throws.  The
    condition is evaluated from left to right, [at] being called only when
    the tests before it do not decide. *)
Definition heuristicValue_turn (vecGlobalCosts heuristicValueHelper : list Z)
    (st : option Scan) (i : nat) : option Scan :=
  match st with
  | None => None
  | Some st =>
      let c := vecGlobalCosts !!! i in
      let entered : option bool :=
        if c <? bestEstimatedCost st then Some true
        else if (c =? bestEstimatedCost st) && (c <? INT_MAX) then
          if (i =? 0)%nat then Some true
          else match heuristicValueHelper !! i with
               | None => None
               | Some h => Some (h <? bestHelp st)
               end
        else Some false in
      match entered with
      | None => None
      | Some false => Some st
      | Some true =>
          match heuristicValueHelper !! i with
          | None => None
          | Some h =>
              Some (mkScan i (if h <? bestHelp st then h else bestHelp st)
                      c (Z.of_nat i - 1))
          end
      end
  end.

(** [heuristicValue( vecGlobalCosts, bestEstimatedCost, bestValue )]:
    returns [best] and the new values of the two references. *)
Definition heuristicValue (vecGlobalCosts heuristicValueHelper : list Z)
    (bestEstimatedCost0 bestValue0 : Z) : option (nat * Z * Z) :=
  (fun st => (best st, bestEstimatedCost st, bestValue st))
    <$> foldl (heuristicValue_turn vecGlobalCosts heuristicValueHelper)
              (Some (mkScan 0 INT_MAX bestEstimatedCost0 bestValue0))
              (seq 0 (length vecGlobalCosts)).

Definition initHelper (size : nat) : list Z := replicate size INT_MAX.

Definition resetHelper (heuristicValueHelper : list Z) : list Z :=
  replicate (length heuristicValueHelper) INT_MAX.

End OldObjective.

(** The constraints of the older solver have slots of their own below [n]
    in the vectors indexed by [get_id() - _ctrOffset]. *)
Definition legacy_slots_distinct (s : Legacy.Solver) (n : nat) : Prop :=
  (forall c, c ∈ Legacy._vecConstraints s -> (Legacy.ctr_slot s c < n)%nat)
  /\ forall c c', c ∈ Legacy._vecConstraints s ->
       c' ∈ Legacy._vecConstraints s ->
       Legacy.ctr_slot s c = Legacy.ctr_slot s c' -> c = c'.

(** Swapping the variables at positions [worst] and [other] leaves the
    cost of the constraints that have neither as it is. *)
Definition legacy_swap_local (s : Legacy.Solver) (worst other : nat) : Prop :=
  forall c, c ∈ Legacy._vecConstraints s ->
    Legacy.has_variable c (Legacy._vecVariables s !!! worst) = false ->
    Legacy.has_variable c (Legacy._vecVariables s !!! other) = false ->
    Legacy.cost c (swap_index_value worst other (Legacy._vecVariables s))
    = Legacy.cost c (Legacy._vecVariables s).

(** ** Further concrete models *)

(** An older solver on two variables in [0, 2], holding 0 and 2, with the
    constraint whose cost is the value of the first variable and the
    constraint whose cost is the distance between the two values. *)
Definition legacy_pair : Legacy.Solver :=
  Legacy.mkSolver
    [mkVariable 0 [0; 1; 2] 0 0; mkVariable 1 [0; 1; 2] 2 2]
    [Legacy.mkConstr 0 [0%nat] (fun vars => get_value (vars !!! 0%nat));
     Legacy.mkConstr 1 [0%nat; 1%nat]
       (fun vars => Z.abs (get_value (vars !!! 0%nat)
                           - get_value (vars !!! 1%nat)))]
    (fun _ => 0) [0; 0] false false 2 0 0 DBL_MAX DBL_MAX DBL_MAX [].

(** The configurations that the sampling loop of the older
    [set_initial_configuration] draws with [sampler], at most [i] of them,
    the loop ending at the first one of cost 0. *)
Fixpoint legacy_samples (sampler : Legacy.Solver -> Legacy.Solver) (i : nat)
    (s : Legacy.Solver) : list Legacy.Solver :=
  match i with
  | O => []
  | S i' =>
      let s1 := sampler s in
      s1 :: (if Legacy.sum_costs s1 =? 0 then []
             else legacy_samples sampler i' s1)
  end.

(** The sampler and the number of samples of [set_initial_configuration]
    (outside the case of a single Monte Carlo sample). *)
Definition legacy_sampler (s : Legacy.Solver) : Legacy.Solver -> Legacy.Solver :=
  if Legacy._permutationProblem s
  then Legacy.random_permutations else Legacy.monte_carlo_sampling.

Definition legacy_sample_count (s : Legacy.Solver) (samplings : Z) : nat :=
  Z.to_nat (if Legacy._permutationProblem s
            then Z.max 1 samplings else Z.max 2 samplings).

(** The cost of a constraint is a function of the values of the
    variables. *)
Definition legacy_values_only (s : Legacy.Solver) : Prop :=
  forall c vs vs', c ∈ Legacy._vecConstraints s ->
    values vs = values vs' -> Legacy.cost c vs = Legacy.cost c vs'.

(** ** Where the embedding is the machine's arithmetic *)

(** Binary64 holds every integer between [-2^53] and [2^53], and adds or
    subtracts two of them exactly when the result is in this range again.
    The statements below that need a sum to cancel, or to be taken in
    another order than the code takes it, carry a hypothesis that keeps
    every number of the computation in this range. *)
Definition EXACT_MAX : Z := 2 ^ 53.

(** The errors of the constraints of the engine are integers between 0 and
    [B] on every assignment, and [B] is small enough for every sum of the
    run to be exact: an error cached for a constraint is an error of this
    constraint shifted by at most two deltas, and the sums run over at most
    [_number_constraints] constraints. *)
Definition exact_errors (B : Z) (s : Solver) : Prop :=
  (forall c values, c ∈ _constraints s ->
     0 <= required_error c values <= B)
  /\ 4 * Z.of_nat (_number_constraints s) * B <= EXACT_MAX.

(** The same for one simulation of the older solver: the costs of the
    constraints on the current configuration and on the simulated one
    [vars'] are integers between 0 and [B], and the sum of all the costs,
    shifted by the differences of a simulation, is exact. *)
Definition legacy_exact_costs (B : Z) (s : Legacy.Solver) (vars' : list Var)
  : Prop :=
  (forall c, c ∈ Legacy._vecConstraints s ->
     0 <= Legacy.cost c (Legacy._vecVariables s) <= B
     /\ 0 <= Legacy.cost c vars' <= B)
  /\ 2 * Z.of_nat (length (Legacy._vecConstraints s)) * B <= EXACT_MAX.

(** The range of [int]; the tabu counters are [int]s. *)
Definition INT_MIN : Z := - 2 ^ 31.

Definition INT_MAX : Z := 2 ^ 31 - 1.

(** ** Where the picks of the loop are defined *)

(** [rng.pick] in an empty vector is undefined (the embedding then returns
    the default element).  [candidate_values] is the vector of line 590 for
    the engine state at the head of the loop; [picks_defined] tells that
    neither [_worst_variables_list] nor [candidate_values] is empty at the
    picks of the iteration that starts there. *)
Definition candidate_values (s : Solver) : list Z :=
  (select_candidates (cumulate (evaluate_moves s).1.2)).2.

Definition inhabited_list {A} (l : list A) : bool :=
  match l with [] => false | _ :: _ => true end.

Definition picks_defined (s : Solver) : bool :=
  inhabited_list (_worst_variables_list (compute_worst_variables s))
  && inhabited_list (candidate_values s).

(** The picks are defined in every iteration that the loop runs from [r],
    at most [fuel] of them. *)
Fixpoint picks_defined_along (fuel : nat) (timeout : Z) (r : Run) : bool :=
  if continue_search timeout r then
    match fuel with
    | O => true
    | S fuel' =>
        picks_defined (solver r)
        && picks_defined_along fuel' timeout (iteration timeout r).2
    end
  else true.


(** ** The bookkeeping of a move on binary64 numbers *)

(** [Binary64] embeds, on the machine's doubles, the lines of [solve] that
    keep the cached errors up to date when a move is applied: the
    cumulated delta of the chosen value (line 575), [_current_sat_error +=
    min_conflict] (line 664) and the loop over
    [_matrix_var_ctr[ variable_to_change ]] (lines 671 to 680). *)
Module Binary64.

#[local] Instance float_inhabited : Inhabited float := populate 0%float.

(** [std::accumulate( first, last, 0.0 )]. *)
Definition accumulate (l : list float) : float :=
  foldl PrimFloat.add 0%float l.

(** [_current_sat_error], [_error_constraints] and [_error_variables]. *)
Record Cache := mkCache {
  current_sat_error : float;
  error_constraints : list float;
  error_variables : list float
}.

(** [_error_variables[ variable_id ] += delta]. *)
Definition add_delta (delta : float) (c : Cache) (variable_id : nat) : Cache :=
  mkCache (current_sat_error c) (error_constraints c)
    (alter (fun e => PrimFloat.add e delta) variable_id (error_variables c)).

(** The loop over the row of the variable; [scopes] gives the
    [get_variable_ids()] of each constraint. *)
Fixpoint update_errors (scopes : list (list nat)) (deltas : list float)
    (delta_index : nat) (row : list nat) (c : Cache) : Cache :=
  match row with
  | [] => c
  | constraint_id :: row' =>
      let delta := deltas !!! delta_index in
      let c := mkCache (current_sat_error c)
                 (alter (fun e => PrimFloat.add e delta) constraint_id
                        (error_constraints c))
                 (error_variables c) in
      let c := foldl (add_delta delta) c (scopes !!! constraint_id) in
      update_errors scopes deltas (S delta_index) row' c
  end.

(** The move is applied: [deltas] are the deltas simulated for the chosen
    value, [min_conflict] their cumulated value. *)
Definition apply_move (scopes : list (list nat)) (row : list nat)
    (deltas : list float) (c : Cache) : Cache :=
  let min_conflict := accumulate deltas in
  update_errors scopes deltas 0 row
    (mkCache (PrimFloat.add (current_sat_error c) min_conflict)
       (error_constraints c) (error_variables c)).

(** P1 and P2 with the equality of doubles ([==]), the sums being taken
    from left to right. *)
Definition P1 (c : Cache) : bool :=
  PrimFloat.eqb (current_sat_error c) (accumulate (error_constraints c)).

Definition P2 (scopes : list (list nat)) (c : Cache) : bool :=
  forallb
    (fun v =>
       PrimFloat.eqb (error_variables c !!! v)
         (accumulate
            ((fun i => error_constraints c !!! i)
               <$> filter (fun i => v ∈ scopes !!! i)
                          (seq 0 (length scopes)))))
    (seq 0 (length (error_variables c))).







End Binary64.

(** ** Concrete models for the properties below *)

(** Two variables in [0, 1] holding 0 and 1; the constraint of error
    [|x0 - x1|] on both and the constraint of error [|x0|] on the first.
    The draws: variable 0, its second candidate value (1), and a restart
    on the plateau. *)
Definition stale_engine : Solver :=
  with_rng [0; 1; 0]%nat
    (make [mkVariable 0 [0; 1] 0 0; mkVariable 1 [0; 1] 1 1]
          [mkCtr 0 [0%nat; 1%nat]
             (fun vs => Z.abs (vs !!! 0%nat - vs !!! 1%nat)) [0; 1];
           mkCtr 1 [0%nat] (fun vs => Z.abs (vs !!! 0%nat)) [0; 1]]
          None false).

Definition stale_start : Run := start_run [] 1000 true [1; 2; 3] stale_engine.

Definition stale_second : Run := (iteration 1000 stale_start).2.

(** Three variables and no constraint: every error is 0. *)
Definition zero_errors_engine : Solver :=
  make (replicate 3 (mkVariable 0 [0; 1] 0 0)) [] None false.

(** The unsatisfiable problem with an error that is bounded on every
    assignment: one variable [x] in [0, 3] and the constraint of error
    [min( 10, |x - 10| )]. *)
Definition bounded_engine (g : Rng.t) : Solver :=
  with_rng g
    (make [mkVariable 0 [0; 1; 2; 3] 0 0]
          [mkCtr 0 [0%nat] (fun vs => Z.min 10 (Z.abs (vs !!! 0%nat - 10))) [0]]
          None false).

Definition bounded_start : Run :=
  start_run [] 1000 true [1; 2; 3] (bounded_engine []).
(** * Proofs *)

(** ** Worst variables *)

Lemma max_element_fold (l : list Z) (x : Z) :
  let m := foldl (fun best y => if best <? y then y else best) x l in
  (m = x \/ m ∈ l) /\ x <= m /\ forall y, y ∈ l -> y <= m.
Proof.
  revert x. induction l as [|a l IH]; intros x; simpl.
  - split; [by left|]. split; [lia|]. intros y Hy. by apply elem_of_nil in Hy.
  - destruct (Z.ltb_spec x a) as [Hlt|Hge].
    + destruct (IH a) as (Hm & Hle & Hall). split; [|split].
      * right. destruct Hm as [->|Hm]; [left|by right].
      * lia.
      * intros y Hy. apply elem_of_cons in Hy as [->|Hy]; [done|by apply Hall].
    + destruct (IH x) as (Hm & Hle & Hall). split; [|split].
      * destruct Hm as [Hm|Hm]; [by left|right; by right].
      * done.
      * intros y Hy. apply elem_of_cons in Hy as [->|Hy]; [lia|by apply Hall].
Qed.

Lemma max_element_spec (l : list Z) :
  l <> [] -> max_element l ∈ l /\ forall y, y ∈ l -> y <= max_element l.
Proof.
  destruct l as [|x l]; [done|]. intros _. unfold max_element.
  destruct (max_element_fold l x) as (Hm & Hle & Hall). split.
  - destruct Hm as [->|Hm]; [left|by right].
  - intros y Hy. apply elem_of_cons in Hy as [->|Hy]; [done|by apply Hall].
Qed.

(** C7, amended.  In an engine with a variable at least,
    [compute_worst_variables] leaves in [_worst_variables_list] exactly the
    ids of the variables whose [error_variables] is the greatest of all
    (each once); the list is not empty; and when the greatest error is 0
    and no [error_variables] is negative, every variable is in it. *)
Theorem compute_worst_variables_exact (s : Solver) :
  length (_error_variables s) = _number_variables s ->
  (0 < _number_variables s)%nat ->
  let worst := _worst_variables_list (compute_worst_variables s) in
  let top := max_element (_error_variables s) in
  (top ∈ _error_variables s /\ forall e, e ∈ _error_variables s -> e <= top)
  /\ (forall v, v ∈ worst <->
                (v < _number_variables s)%nat /\ _error_variables s !!! v = top)
  /\ NoDup worst
  /\ worst <> []
  /\ (top = 0 -> (forall e, e ∈ _error_variables s -> 0 <= e) ->
      forall v, (v < _number_variables s)%nat -> v ∈ worst).
Proof.
  intros Hlen Hpos worst top.
  assert (Hne : _error_variables s <> []).
  { intros E. rewrite E in Hlen. simpl in Hlen. lia. }
  destruct (max_element_spec _ Hne) as [Hin Hmax].
  assert (Hworst : forall v, v ∈ worst <->
            (v < _number_variables s)%nat /\ _error_variables s !!! v = top).
  { intros v. unfold worst, compute_worst_variables. simpl.
    rewrite list_elem_of_filter, elem_of_seq. fold top. split.
    - intros [E [_ Hv]]. split; [lia|done].
    - intros [Hv E]. split; [done|lia]. }
  split; [done|]. split; [done|]. split; [|split].
  - unfold worst, compute_worst_variables. simpl.
    apply NoDup_filter, NoDup_seq.
  - apply list_elem_of_lookup_total in Hin as (i & Hi & E).
    intros Hnil. assert (Hmem : i ∈ worst).
    { apply Hworst. split; [lia|done]. }
    rewrite Hnil in Hmem. by apply elem_of_nil in Hmem.
  - intros Htop Hnonneg v Hv. apply Hworst. split; [done|].
    assert (Hvin : _error_variables s !!! v ∈ _error_variables s).
    { apply list_elem_of_lookup_total. exists v. split; [lia|done]. }
    specialize (Hmax _ Hvin). specialize (Hnonneg _ Hvin). fold top in Hmax. lia.
Qed.

(** ** The default tie-break of the objective *)

Lemma set_value_set_value (x y : Z) (v : Var) :
  set_value x (set_value y v) = set_value x v.
Proof. reflexivity. Qed.

Lemma alter_set_value_twice (x y : Z) (i : nat) (l : list Var) :
  alter (set_value x) i (alter (set_value y) i l) = alter (set_value x) i l.
Proof.
  revert i. induction l as [|v l IH]; intros [|i]; simpl; try done.
  f_equal. apply IH.
Qed.

Lemma values_alter_set_value (x : Z) (i : nat) (l : list Var) :
  values (alter (set_value x) i l) = alter (fun _ => x) i (values l).
Proof.
  unfold values. revert i. induction l as [|v l IH]; intros [|i]; simpl; try done.
  f_equal. apply IH.
Qed.

Lemma values_restore (i : nat) (l : list Var) :
  values (alter (set_value (get_value (l !!! i))) i l) = values l.
Proof.
  unfold values. revert i. induction l as [|v l IH]; intros [|i]; simpl; try done.
  f_equal. apply IH.
Qed.

Lemma rescore_rescored (cost : list Var -> Z) (var : nat)
    (variables : list Var) (possible_values : list Z) :
  (forall vs, cost vs <= DBL_MAX) ->
  rescored cost var variables possible_values
    (ObjectiveImpl.rescore cost var possible_values variables).
Proof.
  intros cost_finite. unfold ObjectiveImpl.rescore, rescored.
  induction possible_values as [|v seen IH] using rev_ind.
  - simpl. split; [done|]. split; [lia|]. split; [|split; [|done]].
    + intros x Hx. by apply elem_of_nil in Hx.
    + intros w Hw. by apply elem_of_nil in Hw.
  - rewrite foldl_app. simpl.
    destruct (foldl _ _ seen) as [[vars minCost] bestValues].
    destruct IH as (Hvars & Hfin & Hbest & Hmin & Hne & Hinit).
    assert (Hcost : cost (alter (set_value v) var vars)
                    = cost (alter (set_value v) var variables))
      by (by rewrite Hvars).
    assert (Hkeep : forall b,
               alter (set_value b) var (alter (set_value v) var vars)
               = alter (set_value b) var variables).
    { intros b. by rewrite alter_set_value_twice. }
    assert (Hsnoc : seen ++ [v] = [] -> False).
    { intros E. by apply app_eq_nil in E as [_ ?]. }
    destruct (Z.gtb_spec minCost (cost (alter (set_value v) var vars)))
      as [Hgt|Hle]; [|destruct (Z.eqb_spec minCost
                         (cost (alter (set_value v) var vars))) as [Heq|Hneq]].
    + split; [done|]. split; [apply cost_finite|]. split; [|split; [|split]].
      * intros x Hx. apply list_elem_of_singleton in Hx as ->.
        split; [apply elem_of_app; right; by left|by rewrite Hcost].
      * intros w Hw. apply elem_of_app in Hw as [Hw|Hw].
        -- specialize (Hmin _ Hw). lia.
        -- apply list_elem_of_singleton in Hw as ->. lia.
      * done.
      * intros E. by destruct (Hsnoc E).
    + split; [done|]. split; [done|]. split; [|split; [|split]].
      * intros x Hx. apply elem_of_app in Hx as [Hx|Hx].
        -- destruct (Hbest _ Hx). split; [apply elem_of_app; by left|done].
        -- apply list_elem_of_singleton in Hx as ->.
           split; [apply elem_of_app; right; by left|lia].
      * intros w Hw. apply elem_of_app in Hw as [Hw|Hw]; [by apply Hmin|].
        apply list_elem_of_singleton in Hw as ->. lia.
      * intros _ E. by apply app_eq_nil in E as [_ ?].
      * intros E. by destruct (Hsnoc E).
    + split; [done|]. split; [done|]. split; [|split; [|split]].
      * intros x Hx. destruct (Hbest _ Hx). split; [apply elem_of_app; by left|done].
      * intros w Hw. apply elem_of_app in Hw as [Hw|Hw]; [by apply Hmin|].
        apply list_elem_of_singleton in Hw as ->. lia.
      * intros _. apply Hne. intros Hnil.
        (* no candidate seen yet: [minCost] is still [DBL_MAX] *)
        specialize (Hinit Hnil).
        specialize (cost_finite (alter (set_value v) var vars)). lia.
      * intros E. by destruct (Hsnoc E).
Qed.


(** C10.  The default tie-break backs up the value of the variable, rescores
    every candidate, restores the backup, and returns one of the candidates
    that minimise the objective cost: the assignment is left unchanged. *)
Theorem expert_heuristic_value_restores (cost : list Var -> Z)
    (variables : list Var) (var : nat) (possible_values : list Z) (g : Rng.t) :
  (var < length variables)%nat ->
  possible_values <> [] ->
  (forall vs, cost vs <= DBL_MAX) ->
  let '(variables', x, _) :=
    ObjectiveImpl.expert_heuristic_value cost variables var possible_values g in
  variables' = alter (set_value (get_value (variables !!! var))) var variables
  /\ values variables' = values variables
  /\ x ∈ possible_values
  /\ forall v, v ∈ possible_values ->
       cost (alter (set_value x) var variables)
       <= cost (alter (set_value v) var variables).
Proof.
  intros Hvar Hne Hfin. unfold ObjectiveImpl.expert_heuristic_value.
  pose proof (rescore_rescored cost var variables possible_values Hfin) as Hres.
  destruct (ObjectiveImpl.rescore cost var possible_values variables)
    as [[vars minCost] bestValues].
  destruct Hres as (Hvars & _ & Hbest & Hmin & Hnonempty & _).
  unfold Rng.pick. destruct (Rng.draw g) as [r g'].
  assert (Hpick : bestValues !!! (r `mod` length bestValues)%nat ∈ bestValues).
  { apply list_elem_of_lookup_total_2. apply Nat.mod_upper_bound.
    destruct bestValues; [by destruct Hnonempty|simpl; lia]. }
  destruct (Hbest _ Hpick) as [Hin Hcost].
  split; [apply Hvars|]. split; [rewrite Hvars; apply values_restore|].
  split; [done|]. intros v Hv. rewrite Hcost. by apply Hmin.
Qed.

(** ** Frames: what the engine's functions leave alone *)

Lemma same_model_refl (s : Solver) : same_model s s.
Proof. by constructor. Qed.

Lemma same_model_trans (s1 s2 s3 : Solver) :
  same_model s1 s2 -> same_model s2 s3 -> same_model s1 s3.
Proof.
  intros [] []. constructor; congruence.
Qed.

Lemma same_model_foldl {A} (f : Solver -> A -> Solver) (l : list A) :
  (forall s a, same_model s (f s a)) ->
  forall s, same_model s (foldl f s l).
Proof.
  intros Hf. induction l as [|a l IH]; intros s; simpl.
  - apply same_model_refl.
  - eapply same_model_trans; [apply Hf|apply IH].
Qed.

Lemma same_model_with_variables (vs : list Var) (s : Solver) :
  _domain <$> vs = _domain <$> _variables s ->
  same_model s (with_variables vs s).
Proof. intros H. by constructor. Qed.

Lemma same_model_with_constraints (cs : list Ctr) (s : Solver) :
  get_variable_ids <$> cs = scopes s ->
  same_model s (with_constraints cs s).
Proof. intros H. by constructor. Qed.

Lemma same_model_with_error_constraints (l : list Z) (s : Solver) :
  length l = length (_error_constraints s) ->
  same_model s (with_error_constraints l s).
Proof. intros H. by constructor. Qed.

Lemma same_model_with_error_variables (l : list Z) (s : Solver) :
  length l = length (_error_variables s) ->
  same_model s (with_error_variables l s).
Proof. intros H. by constructor. Qed.

Lemma domain_set_value (x : Z) (v : Var) : _domain (set_value x v) = _domain v.
Proof. reflexivity. Qed.

Lemma domains_alter_set_value (x : Z) (i : nat) (vs : list Var) :
  _domain <$> alter (set_value x) i vs = _domain <$> vs.
Proof.
  revert i. induction vs as [|v vs IH]; intros [|i]; simpl; try done.
  f_equal. apply IH.
Qed.

Lemma domains_insert (i : nat) (w : Var) (vs : list Var) :
  _domain w = _domain (vs !!! i) ->
  _domain <$> <[i := w]> vs = _domain <$> vs.
Proof.
  revert i. induction vs as [|v vs IH]; intros [|i] Hw; simpl in *; try done.
  - by rewrite Hw.
  - f_equal. by apply IH.
Qed.

Lemma domains_lookup_total (vs vs' : list Var) (i : nat) :
  _domain <$> vs' = _domain <$> vs -> _domain (vs' !!! i) = _domain (vs !!! i).
Proof.
  revert vs' i. induction vs as [|v vs IH]; intros [|v' vs'] i H;
    simpl in *; try done.
  injection H as Hd Ht. destruct i as [|i]; [done|]. exact (IH vs' i Ht).
Qed.

Lemma domains_swap_index_value (i j : nat) (vs : list Var) :
  _domain <$> swap_index_value i j vs = _domain <$> vs.
Proof.
  unfold swap_index_value.
  rewrite domains_insert; [apply domains_insert; reflexivity|].
  simpl. symmetry. apply domains_lookup_total. by apply domains_insert.
Qed.

Lemma domains_set_values_from (n : nat) (src : list Z) (vs : list Var) :
  _domain <$> set_values_from n src vs = _domain <$> vs.
Proof.
  unfold set_values_from. generalize (seq 0 n). intros l. revert vs.
  induction l as [|i l IH]; intros vs; simpl; [done|].
  rewrite IH. apply domains_alter_set_value.
Qed.

Lemma domains_pick_random_values (vs : list Var) (g : Rng.t) :
  _domain <$> (pick_random_values vs g).1 = _domain <$> vs.
Proof.
  revert g. induction vs as [|v vs IH]; intros g; simpl; [done|].
  unfold pick_random_value. destruct (Rng.pick (_domain v) g) as [x g1].
  specialize (IH g1). destruct (pick_random_values vs g1) as [vs' g2].
  simpl. f_equal. exact IH.
Qed.

Lemma domains_maybe_swap (i j : nat) (st : list Var * Rng.t) :
  _domain <$> (maybe_swap i st j).1 = _domain <$> st.1.
Proof.
  unfold maybe_swap. destruct (Rng.uniform 0 1 st.2) as [r g'].
  destruct (r =? 0); [apply domains_swap_index_value|done].
Qed.

Lemma domains_random_swaps (vs : list Var) (g : Rng.t) :
  _domain <$> (random_swaps vs g).1 = _domain <$> vs.
Proof.
  unfold random_swaps. generalize (length vs). intros n.
  assert (Hinner : forall i l st,
             _domain <$> (foldl (maybe_swap i) st l).1 = _domain <$> st.1).
  { intros i l. induction l as [|j l IH]; intros st; [done|].
    simpl. rewrite IH. apply domains_maybe_swap. }
  change vs with (vs, g).1 at 2. generalize (vs, g). generalize (seq 0 (n - 1)).
  intros l. induction l as [|i l IH]; intros st; [done|].
  simpl. rewrite IH. apply Hinner.
Qed.

Lemma same_model_monte_carlo_sampling (s : Solver) :
  same_model s (monte_carlo_sampling s).
Proof.
  unfold monte_carlo_sampling.
  pose proof (domains_pick_random_values (_variables s) (_rng s)) as H.
  destruct (pick_random_values (_variables s) (_rng s)) as [vs g].
  by constructor.
Qed.

Lemma same_model_random_permutations (s : Solver) :
  same_model s (random_permutations s).
Proof.
  unfold random_permutations.
  pose proof (domains_random_swaps (_variables s) (_rng s)) as H.
  destruct (random_swaps (_variables s) (_rng s)) as [vs g].
  by constructor.
Qed.

Lemma same_model_sampling_loop (i : nat) (best : Z) (bv : list Z) (s : Solver) :
  same_model s (sampling_loop i best bv s).1.
Proof.
  revert best bv s. induction i as [|i IH]; intros best bv s; simpl.
  - apply same_model_refl.
  - set (s1 := if is_permutation (_neighborhood s) then _ else _).
    assert (H1 : same_model s s1).
    { unfold s1. destruct (is_permutation _);
        [apply same_model_random_permutations
        |apply same_model_monte_carlo_sampling]. }
    destruct (sum_call_error s1 =? 0); [done|].
    eapply same_model_trans; [exact H1|apply IH].
Qed.

Lemma same_model_set_initial_configuration (k : Z) (s : Solver) :
  same_model s (set_initial_configuration k s).
Proof.
  unfold set_initial_configuration.
  destruct (negb _ && _); [apply same_model_monte_carlo_sampling|].
  pose proof (same_model_sampling_loop (Z.to_nat (Z.max 1 k)) DBL_MAX
                (replicate (_number_variables s) 0) s) as H.
  destruct (sampling_loop _ _ _ s) as [s1 bv]. simpl in H.
  eapply same_model_trans; [exact H|].
  apply same_model_with_variables, domains_set_values_from.
Qed.

(** *** Shapes: each loop of the engine rewrites a few members only *)

Lemma scopes_call_update_variable (c v : nat) (x : Z) (cs : list Ctr) :
  get_variable_ids <$> call_update_variable c v x cs = get_variable_ids <$> cs.
Proof.
  unfold call_update_variable. revert c.
  induction cs as [|c0 cs IH]; intros [|c]; simpl; try done.
  f_equal. apply IH.
Qed.

Lemma send_values_shape (v : nat) (x : Z) (l : list nat) (s : Solver) :
  exists cs, foldl (send_value v x) s l = with_constraints cs s
             /\ get_variable_ids <$> cs = scopes s.
Proof.
  revert s. induction l as [|c l IH]; intros s; simpl.
  - exists (_constraints s). split; [by destruct s|done].
  - destruct (IH (send_value v x s c)) as (cs & -> & Hcs).
    exists cs. split; [by destruct s|].
    rewrite Hcs. unfold scopes. simpl. apply scopes_call_update_variable.
Qed.

Lemma broadcast_values_shape (s : Solver) :
  exists cs, broadcast_values s = with_constraints cs s
             /\ get_variable_ids <$> cs = scopes s.
Proof.
  unfold broadcast_values. generalize (seq 0 (_number_variables s)).
  intros l. revert s. induction l as [|v l IH]; intros s; simpl.
  - exists (_constraints s). split; [by destruct s|done].
  - destruct (send_values_shape v (get_value (_variables s !!! v))
                (_matrix_var_ctr s !!! v) s) as (cs1 & -> & H1).
    destruct (IH (with_constraints cs1 s)) as (cs & -> & Hcs).
    exists cs. split; [by destruct s|]. by rewrite Hcs.
Qed.

Lemma update_constraints_of_shape (v : nat) (x : Z) (s : Solver) :
  exists cs, update_constraints_of v x s = with_constraints cs s
             /\ get_variable_ids <$> cs = scopes s.
Proof. apply send_values_shape. Qed.

Lemma record_errors_shape (l : list nat) (s : Solver) (z : Z) :
  exists ec, (foldl record_error (s, z) l).1 = with_error_constraints ec s
             /\ length ec = length (_error_constraints s).
Proof.
  revert s z. induction l as [|c l IH]; intros s z; simpl.
  - exists (_error_constraints s). split; [by destruct s|done].
  - unfold record_error at 2. simpl.
    destruct (IH (with_error_constraints
                    (<[c := call_error s c]> (_error_constraints s)) s)
                 (z + call_error s c)) as (ec & -> & Hec).
    exists ec. split; [by destruct s|].
    rewrite Hec. simpl. apply length_insert.
Qed.

Lemma add_constraint_errors_shape (v : nat) (l : list nat) (s : Solver) :
  exists ev, foldl (add_constraint_error v) s l = with_error_variables ev s
             /\ length ev = length (_error_variables s).
Proof.
  revert s. induction l as [|c l IH]; intros s; simpl.
  - exists (_error_variables s). split; [by destruct s|done].
  - destruct (IH (add_constraint_error v s c)) as (ev & -> & Hev).
    exists ev. split; [by destruct s|].
    rewrite Hev. simpl. apply length_alter.
Qed.

Lemma compute_variables_errors_shape (s : Solver) :
  exists ev, compute_variables_errors s = with_error_variables ev s
             /\ length ev = length (_error_variables s).
Proof.
  unfold compute_variables_errors. generalize (seq 0 (_number_variables s)).
  intros l. revert s. induction l as [|v l IH]; intros s; simpl.
  - exists (_error_variables s). split; [by destruct s|done].
  - destruct (add_constraint_errors_shape v (_matrix_var_ctr s !!! v) s)
      as (ev1 & -> & H1).
    destruct (IH (with_error_variables ev1 s)) as (ev & -> & Hev).
    exists ev. split; [by destruct s|]. by rewrite Hev.
Qed.

Lemma add_deltas_shape (d : Z) (l : list nat) (s : Solver) :
  exists ev, foldl (add_delta d) s l = with_error_variables ev s
             /\ length ev = length (_error_variables s).
Proof.
  revert s. induction l as [|c l IH]; intros s; simpl.
  - exists (_error_variables s). split; [by destruct s|done].
  - destruct (IH (add_delta d s c)) as (ev & -> & Hev).
    exists ev. split; [by destruct s|].
    rewrite Hev. simpl. apply length_alter.
Qed.

Lemma update_errors_cons (v : nat) (x : Z) (deltas : list Z) (k c : nat)
    (row : list nat) (s : Solver) :
  update_errors v x deltas k (c :: row) s
  = update_errors v x deltas (S k) row
      (send_value v x
         (foldl (add_delta (deltas !!! k))
            (with_error_constraints
               (alter (fun e => e + deltas !!! k) c (_error_constraints s)) s)
            (get_variable_ids (_constraints s !!! c)))
         c).
Proof. reflexivity. Qed.

Lemma update_errors_shape (v : nat) (x : Z) (deltas : list Z) (k : nat)
    (row : list nat) (s : Solver) :
  exists ec ev cs,
    update_errors v x deltas k row s
    = with_constraints cs (with_error_variables ev (with_error_constraints ec s))
    /\ length ec = length (_error_constraints s)
    /\ length ev = length (_error_variables s)
    /\ get_variable_ids <$> cs = scopes s.
Proof.
  revert k s. induction row as [|c row IH]; intros k s.
  - exists (_error_constraints s), (_error_variables s), (_constraints s).
    split; [by destruct s|done].
  - rewrite update_errors_cons. set (s1 := with_error_constraints _ s).
    destruct (add_deltas_shape (deltas !!! k)
                (get_variable_ids (_constraints s !!! c)) s1)
      as (ev1 & -> & Hev1).
    destruct (IH (S k) (send_value v x (with_error_variables ev1 s1) c))
      as (ec & ev & cs & -> & Hec & Hev & Hcs).
    exists ec, ev, cs. split; [by destruct s|].
    split; [|split].
    + rewrite Hec. simpl. apply length_alter.
    + rewrite Hev. simpl. exact Hev1.
    + rewrite Hcs. unfold scopes. simpl. apply scopes_call_update_variable.
Qed.

Lemma set_initial_configuration_shape (k : Z) (s : Solver) :
  exists vs g, set_initial_configuration k s = with_rng g (with_variables vs s)
               /\ _domain <$> vs = _domain <$> _variables s.
Proof.
  assert (Hmc : forall s, exists vs g,
             monte_carlo_sampling s = with_rng g (with_variables vs s)
             /\ _domain <$> vs = _domain <$> _variables s).
  { intros s0. unfold monte_carlo_sampling.
    pose proof (domains_pick_random_values (_variables s0) (_rng s0)) as H.
    destruct (pick_random_values _ _) as [vs g]. by exists vs, g. }
  assert (Hrp : forall s, exists vs g,
             random_permutations s = with_rng g (with_variables vs s)
             /\ _domain <$> vs = _domain <$> _variables s).
  { intros s0. unfold random_permutations.
    pose proof (domains_random_swaps (_variables s0) (_rng s0)) as H.
    destruct (random_swaps _ _) as [vs g]. by exists vs, g. }
  assert (Hloop : forall i best bv s, exists vs g,
             (sampling_loop i best bv s).1 = with_rng g (with_variables vs s)
             /\ _domain <$> vs = _domain <$> _variables s).
  { intros i. induction i as [|i IH]; intros best bv s0; simpl.
    - exists (_variables s0), (_rng s0). split; [by destruct s0|done].
    - assert (H1 : exists vs g,
                 (if is_permutation (_neighborhood s0)
                  then random_permutations s0 else monte_carlo_sampling s0)
                 = with_rng g (with_variables vs s0)
                 /\ _domain <$> vs = _domain <$> _variables s0).
      { destruct (is_permutation _); [apply Hrp|apply Hmc]. }
      destruct H1 as (vs1 & g1 & -> & Hd1).
      set (s1 := with_rng g1 (with_variables vs1 s0)).
      destruct (sum_call_error s1 =? 0); [by exists vs1, g1|].
      destruct (IH best
                  (if best >? sum_call_error s1
                   then record_values s1 bv else bv) s1)
        as (vs & g & -> & Hd).
      exists vs, g. split; [by destruct s0|]. by rewrite Hd. }
  unfold set_initial_configuration.
  destruct (negb _ && _); [apply Hmc|].
  destruct (Hloop (Z.to_nat (Z.max 1 k)) DBL_MAX
              (replicate (_number_variables s) 0) s) as (vs & g & E & Hd).
  destruct (sampling_loop _ _ _ s) as [s1 bv]. simpl in E. subst s1.
  exists (set_values_from (_number_variables s) bv vs), g.
  split; [by destruct s|]. by rewrite domains_set_values_from.
Qed.

(** ** Sums of error vectors *)

Lemma total_app (l k : list Z) : total (l ++ k) = total l + total k.
Proof. induction l as [|x l IH]; simpl; [done|]. rewrite IH. lia. Qed.

Lemma foldl_add_total (a : Z) (l : list Z) : foldl Z.add a l = a + total l.
Proof.
  revert a. induction l as [|x l IH]; intros a; simpl; [lia|].
  rewrite IH. lia.
Qed.

Lemma accumulate_total (l : list Z) : accumulate l = total l.
Proof. unfold accumulate. apply foldl_add_total. Qed.

(** The elements that a filter keeps of [seq] are in increasing order. *)
Lemma filter_seq_increasing (P : nat -> Prop) `{!forall x, Decision (P x)}
    (n m i j a b : nat) :
  (i < j)%nat ->
  filter P (seq n m) !! i = Some a -> filter P (seq n m) !! j = Some b ->
  (a < b)%nat.
Proof.
  revert n i j. induction m as [|m IH]; intros n i j Hij Ha Hb; [done|].
  cbn [seq] in Ha, Hb. rewrite filter_cons in Ha, Hb.
  assert (Hge : forall k x, filter P (seq (S n) m) !! k = Some x -> (n < x)%nat).
  { intros k x Hk. apply list_elem_of_lookup_2 in Hk.
    apply list_elem_of_filter in Hk as [_ Hk]. apply elem_of_seq in Hk. lia. }
  destruct (decide (P n)) as [Hp|Hp]; [|by apply (IH (S n) i j)].
  destruct i as [|i], j as [|j]; try lia.
  - simpl in Ha, Hb. injection Ha as <-. by apply (Hge j).
  - simpl in Ha, Hb. apply (IH (S n) i j); [lia|done|done].
Qed.

Lemma total_alter_add (d : Z) (c : nat) (l : list Z) :
  (c < length l)%nat -> total (alter (fun e => e + d) c l) = total l + d.
Proof.
  revert c. induction l as [|x l IH]; intros [|c] H; simpl in *; try lia.
  specialize (IH c ltac:(lia)). unfold alter in IH. lia.
Qed.

Lemma indicator_cons (c i : nat) (l : list nat) (d : Z) :
  i ∉ l ->
  (if decide (c ∈ i :: l) then d else 0)
  = (if decide (c = i) then d else 0) + (if decide (c ∈ l) then d else 0).
Proof.
  intros Hi. destruct (decide (c = i)) as [->|Hne].
  - rewrite decide_True by (by left). rewrite (decide_False (P := i ∈ l)) by done.
    lia.
  - destruct (decide (c ∈ l)) as [Hin|Hnin].
    + rewrite decide_True by (by right). lia.
    + rewrite decide_False; [lia|]. intros [?|?]%elem_of_cons; done.
Qed.

Lemma indicator_in_range (c i n : nat) (x y : Z) :
  (c < n)%nat ->
  (if decide (c = i /\ (c < n)%nat) then x else y)
  = if decide (c = i) then x else y.
Proof.
  intros Hc. destruct (decide (c = i)) as [->|Hne].
  - by rewrite decide_True.
  - rewrite decide_False; [done|]. intros [? _]; done.
Qed.

(** Reading a vector at distinct places after one cell was incremented. *)
Lemma total_reads_alter_add (d : Z) (c : nat) (l : list Z) (reads : list nat) :
  (c < length l)%nat -> NoDup reads ->
  total ((fun i => alter (fun e => e + d) c l !!! i) <$> reads)
  = total ((fun i => l !!! i) <$> reads) + (if decide (c ∈ reads) then d else 0).
Proof.
  intros Hc. induction reads as [|i reads IH]; intros Hnd.
  - case_decide as H; [by apply elem_of_nil in H|]. simpl. lia.
  - apply NoDup_cons in Hnd as [Hi Hnd]. rewrite !fmap_cons.
    cbn [total foldr]. fold (total ((fun i => l !!! i) <$> reads)).
    fold (total ((fun i => alter (fun e => e + d) c l !!! i) <$> reads)).
    rewrite (IH Hnd), list_lookup_total_alter, indicator_in_range by done.
    rewrite (indicator_cons c i reads d Hi).
    destruct (decide (c = i)) as [->|Hne]; lia.
Qed.

(** Incrementing a vector at distinct places. *)
Lemma add_deltas_lookup (d : Z) (ids : list nat) (s : Solver) (w : nat) :
  NoDup ids -> (forall v, v ∈ ids -> (v < length (_error_variables s))%nat) ->
  _error_variables (foldl (add_delta d) s ids) !!! w
  = _error_variables s !!! w + (if decide (w ∈ ids) then d else 0).
Proof.
  revert s. induction ids as [|v ids IH]; intros s Hnd Hlt.
  - case_decide as H; [by apply elem_of_nil in H|]. simpl. lia.
  - apply NoDup_cons in Hnd as [Hv Hnd]. cbn [foldl]. rewrite IH; [|done|].
    + unfold add_delta at 1. cbn [_error_variables with_error_variables].
      rewrite list_lookup_total_alter, indicator_in_range
        by (apply Hlt; by left).
      rewrite (indicator_cons w v ids d Hv).
      destruct (decide (v = w)) as [->|Hne].
      * rewrite (decide_True (P := w = w)) by done. lia.
      * rewrite (decide_False (P := w = v)) by done. lia.
    + intros u Hu. unfold add_delta.
      cbn [_error_variables with_error_variables].
      rewrite length_alter. apply Hlt. by right.
Qed.

(** ** The adjacency and the scopes *)

Lemma scope_lookup (cs : list Ctr) (i : nat) :
  get_variable_ids (cs !!! i) = (get_variable_ids <$> cs) !!! i.
Proof.
  revert i. induction cs as [|c cs IH]; intros [|i]; try done. apply IH.
Qed.

Lemma lookup_total_fmap_seq {B} `{Inhabited B} (f : nat -> B) (n i : nat) :
  (i < n)%nat -> (f <$> seq 0 n) !!! i = f i.
Proof.
  intros Hi. by rewrite list_lookup_total_alt, list_lookup_fmap, lookup_seq_lt.
Qed.

Lemma constraints_of_same_model (s s' : Solver) (v : nat) :
  same_model s s' -> constraints_of s' v = constraints_of s v.
Proof.
  intros H. unfold constraints_of. rewrite (sm_number_constraints _ _ H).
  apply list_filter_iff. intros i.
  rewrite !scope_lookup. fold (scopes s'). fold (scopes s).
  by rewrite (sm_scopes _ _ H).
Qed.

Lemma matrix_row (s : Solver) (v : nat) :
  well_formed s -> (v < _number_variables s)%nat ->
  _matrix_var_ctr s !!! v = constraints_of s v.
Proof.
  intros Hwf Hv. rewrite (wf_matrix _ Hwf).
  rewrite lookup_total_fmap_seq by done.
  unfold constraints_of. apply list_filter_iff. intros i.
  unfold has_variable. rewrite bool_decide_eq_true. done.
Qed.

Lemma matrix_row_in_range (s : Solver) (v c : nat) :
  well_formed s -> c ∈ _matrix_var_ctr s !!! v ->
  (c < _number_constraints s)%nat.
Proof.
  intros Hwf Hc. destruct (decide (v < _number_variables s)%nat) as [Hv|Hv].
  - rewrite (matrix_row _ _ Hwf Hv) in Hc. unfold constraints_of in Hc.
    apply list_elem_of_filter in Hc as [_ Hc]. apply elem_of_seq in Hc. lia.
  - rewrite (wf_matrix _ Hwf) in Hc.
    rewrite list_lookup_total_alt, list_lookup_fmap in Hc.
    rewrite lookup_seq_ge in Hc by lia. simpl in Hc. by apply elem_of_nil in Hc.
Qed.

Lemma well_formed_same_model (s s' : Solver) :
  well_formed s -> same_model s s' -> well_formed s'.
Proof.
  intros Hwf H.
  assert (Hlen : length (_constraints s') = length (_constraints s)).
  { rewrite <- (length_fmap get_variable_ids (_constraints s')).
    rewrite <- (length_fmap get_variable_ids (_constraints s)).
    fold (scopes s'). fold (scopes s). by rewrite (sm_scopes _ _ H). }
  constructor.
  - rewrite (sm_number_variables _ _ H), <- (wf_variables _ Hwf).
    rewrite <- (length_fmap _domain (_variables s')).
    rewrite (sm_domains _ _ H). apply length_fmap.
  - rewrite (sm_number_constraints _ _ H), <- (wf_constraints _ Hwf). exact Hlen.
  - rewrite (sm_matrix _ _ H), (wf_matrix _ Hwf).
    rewrite (sm_number_variables _ _ H), (sm_number_constraints _ _ H).
    apply list_fmap_ext. intros _ v _. apply list_filter_iff. intros i.
    unfold has_variable. rewrite !scope_lookup. fold (scopes s'). fold (scopes s).
    by rewrite (sm_scopes _ _ H).
  - rewrite (sm_error_constraints _ _ H), (sm_number_constraints _ _ H).
    apply (wf_error_constraints _ Hwf).
  - rewrite (sm_error_variables _ _ H), (sm_number_variables _ _ H).
    apply (wf_error_variables _ Hwf).
  - rewrite (sm_scopes _ _ H), (sm_number_variables _ _ H).
    apply (wf_scopes _ Hwf).
  - rewrite (sm_domains _ _ H). apply (wf_domains _ Hwf).
Qed.

(** ** The constructor builds a well-formed engine *)

Lemma scopes_imap_set_ctr_id (cs : list Ctr) :
  get_variable_ids <$> imap (fun i c => set_ctr_id i c) cs
  = get_variable_ids <$> cs.
Proof.
  rewrite fmap_imap, <- imap_const. apply imap_ext. reflexivity.
Qed.

Lemma domains_imap_set_id (vs : list Var) :
  _domain <$> imap (fun i v => set_id i v) vs = _domain <$> vs.
Proof.
  rewrite fmap_imap, <- imap_const. apply imap_ext. reflexivity.
Qed.

Lemma make_well_formed (variables : list Var) (constraints : list Ctr)
    (objective : option Objective) (permutation_problem : bool) :
  (forall c, c ∈ constraints ->
     NoDup (get_variable_ids c)
     /\ forall v, v ∈ get_variable_ids c -> (v < length variables)%nat) ->
  (forall v, v ∈ variables -> NoDup (_domain v)) ->
  well_formed (make variables constraints objective permutation_problem).
Proof.
  intros Hscopes Hdomains. constructor; unfold make;
    cbn [_variables _constraints _number_variables _number_constraints
           _matrix_var_ctr _error_constraints _error_variables].
  - apply length_imap.
  - apply length_imap.
  - reflexivity.
  - apply length_replicate.
  - apply length_replicate.
  - unfold scopes. cbn [_constraints]. rewrite scopes_imap_set_ctr_id.
    intros ids (c & -> & Hc)%list_elem_of_fmap. by apply Hscopes.
  - rewrite domains_imap_set_id.
    intros d (v & -> & Hv)%list_elem_of_fmap. by apply Hdomains.
Qed.

Lemma unsat_engine_well_formed (g : Rng.t) : well_formed (unsat_engine g).
Proof.
  unfold unsat_engine. set (e := make _ _ _ _).
  apply (well_formed_same_model e); [|by constructor].
  apply make_well_formed.
  - intros c ->%list_elem_of_singleton. cbn. split; [apply NoDup_singleton|].
    intros v ->%list_elem_of_singleton. lia.
  - intros v ->%list_elem_of_singleton. cbn.
    apply NoDup_ListNoDup. repeat constructor; cbn; lia.
Qed.

Lemma bounded_engine_well_formed (g : Rng.t) : well_formed (bounded_engine g).
Proof.
  unfold bounded_engine. set (e := make _ _ _ _).
  apply (well_formed_same_model e); [|by constructor].
  apply make_well_formed.
  - intros c ->%list_elem_of_singleton. cbn. split; [apply NoDup_singleton|].
    intros v ->%list_elem_of_singleton. lia.
  - intros v ->%list_elem_of_singleton. cbn.
    apply NoDup_ListNoDup. repeat constructor; cbn; lia.
Qed.


(** ** [restart] recomputes the errors from scratch *)

Lemma inserts_lookup (f : nat -> Z) (l : list nat) (ec : list Z) (j : nat) :
  foldl (fun ec i => <[i := f i]> ec) ec l !! j
  = if decide (j ∈ l /\ (j < length ec)%nat) then Some (f j) else ec !! j.
Proof.
  revert ec. induction l as [|i l IH]; intros ec.
  - cbn [foldl]. rewrite decide_False; [done|].
    intros [H _]. by apply elem_of_nil in H.
  - cbn [foldl]. rewrite IH, length_insert, list_lookup_insert.
    destruct (decide (j < length ec)%nat) as [Hj|Hj].
    + destruct (decide (j ∈ l)) as [Hin|Hnin].
      * rewrite !decide_True; [done|split; [by right|done]|done].
      * rewrite (decide_False (P := j ∈ l /\ _)) by (intros [? _]; done).
        destruct (decide (i = j)) as [->|Hne].
        -- rewrite !decide_True; [done|split; [by left|done]|done].
        -- rewrite !decide_False; [done| |].
           ++ intros [[?|?]%elem_of_cons _]; congruence.
           ++ intros [? _]; done.
    + rewrite !decide_False; [done| | |]; try (intros [_ ?]; lia).
      intros [-> ?]; lia.
Qed.

Lemma inserts_seq (f : nat -> Z) (ec : list Z) :
  foldl (fun ec i => <[i := f i]> ec) ec (seq 0 (length ec))
  = f <$> seq 0 (length ec).
Proof.
  apply list_eq. intros j. rewrite inserts_lookup, list_lookup_fmap.
  destruct (decide (j < length ec)%nat) as [Hj|Hj].
  - rewrite decide_True by (split; [apply elem_of_seq; lia|done]).
    by rewrite lookup_seq_lt.
  - rewrite decide_False by (intros [_ ?]; lia).
    rewrite lookup_seq_ge by lia. apply lookup_ge_None_2. lia.
Qed.

Lemma record_errors_content (l : list nat) (s : Solver) (ec : list Z) (z : Z) :
  foldl record_error (with_error_constraints ec s, z) l
  = (with_error_constraints
       (foldl (fun ec i => <[i := call_error s i]> ec) ec l) s,
     z + total (call_error s <$> l)).
Proof.
  revert ec z. induction l as [|c l IH]; intros ec z.
  - simpl. f_equal. lia.
  - cbn [foldl]. unfold record_error at 2.
    replace (with_error_constraints _ (with_error_constraints ec s, z).1)
      with (with_error_constraints (<[c := call_error s c]> ec) s)
      by (by destruct s).
    rewrite IH. f_equal. rewrite fmap_cons. cbn [total foldr fst snd].
    fold (total (call_error s <$> l)).
    replace (call_error (with_error_constraints ec s) c) with (call_error s c)
      by reflexivity. lia.
Qed.

Lemma compute_constraints_errors_content (s : Solver) :
  length (_error_constraints s) = _number_constraints s ->
  compute_constraints_errors s
  = (with_error_constraints
       (call_error s <$> seq 0 (_number_constraints s)) s,
     total (call_error s <$> seq 0 (_number_constraints s))).
Proof.
  intros Hlen. unfold compute_constraints_errors.
  replace (s, 0) with (with_error_constraints (_error_constraints s) s, 0)
    by (by destruct s).
  rewrite record_errors_content. rewrite <- Hlen at 1. rewrite inserts_seq.
  rewrite Hlen. f_equal.
Qed.

Lemma add_constraint_errors_lookup (v : nat) (l : list nat) (s : Solver)
    (w : nat) :
  (v < length (_error_variables s))%nat ->
  _error_variables (foldl (add_constraint_error v) s l) !!! w
  = _error_variables s !!! w
    + (if decide (w = v)
       then total ((fun c => _error_constraints s !!! c) <$> l) else 0).
Proof.
  revert s. induction l as [|c l IH]; intros s Hv.
  - simpl. destruct (decide (w = v)); lia.
  - cbn [foldl]. rewrite IH by (simpl; by rewrite length_alter).
    unfold add_constraint_error.
    cbn [_error_variables _error_constraints with_error_variables].
    rewrite list_lookup_total_alter, indicator_in_range by done.
    rewrite fmap_cons. cbn [total foldr].
    fold (total ((fun c => _error_constraints s !!! c) <$> l)).
    destruct (decide (w = v)) as [->|Hne].
    + rewrite decide_True by done. lia.
    + rewrite decide_False by congruence. lia.
Qed.

Lemma compute_variables_errors_lookup (vs : list nat) (s : Solver) (w : nat) :
  NoDup vs -> (forall v, v ∈ vs -> (v < length (_error_variables s))%nat) ->
  _error_variables
    (foldl (fun s v => foldl (add_constraint_error v) s (_matrix_var_ctr s !!! v))
           s vs) !!! w
  = _error_variables s !!! w
    + (if decide (w ∈ vs)
       then total ((fun c => _error_constraints s !!! c)
                     <$> _matrix_var_ctr s !!! w)
       else 0).
Proof.
  revert s. induction vs as [|v vs IH]; intros s Hnd Hlt.
  - cbn [foldl]. rewrite decide_False; [lia|].
    intros H. by apply elem_of_nil in H.
  - apply NoDup_cons in Hnd as [Hv Hnd]. cbn [foldl].
    pose proof (add_constraint_errors_lookup v (_matrix_var_ctr s !!! v) s w
                  (Hlt v ltac:(by left))) as Hstep.
    destruct (add_constraint_errors_shape v (_matrix_var_ctr s !!! v) s)
      as (ev1 & E & Hlen). rewrite E in Hstep |- *.
    rewrite IH; [|done|].
    + cbn [_error_variables _error_constraints _matrix_var_ctr
             with_error_variables] in Hstep |- *.
      rewrite Hstep, (indicator_cons w v vs _ Hv).
      destruct (decide (w = v)) as [->|Hne]; lia.
    + intros u Hu. cbn [_error_variables with_error_variables].
      rewrite Hlen. apply Hlt. by right.
Qed.

Lemma lookup_total_replicate_0 (n i : nat) :
  (i < n)%nat -> replicate n 0 !!! i = 0.
Proof.
  intros Hi. by rewrite list_lookup_total_alt, lookup_replicate_2.
Qed.

(** What [restart] leaves: fresh bests, a zeroed tabu list, a sampled (or
    kept) assignment, and errors recomputed from the constraints. *)
Lemma restart_shape (s : Solver) :
  well_formed s ->
  exists vs g b cs ec ev ent,
    restart s
    = mkSolver vs cs (_objective s) g (_is_optimization s) b true
        (_number_variables s) (_number_constraints s) (_matrix_var_ctr s)
        (fill 0 (_weak_tabu_list s)) (_worst_variables_list s) ec ev ent
        DBL_MAX DBL_MAX DBL_MAX (total ec) (_current_opt_cost s)
        (_cost_before_postprocess s) (_neighborhood s)
    /\ _domain <$> vs = _domain <$> _variables s
    /\ get_variable_ids <$> cs = scopes s
    /\ length ec = _number_constraints s
    /\ length ev = _number_variables s
    /\ forall v, (v < _number_variables s)%nat ->
         ev !!! v = total ((fun c => ec !!! c) <$> _matrix_var_ctr s !!! v).
Proof.
  intros Hwf. unfold restart.
  set (s1 := with_weak_tabu_list _ _).
  assert (H2 : exists vs g b,
             (if negb (_no_random_starting_point s1)
              then set_initial_configuration 10 s1
              else with_no_random_starting_point false s1)
             = with_no_random_starting_point b (with_rng g (with_variables vs s1))
             /\ _domain <$> vs = _domain <$> _variables s).
  { destruct (negb _).
    - destruct (set_initial_configuration_shape 10 s1) as (vs & g & E & Hd).
      exists vs, g, (_no_random_starting_point s1). rewrite E.
      split; [by destruct s|exact Hd].
    - exists (_variables s1), (_rng s1), false. split; [by destruct s|done]. }
  destruct H2 as (vs & g & b & -> & Hd).
  set (s3 := with_error_constraints _ _).
  destruct (broadcast_values_shape s3) as (cs & -> & Hcs).
  set (s4 := with_constraints cs s3).
  assert (Hlen4 : length (_error_constraints s4) = _number_constraints s4).
  { unfold s4, s3, fill. simpl. rewrite length_replicate.
    apply (wf_error_constraints _ Hwf). }
  rewrite (compute_constraints_errors_content s4 Hlen4).
  set (ec := call_error s4 <$> seq 0 (_number_constraints s4)).
  set (s7 := with_error_variables _ _).
  assert (Hev : forall w, (w < _number_variables s)%nat ->
            _error_variables (compute_variables_errors s7) !!! w
            = total ((fun c => ec !!! c) <$> _matrix_var_ctr s !!! w)).
  { intros w Hw. unfold compute_variables_errors.
    rewrite compute_variables_errors_lookup.
    - rewrite decide_True by (apply elem_of_seq; simpl; lia).
      unfold s7, fill. simpl. rewrite lookup_total_replicate_0; [done|].
      rewrite (wf_error_variables _ Hwf). done.
    - apply NoDup_seq.
    - intros v Hv. apply elem_of_seq in Hv. unfold s7, fill. simpl.
      rewrite length_replicate. simpl in Hv.
      rewrite (wf_error_variables _ Hwf). lia. }
  destruct (compute_variables_errors_shape s7) as (ev & E & Hlen).
  rewrite E in Hev |- *. simpl in Hev.
  exists vs, g, b, cs, ec, ev, (copy_into ev (_error_non_tabu_variables s)).
  split.
  { clear Hwf Hd Hcs Hlen4 Hev E Hlen. subst ec s7 s4 s3 s1. by destruct s. }
  split; [exact Hd|]. split; [exact Hcs|].
  split; [|split; [|exact Hev]].
  - unfold ec. rewrite length_fmap, length_seq. done.
  - rewrite Hlen. unfold s7, fill. simpl. rewrite length_replicate.
    apply (wf_error_variables _ Hwf).
Qed.

Lemma restart_same_model (s : Solver) :
  well_formed s -> same_model s (restart s).
Proof.
  intros Hwf.
  destruct (restart_shape s Hwf)
    as (vs & g & b & cs & ec & ev & ent & -> & Hd & Hcs & Hec & Hev & _).
  constructor; simpl; try done.
  - by rewrite Hec, (wf_error_constraints _ Hwf).
  - by rewrite Hev, (wf_error_variables _ Hwf).
Qed.

Lemma restart_well_formed (s : Solver) :
  well_formed s -> well_formed (restart s).
Proof.
  intros Hwf. eapply well_formed_same_model; [exact Hwf|].
  by apply restart_same_model.
Qed.

Lemma restart_best_sat_error (s : Solver) :
  well_formed s -> _best_sat_error (restart s) = DBL_MAX.
Proof.
  intros Hwf.
  by destruct (restart_shape s Hwf) as (? & ? & ? & ? & ? & ? & ? & -> & _).
Qed.

Lemma restart_P1 (s : Solver) : well_formed s -> P1 (restart s).
Proof.
  intros Hwf.
  by destruct (restart_shape s Hwf) as (? & ? & ? & ? & ? & ? & ? & -> & _).
Qed.

Lemma restart_P2 (s : Solver) : well_formed s -> P2 (restart s).
Proof.
  intros Hwf v Hv.
  pose proof (restart_well_formed s Hwf) as Hwf'.
  pose proof (matrix_row (restart s) v Hwf' Hv) as Hrow.
  destruct (restart_shape s Hwf)
    as (vs & g & b & cs & ec & ev & ent & E & Hd & Hcs & Hec & Hev & Hsum).
  rewrite E in Hv, Hrow |- *. simpl in Hv, Hrow |- *.
  rewrite (Hsum v Hv), Hrow. done.
Qed.

(** ** An applied move keeps P1 and P2 *)

Lemma scope_well_formed (s : Solver) (c : nat) :
  well_formed s -> (c < _number_constraints s)%nat ->
  NoDup (get_variable_ids (_constraints s !!! c))
  /\ forall v, v ∈ get_variable_ids (_constraints s !!! c) ->
               (v < _number_variables s)%nat.
Proof.
  intros Hwf Hc. apply (wf_scopes _ Hwf). unfold scopes.
  apply list_elem_of_fmap. exists (_constraints s !!! c). split; [done|].
  apply list_elem_of_lookup_total_2. by rewrite (wf_constraints _ Hwf).
Qed.

Lemma elem_of_constraints_of (s : Solver) (v c : nat) :
  c ∈ constraints_of s v
  <-> (c < _number_constraints s)%nat
      /\ v ∈ get_variable_ids (_constraints s !!! c).
Proof.
  unfold constraints_of. rewrite list_elem_of_filter, elem_of_seq.
  split; [intros [? [_ ?]]|intros [? ?]]; (split; [done|lia]) || (split; [lia|done]).
Qed.

(** One turn of the loop of [update_errors]. *)
Lemma update_errors_turn (v : nat) (x d : Z) (c : nat) (s : Solver) :
  well_formed s -> (c < _number_constraints s)%nat -> P2 s ->
  let s' :=
    send_value v x
      (foldl (add_delta d)
         (with_error_constraints
            (alter (fun e => e + d) c (_error_constraints s)) s)
         (get_variable_ids (_constraints s !!! c))) c in
  same_model s s' /\ P2 s'
  /\ total (_error_constraints s') = total (_error_constraints s) + d
  /\ _current_sat_error s' = _current_sat_error s.
Proof.
  intros Hwf Hc HP2. set (s1 := with_error_constraints _ s).
  destruct (scope_well_formed s c Hwf Hc) as [Hnd Hrange].
  pose proof (fun w => add_deltas_lookup d
                (get_variable_ids (_constraints s !!! c)) s1 w Hnd) as Hlook.
  destruct (add_deltas_shape d (get_variable_ids (_constraints s !!! c)) s1)
    as (ev & E & Hlen).
  intros s'. unfold s'. rewrite E in Hlook |- *. clear E s'.
  unfold send_value, s1 in *.
  cbn [_error_variables _error_constraints _constraints with_constraints
         with_error_variables with_error_constraints] in *.
  assert (Hsm : same_model s
            (with_constraints
               (call_update_variable c v x (_constraints s))
               (with_error_variables ev
                  (with_error_constraints
                     (alter (fun e => e + d) c (_error_constraints s)) s)))).
  { constructor; simpl; try done.
    - unfold scopes. simpl. apply scopes_call_update_variable.
    - apply length_alter. }
  split; [exact Hsm|]. split; [|split; [|done]].
  - intros w Hw. rewrite (constraints_of_same_model _ _ w Hsm).
    simpl in Hw |- *. rewrite Hlook.
    + rewrite total_reads_alter_add.
      * rewrite (HP2 w Hw).
        destruct (decide (w ∈ get_variable_ids (_constraints s !!! c)))
          as [Hin|Hnin].
        -- rewrite decide_True; [done|].
           apply elem_of_constraints_of. by split.
        -- rewrite decide_False; [done|].
           intros [_ ?]%elem_of_constraints_of. done.
      * by rewrite (wf_error_constraints _ Hwf).
      * apply NoDup_filter, NoDup_seq.
    + intros u Hu. rewrite (wf_error_variables _ Hwf). by apply Hrange.
  - simpl. apply total_alter_add. by rewrite (wf_error_constraints _ Hwf).
Qed.

Lemma update_errors_P (v : nat) (x : Z) (deltas : list Z) (row : list nat)
    (k : nat) (s : Solver) :
  well_formed s ->
  (forall c, c ∈ row -> (c < _number_constraints s)%nat) ->
  (k + length row <= length deltas)%nat ->
  P2 s ->
  let s' := update_errors v x deltas k row s in
  same_model s s' /\ P2 s'
  /\ total (_error_constraints s')
     = total (_error_constraints s) + total (take (length row) (drop k deltas))
  /\ _current_sat_error s' = _current_sat_error s.
Proof.
  revert k s. induction row as [|c row IH]; intros k s Hwf Hrow Hk HP2.
  - simpl. split; [apply same_model_refl|]. split; [done|]. split; [lia|done].
  - rewrite update_errors_cons.
    destruct (update_errors_turn v x (deltas !!! k) c s Hwf
                (Hrow c ltac:(by left)) HP2) as (Hsm & HP2' & Htot & Hcur).
    set (s1 := send_value _ _ _ _) in *.
    assert (Hwf1 : well_formed s1) by (by eapply well_formed_same_model).
    simpl in Hk.
    destruct (IH (S k) s1 Hwf1) as (Hsm' & HP2'' & Htot' & Hcur'); [|lia|done|].
    { intros c' Hc'. rewrite (sm_number_constraints _ _ Hsm).
      apply Hrow. by right. }
    split; [by eapply same_model_trans|]. split; [done|]. split; [|congruence].
    rewrite Htot', Htot.
    assert (Hk' : (k < length deltas)%nat) by lia.
    apply lookup_lt_is_Some_2 in Hk' as [d Hd].
    rewrite (drop_S _ _ _ Hd). cbn [length take total foldr].
    rewrite (list_lookup_total_correct _ _ _ Hd).
    fold (total (take (length row) (drop (S k) deltas))). lia.
Qed.

(** ** The map of the simulated deltas *)

Lemma map_push_keys (k d : Z) (m : list (Z * list Z)) (k' : Z) :
  k' ∈ (map_push k d m).*1 <-> k' = k \/ k' ∈ m.*1.
Proof.
  induction m as [|[k0 ds] m IH]; simpl.
  - rewrite list_elem_of_singleton. split; [by left|intros [?|H]; [done|]].
    by apply elem_of_nil in H.
  - destruct (Z.ltb_spec k k0); [|destruct (Z.eqb_spec k k0) as [->|Hne]];
      simpl; rewrite ?elem_of_cons; [tauto|tauto|]. rewrite IH. tauto.
Qed.

Lemma map_push_sorted (k d : Z) (m : list (Z * list Z)) :
  sorted_keys m -> sorted_keys (map_push k d m).
Proof.
  induction m as [|[k0 ds] m IH]; simpl.
  - intros _. split; [|done]. intros k' H. by apply elem_of_nil in H.
  - intros [Hlt Hs].
    destruct (Z.ltb_spec k k0); [|destruct (Z.eqb_spec k k0) as [->|Hne]];
      simpl.
    + split; [|by split]. intros k' [->|Hk']%elem_of_cons; [done|].
      specialize (Hlt _ Hk'). simpl in Hlt. lia.
    + by split.
    + split; [|by apply IH]. intros k' [->|Hk']%map_push_keys; [lia|].
      by apply Hlt.
Qed.

Lemma map_at_absent (k : Z) (m : list (Z * list Z)) :
  k ∉ m.*1 -> map_at k m = [].
Proof.
  induction m as [|[k0 ds] m IH]; simpl; [done|]. intros Hk.
  destruct (Z.eqb_spec k k0) as [->|Hne].
  - destruct Hk. by left.
  - apply IH. intros H. apply Hk. by right.
Qed.

Lemma map_at_push_eq (k d : Z) (m : list (Z * list Z)) :
  sorted_keys m -> map_at k (map_push k d m) = map_at k m ++ [d].
Proof.
  induction m as [|[k0 ds] m IH]; simpl.
  - intros _. by rewrite Z.eqb_refl.
  - intros [Hlt Hs].
    destruct (Z.ltb_spec k k0); [|destruct (Z.eqb_spec k k0) as [->|Hne]];
      simpl.
    + rewrite Z.eqb_refl. destruct (Z.eqb_spec k k0); [lia|].
      rewrite map_at_absent; [done|]. intros Hk. specialize (Hlt _ Hk).
      simpl in Hlt. lia.
    + by rewrite Z.eqb_refl.
    + destruct (Z.eqb_spec k k0); [done|]. by apply IH.
Qed.

Lemma map_at_push_ne (k k' d : Z) (m : list (Z * list Z)) :
  k' <> k -> map_at k' (map_push k d m) = map_at k' m.
Proof.
  intros Hne. induction m as [|[k0 ds] m IH]; simpl.
  - destruct (Z.eqb_spec k' k); done.
  - destruct (Z.ltb_spec k k0); [|destruct (Z.eqb_spec k k0) as [->|Hne0]];
      simpl.
    + destruct (Z.eqb_spec k' k); done.
    + destruct (Z.eqb_spec k' k0); done.
    + by rewrite IH.
Qed.

Lemma map_at_elem (k : Z) (ds : list Z) (m : list (Z * list Z)) :
  sorted_keys m -> (k, ds) ∈ m -> map_at k m = ds.
Proof.
  induction m as [|[k0 ds0] m IH]; simpl.
  - intros _ H. by apply elem_of_nil in H.
  - intros [Hlt Hs] [E|Hin]%elem_of_cons.
    + injection E as -> ->. by rewrite Z.eqb_refl.
    + destruct (Z.eqb_spec k k0) as [->|Hne]; [|by apply IH].
      assert (Hk : k0 ∈ m.*1).
      { apply list_elem_of_fmap. by exists (k0, ds). }
      specialize (Hlt _ Hk). simpl in Hlt. lia.
Qed.

(** The inner loop of the simulation, over the constraints of the
    variable. *)
Lemma simulate_values_spec (s : Solver) (v : nat) (x : Z) (row : list nat)
    (m : list (Z * list Z)) :
  sorted_keys m ->
  let m' := foldl (simulate_value s v x) m row in
  sorted_keys m'
  /\ (forall k, k ∈ m'.*1 -> k = x \/ k ∈ m.*1)
  /\ length (map_at x m') = (length (map_at x m) + length row)%nat
  /\ (forall k, k <> x -> map_at k m' = map_at k m).
Proof.
  revert m. induction row as [|c row IH]; intros m Hs; simpl.
  - split; [done|]. split; [by right|]. split; [lia|done].
  - destruct (IH (simulate_value s v x m c)) as (Hs' & Hk & Hl & Hat).
    { by apply map_push_sorted. }
    split; [done|]. split; [|split].
    + intros k Hin. destruct (Hk _ Hin) as [?|Hin']; [by left|].
      by apply map_push_keys in Hin'.
    + rewrite Hl. unfold simulate_value. rewrite map_at_push_eq by done.
      rewrite length_app. simpl. lia.
    + intros k Hne. rewrite Hat by done. by apply map_at_push_ne.
Qed.

(** The map of the deltas of the values of a duplicate-free domain: one
    delta per constraint of the variable under each value. *)
Lemma simulate_deltas_spec (s : Solver) (v : nat) (dom : list Z) :
  NoDup dom ->
  let de := simulate_deltas s v dom in
  sorted_keys de
  /\ forall k, k ∈ de.*1 ->
       length (map_at k de) = length (_matrix_var_ctr s !!! v).
Proof.
  intros Hnd. unfold simulate_deltas.
  set (row := _matrix_var_ctr s !!! v).
  assert (H : forall seen m,
             NoDup (seen ++ dom) ->
             sorted_keys m ->
             (forall k, k ∈ m.*1 -> k ∈ seen /\ length (map_at k m) = length row) ->
             let de := foldl (fun m x => foldl (simulate_value s v x) m row)
                             m dom in
             sorted_keys de
             /\ forall k, k ∈ de.*1 -> length (map_at k de) = length row).
  { clear Hnd. induction dom as [|x dom IH]; intros seen m Hnd Hs Hm.
    - simpl. split; [done|]. intros k Hk. by apply Hm.
    - cbn [foldl].
      destruct (simulate_values_spec s v x row m Hs) as (Hs' & Hk & Hl & Hat).
      apply (IH (seen ++ [x])).
      + by rewrite <- app_assoc.
      + done.
      + assert (Hx : x ∉ seen).
        { apply NoDup_app in Hnd as (_ & Hdisj & _). intros Hin.
          apply (Hdisj _ Hin). by left. }
        intros k Hin. destruct (decide (k = x)) as [->|Hne].
        * split; [apply elem_of_app; right; by left|].
          rewrite Hl, map_at_absent; [done|]. intros Hin'.
          by destruct (Hm _ Hin').
        * destruct (Hk _ Hin) as [?|Hin']; [done|].
          destruct (Hm _ Hin') as [Hseen Hlen].
          split; [apply elem_of_app; by left|]. by rewrite Hat. }
  apply (H [] []); [done|done|]. intros k Hk. by apply elem_of_nil in Hk.
Qed.

Lemma cumulate_elem (x mc : Z) (de : list (Z * list Z)) :
  (x, mc) ∈ cumulate de -> exists ds, (x, ds) ∈ de /\ mc = accumulate ds.
Proof.
  unfold cumulate. intros ([k ds] & E & Hin)%list_elem_of_fmap.
  injection E as -> ->. by exists ds.
Qed.

Lemma select_candidates_spec (cum : list (Z * Z)) :
  let '(mc, cands) := select_candidates cum in
  (forall x, x ∈ cands -> (x, mc) ∈ cum)
  /\ (mc < DBL_MAX -> cands <> []).
Proof.
  unfold select_candidates.
  assert (H : let '(mc, cands) := foldl keep_least (DBL_MAX, []) cum in
              (forall x, x ∈ cands -> (x, mc) ∈ cum)
              /\ (cands = [] -> mc = DBL_MAX)).
  { induction cum as [|[k d] cum IH] using rev_ind.
    - simpl. split; [|done]. intros x Hx. by apply elem_of_nil in Hx.
    - rewrite foldl_app. cbn [foldl].
      destruct (foldl keep_least (DBL_MAX, []) cum) as [mc cands].
      destruct IH as [Hin Hnil]. unfold keep_least. cbn [fst snd].
      destruct (Z.gtb_spec mc d) as [Hgt|Hle];
        [|destruct (Z.eqb_spec mc d) as [Heq|Hne]].
      + split; [|done]. intros x ->%list_elem_of_singleton.
        apply elem_of_app. right. by left.
      + split; [|by intros [_ ?]%app_eq_nil].
        intros x [Hx|Hx]%elem_of_app; apply elem_of_app.
        * left. by apply Hin.
        * apply list_elem_of_singleton in Hx as ->. right. subst. by left.
      + split; [|done]. intros x Hx. apply elem_of_app. left. by apply Hin. }
  destruct (foldl keep_least (DBL_MAX, []) cum) as [mc cands].
  destruct H as [Hin Hnil]. split; [done|]. intros Hlt E.
  specialize (Hnil E). lia.
Qed.

Lemma pick_elem {A} `{Inhabited A} (l : list A) (g : Rng.t) :
  l <> [] -> (Rng.pick l g).1 ∈ l.
Proof.
  intros Hl. unfold Rng.pick. destruct (Rng.draw g) as [r g']. simpl.
  apply list_elem_of_lookup_total_2. apply Nat.mod_upper_bound.
  destruct l; [done|simpl; lia].
Qed.

Lemma domain_lookup_NoDup (s : Solver) (v : nat) :
  well_formed s -> NoDup (get_full_domain (_variables s !!! v)).
Proof.
  intros Hwf. unfold get_full_domain.
  destruct (decide (v < length (_variables s))%nat) as [Hv|Hv].
  - apply (wf_domains _ Hwf). apply list_elem_of_fmap.
    exists (_variables s !!! v). split; [done|].
    by apply list_elem_of_lookup_total_2.
  - rewrite list_lookup_total_alt, lookup_ge_None_2 by lia. simpl.
    apply NoDup_nil_2.
Qed.

Lemma evaluate_moves_spec (s : Solver) :
  well_formed s ->
  let '(v, x, mc, de, s') := evaluate_moves s in
  (exists w g, s' = with_rng g (with_worst_variables_list w s))
  /\ real_candidate s v x mc de.
Proof.
  intros Hwf. unfold evaluate_moves.
  set (s1 := compute_worst_variables s).
  destruct (Rng.pick (_worst_variables_list s1) (_rng s1)) as [v g].
  set (de := simulate_deltas s1 v _).
  pose proof (select_candidates_spec (cumulate de)) as Hsel.
  destruct (select_candidates (cumulate de)) as [mc cands].
  destruct Hsel as [Hin Hne].
  pose proof (pick_elem cands g) as Hpick.
  destruct (Rng.pick cands g) as [x g']. simpl in Hpick.
  split.
  - exists (_worst_variables_list s1), g'. unfold s1, compute_worst_variables.
    by destruct s.
  - intros Hlt. specialize (Hpick (Hne Hlt)).
    apply Hin, cumulate_elem in Hpick as (ds & Hds & ->).
    destruct (simulate_deltas_spec s1 v
                (get_full_domain (_variables s1 !!! v))) as [Hs Hlen].
    { apply (domain_lookup_NoDup s v Hwf). }
    fold de in Hs, Hlen. rewrite (map_at_elem x ds de Hs Hds). split; [done|].
    rewrite <- (map_at_elem x ds de Hs Hds). apply Hlen.
    apply list_elem_of_fmap. by exists (x, ds).
Qed.

(** ** One iteration *)

(** What an applied move does to the engine. *)
Lemma apply_move_spec (v : nat) (x mc : Z) (de : list (Z * list Z)) (r : Run) :
  well_formed (solver r) -> P1 (solver r) -> P2 (solver r) ->
  mc = accumulate (map_at x de) ->
  length (map_at x de) = length (_matrix_var_ctr (solver r) !!! v) ->
  let r' := apply_move v x mc de r in
  same_model (solver r) (solver r')
  /\ P1 (solver r') /\ P2 (solver r')
  /\ _current_sat_error (solver r') = _current_sat_error (solver r) + mc
  /\ _best_sat_error (solver r')
     = Z.min (_best_sat_error (solver r)) (_current_sat_error (solver r) + mc)
  /\ _weak_tabu_list (solver r') = _weak_tabu_list (solver r)
  /\ clock r' = clock r /\ elapsed_time r' = elapsed_time r.
Proof.
  intros Hwf HP1 HP2 Hmc Hlen. unfold apply_move.
  set (s := solver r) in *.
  set (sb := with_variables _ (with_current_sat_error _ s)).
  assert (Hsb : same_model s sb).
  { constructor; simpl; try done. apply domains_alter_set_value. }
  assert (Hwfb : well_formed sb) by (by eapply well_formed_same_model).
  destruct (update_errors_P v x (map_at x de) (_matrix_var_ctr sb !!! v) 0 sb
              Hwfb) as (Hsm & HP2' & Htot & Hcur).
  { intros c Hc. by eapply matrix_row_in_range. }
  { unfold sb at 1. simpl. fold s. lia. }
  { exact HP2. }
  destruct (update_errors_shape v x (map_at x de) 0 (_matrix_var_ctr sb !!! v) sb)
    as (ec & ev & cs & E & _). rewrite E in Hsm, HP2', Htot, Hcur |- *.
  set (sc := with_constraints cs _) in *.
  assert (Hcur' : _current_sat_error sc = _current_sat_error s + mc) by done.
  assert (HP1' : P1 sc).
  { unfold P1. rewrite Htot, Hcur'. unfold sb at 1. simpl. rewrite HP1.
    rewrite drop_0, take_ge by (unfold sb; simpl; fold s; lia).
    by rewrite Hmc, accumulate_total. }
  assert (Hbest : _best_sat_error sc = _best_sat_error s) by done.
  assert (Htabu : _weak_tabu_list sc = _weak_tabu_list s) by done.
  assert (Hsc : same_model s sc) by (by eapply same_model_trans).
  clearbody sc. rewrite Hbest, Hcur'.
  destruct (Z.gtb_spec (_best_sat_error s) (_current_sat_error s + mc)).
  - simpl. split; [by destruct Hsc|]. split; [exact HP1'|]. split; [exact HP2'|].
    split; [done|]. split; [lia|]. done.
  - simpl. split; [by destruct Hsc|]. split; [exact HP1'|]. split; [exact HP2'|].
    split; [done|]. split; [lia|]. done.
Qed.

Lemma read_clock_solver (timeout : Z) (r : Run) :
  solver (read_clock timeout r) = solver r
  /\ final_solution (read_clock timeout r) = final_solution r.
Proof. unfold read_clock. by destruct (clock r). Qed.




(** A restart followed by the rest of the block. *)
Lemma restart_then_move (timeout : Z) (v : nat) (x mc : Z)
    (de : list (Z * list Z)) (r : Run) :
  well_formed (solver r) ->
  real_candidate (solver r) v x mc de -> mc <= 0 ->
  let r' := apply_move v x mc de (on_solver restart (read_clock timeout r)) in
  same_model (solver r) (solver r')
  /\ P1 (solver r') /\ P2 (solver r')
  /\ _best_sat_error (solver r') = Z.min DBL_MAX (_current_sat_error (solver r'))
  /\ _weak_tabu_list (solver r') = fill 0 (_weak_tabu_list (solver r)).
Proof.
  intros Hwf Hcand Hmc.
  destruct (read_clock_solver timeout r) as [Hs _].
  set (r1 := on_solver restart (read_clock timeout r)).
  assert (Hs1 : solver r1 = restart (solver r)) by (unfold r1; simpl; by rewrite Hs).
  pose proof (restart_same_model _ Hwf) as Hsm.
  assert (Hlt : mc < DBL_MAX) by (unfold DBL_MAX; lia).
  destruct (Hcand Hlt) as [Hacc Hlen].
  destruct (apply_move_spec v x mc de r1)
    as (Hsm' & HP1 & HP2 & Hcur & Hbest & Htabu & _).
  - rewrite Hs1. by apply restart_well_formed.
  - rewrite Hs1. by apply restart_P1.
  - rewrite Hs1. by apply restart_P2.
  - done.
  - rewrite Hs1, (sm_matrix _ _ Hsm). done.
  - rewrite Hs1 in *. split; [by eapply same_model_trans|].
    split; [done|]. split; [done|]. split.
    + rewrite Hbest, Hcur, (restart_best_sat_error _ Hwf). done.
    + rewrite Htabu.
      by destruct (restart_shape _ Hwf) as (? & ? & ? & ? & ? & ? & ? & -> & _).
Qed.

Lemma same_model_with_rng (g : Rng.t) (s : Solver) :
  same_model s (with_rng g s).
Proof. by constructor. Qed.

Lemma same_model_with_objective (o : Objective) (s : Solver) :
  same_model s (with_objective o s).
Proof. by constructor. Qed.

Lemma well_formed_with_rng (g : Rng.t) (s : Solver) :
  well_formed s -> well_formed (with_rng g s).
Proof. intros H. eapply well_formed_same_model; [exact H|by constructor]. Qed.

Lemma well_formed_with_objective (o : Objective) (s : Solver) :
  well_formed s -> well_formed (with_objective o s).
Proof. intros H. eapply well_formed_same_model; [exact H|by constructor]. Qed.

(** The second half of the loop body keeps the model, P1 and P2, whatever
    the branch, and acts on [best_sat_error] as the branch says. *)
Lemma apply_or_restart_spec (timeout : Z) (v : nat) (x mc : Z)
    (de : list (Z * list Z)) (r : Run) :
  well_formed (solver r) -> P1 (solver r) -> P2 (solver r) ->
  real_candidate (solver r) v x mc de ->
  let br := apply_or_restart timeout v x mc de r in
  same_model (solver r) (solver br.2)
  /\ P1 (solver br.2) /\ P2 (solver br.2)
  /\ branch_effect br.1 mc (solver r) (solver br.2).
Proof.
  intros Hwf HP1 HP2 Hcand. unfold apply_or_restart.
  set (s := solver r) in *.
  destruct (Z.leb_spec mc 0) as [Hmc|Hmc].
  - assert (Hlt : mc < DBL_MAX) by (unfold DBL_MAX; lia).
    destruct (Hcand Hlt) as [Hacc Hlen].
    destruct (_ && _).
    + (* optimization handoff *)
      set (o := objective_update_variable v x (_objective s)).
      set (so := with_objective o s).
      cbn [_current_opt_cost _objective with_objective].
      destruct (_current_opt_cost so >? cost (_objective so)).
      * (* the objective improves *)
        set (s1 := with_current_opt_cost _ so).
        set (p := if _best_opt_cost s1 >? _current_opt_cost s1 then _ else _).
        assert (Hp : exists c, p.1 = with_best_opt_cost c s1).
        { unfold p. destruct (_ >? _); simpl; [by eexists|].
          exists (_best_opt_cost s1). by destruct s. }
        destruct p as [s2 fs]. destruct Hp as [c Hc]. simpl in Hc. subst s2.
        destruct (update_constraints_of_shape v x (with_best_opt_cost c s1))
          as (cs & E & Hcs).
        cbn [fst snd]. destruct (read_clock_solver timeout
          (mkRun (update_constraints_of v x (with_best_opt_cost c s1)) fs
             (elapsed_time r) (clock r))) as [-> _].
        cbn [solver]. rewrite E.
        assert (Hsm : same_model s (with_constraints cs (with_best_opt_cost c s1))).
        { by constructor. }
        split; [exact Hsm|]. split; [exact HP1|]. split; [|done].
        intros w Hw. rewrite (constraints_of_same_model _ _ w Hsm).
        apply HP2. exact Hw.
      * destruct (_current_opt_cost so =? cost (_objective so)).
        -- destruct (Rng.uniform_below_tenth (_rng so)) as [below g].
           destruct below.
           ++ (* same objective cost, restart *)
              cbn [fst snd].
              set (r0 := mkRun (with_rng g so) _ _ _).
              destruct (read_clock_solver timeout
                          (apply_move v x mc de
                             (on_solver restart (read_clock timeout r0))))
                as [-> _].
              destruct (restart_then_move timeout v x mc de r0)
                as (Hsm & HP1' & HP2' & Hbest & Htabu).
              { by apply well_formed_with_rng, well_formed_with_objective. }
              { exact Hcand. }
              { done. }
              split; [|done]. eapply same_model_trans; [|exact Hsm].
              by constructor.
           ++ (* same objective cost, walk *)
              cbn [fst snd].
              destruct (read_clock_solver timeout
                          (on_solver (update_constraints_of v x)
                             (mkRun (with_rng g so) (final_solution r)
                                (elapsed_time r) (clock r)))) as [-> _].
              cbn [solver on_solver].
              destruct (update_constraints_of_shape v x (with_rng g so))
                as (cs & -> & Hcs).
              assert (Hsm : same_model s (with_constraints cs (with_rng g so))).
              { by constructor. }
              split; [exact Hsm|]. split; [exact HP1|]. split; [|done].
              intros w Hw. rewrite (constraints_of_same_model _ _ w Hsm).
              apply HP2. exact Hw.
        -- (* higher objective cost, restart *)
           cbn [fst snd].
           set (r0 := mkRun so _ _ _).
           destruct (read_clock_solver timeout
                       (apply_move v x mc de
                          (on_solver restart (read_clock timeout r0))))
             as [-> _].
           destruct (restart_then_move timeout v x mc de r0)
             as (Hsm & HP1' & HP2' & Hbest & Htabu).
           { by apply well_formed_with_objective. }
           { exact Hcand. }
           { done. }
           split; [|done]. eapply same_model_trans; [|exact Hsm].
           by constructor.
    + assert (Hmove : forall g,
                let r0 := on_solver (with_rng g) r in
                let br := (Move, read_clock timeout (apply_move v x mc de r0)) in
                same_model s (solver br.2)
                /\ P1 (solver br.2) /\ P2 (solver br.2)
                /\ branch_effect br.1 mc s (solver br.2)).
      { intros g r0 br. unfold br. cbn [fst snd].
        destruct (read_clock_solver timeout (apply_move v x mc de r0))
          as [-> _].
        destruct (apply_move_spec v x mc de r0)
          as (Hsm & HP1' & HP2' & Hcur & Hbest & Htabu & _); try done.
        { by apply well_formed_with_rng. }
        split; [|split; [done|split; [done|]]].
        - eapply same_model_trans; [|exact Hsm]. by constructor.
        - unfold branch_effect. rewrite Hcur, Hbest. done. }
      destruct (mc =? 0).
      * destruct (Rng.uniform_below_tenth (_rng s)) as [below g].
        destruct below; [|apply Hmove].
        (* plateau, restart *)
        cbn [fst snd].
        set (r0 := on_solver (with_rng g) r).
        destruct (read_clock_solver timeout
                    (apply_move v x mc de
                       (on_solver restart (read_clock timeout r0))))
          as [-> _].
        destruct (restart_then_move timeout v x mc de r0)
          as (Hsm & HP1' & HP2' & Hbest & Htabu).
        { by apply well_formed_with_rng. }
        { exact Hcand. }
        { done. }
        split; [|done]. eapply same_model_trans; [|exact Hsm].
        by constructor.
      * specialize (Hmove (_rng s)).
        replace (on_solver (with_rng (_rng s)) r) with r in Hmove; [exact Hmove|].
        destruct r as [[] ? ? ?]. reflexivity.
  - (* strictly worsening: restart *)
    cbn [fst snd].
    destruct (read_clock_solver timeout
                (on_solver restart (read_clock timeout r))) as [-> _].
    cbn [solver on_solver]. destruct (read_clock_solver timeout r) as [-> _].
    fold s. split; [by apply restart_same_model|].
    split; [by apply restart_P1|]. split; [by apply restart_P2|].
    unfold branch_effect. split; [by apply restart_best_sat_error|].
    by destruct (restart_shape _ Hwf) as (? & ? & ? & ? & ? & ? & ? & -> & _).
Qed.

(** One iteration keeps the model, P1 and P2. *)
Lemma iteration_spec (timeout : Z) (r : Run) :
  well_formed (solver r) -> P1 (solver r) -> P2 (solver r) ->
  let br := iteration timeout r in
  well_formed (solver br.2) /\ P1 (solver br.2) /\ P2 (solver br.2)
  /\ _number_variables (solver br.2) = _number_variables (solver r)
  /\ exists mc, branch_effect br.1 mc (solver r) (solver br.2).
Proof.
  intros Hwf HP1 HP2. unfold iteration.
  pose proof (evaluate_moves_spec (solver r) Hwf) as Hev.
  destruct (evaluate_moves (solver r)) as [[[[v x] mc] de] s'].
  destruct Hev as [(w & g & ->) Hcand].
  set (r0 := mkRun _ _ _ _).
  assert (Hsm0 : same_model (solver r) (solver r0)) by (by constructor).
  destruct (apply_or_restart_spec timeout v x mc de r0)
    as (Hsm & HP1' & HP2' & Heff).
  - by eapply well_formed_same_model.
  - exact HP1.
  - intros u Hu. rewrite (constraints_of_same_model _ _ u Hsm0). by apply HP2.
  - exact Hcand.
  - assert (Hsm' : same_model (solver r)
                     (solver (apply_or_restart timeout v x mc de r0).2))
      by (by eapply same_model_trans).
    split; [by eapply well_formed_same_model|]. split; [done|].
    split; [done|]. split; [by destruct Hsm'|]. by exists mc.
Qed.

(** ** The clock and the end of the loop *)






Lemma finalize_spec (r : Run) :
  _best_sat_error (engine (finalize r)) = _best_sat_error (solver r)
  /\ found (finalize r) = (_best_sat_error (solver r) =? 0)
  /\ (_best_sat_error (solver r) <> 0 ->
      final_cost (finalize r) = best_cost (solver r)
      /\ solution (finalize r) = final_solution r).
Proof.
  destruct r as [e fs el ck].
  destruct e as [vars cs o g opt nrs free n m mx tabu worst ec ev ent
                   best bopt bloop cur copt cbp nb].
  unfold finalize, best_cost.
  cbn [solver final_solution _best_sat_error _is_optimization _objective
         _variables _best_opt_cost].
  destruct (Z.eqb_spec best 0) as [Hz|Hnz].
  - destruct opt; cbn [andb].
    + destruct (postprocess_optimization _ _ _ _) as [[vars' best'] sol].
      cbn. destruct (best' <? 0); cbn; rewrite Hz; done.
    + cbn. rewrite Hz. done.
  - cbn [andb]. destruct opt.
    + cbn. destruct (bopt <? 0); cbn;
        (destruct (Z.eqb_spec best 0); [done|]); done.
    + cbn. destruct (Z.eqb_spec best 0); [done|]. done.
Qed.

(** ** The states at the head of the loop *)

Lemma start_run_invariant (fs : list Z) (timeout : Z) (nrs : bool)
    (ck : list Z) (s : Solver) :
  well_formed s ->
  let r := start_run fs timeout nrs ck s in
  well_formed (solver r) /\ P1 (solver r) /\ P2 (solver r).
Proof.
  intros Hwf r. unfold r, start_run.
  destruct (read_clock_solver timeout
              (mkRun (restart (with_no_random_starting_point nrs s))
                 (resize (_number_variables
                            (with_no_random_starting_point nrs s)) fs) 0 ck))
    as [-> _].
  cbn [solver].
  assert (Hwf' : well_formed (with_no_random_starting_point nrs s)).
  { eapply well_formed_same_model; [exact Hwf|by constructor]. }
  split; [by apply restart_well_formed|].
  split; [by apply restart_P1|by apply restart_P2].
Qed.




(** C3, on the code.  On the unsatisfiable problem [best_sat_error] is 7
    at the head of the loop after the first move, [current_sat_error]
    being 7 there, and 10 one iteration later: the restart of the second
    iteration has set it back to the greatest double.  It has increased
    during the run, and is then above a [current_sat_error] observed
    before. *)
Theorem best_sat_error_increases_across_restart :
  bests (loop_heads 2 1000 unsat_start) = [DBL_MAX; 7; 10]
  /\ (fun r => _current_sat_error (solver r)) <$> loop_heads 2 1000 unsat_start
     = [10; 7; 10]
  /\ (fst <$> [iteration 1000 unsat_start; iteration 1000 unsat_second])
     = [Move; PlateauRestart]
  /\ ~ best_sat_error_non_increasing (loop_heads 2 1000 unsat_start).
Proof.
  split; [vm_compute; reflexivity|]. split; [vm_compute; reflexivity|].
  split; [vm_compute; reflexivity|].
  intros H. specialize (H 1%nat 2%nat 7 10).
  assert (H' : 10 <= 7); [|lia].
  apply H; [lia| |]; vm_compute; reflexivity.
Qed.

(** C1, on the code.  The run of [solve] on the unsatisfiable problem,
    where no pick is made in an empty vector, has three loop heads.  At the
    second, [x = 3] has been found and recorded, of error 7;
    at the third, [best_sat_error] is 10 for the same recorded assignment.
    [solve] returns false with [final_cost] at 10 and [final_solution] at
    [x = 3], whose constraint has the error 7: [final_cost] is neither the
    best cost found nor the cost of the assignment returned. *)
Theorem solve_reports_cost_above_best_found :
  picks_defined_along 5 1000 unsat_start = true
  /\ (fun r => (_best_sat_error (solver r), final_solution r,
                error <$> _constraints (solver r)))
       <$> loop_heads 5 1000 unsat_start
     = [(DBL_MAX, [0], [10]); (7, [3], [7]); (10, [3], [7])]
  /\ (fun o => (found o, final_cost o, solution o,
                error <$> _constraints (engine o)))
       <$> solve [] 1000 true [1; 2; 3] (unsat_engine [])
     = Some (false, 10, [3], [7]).
Proof. vm_compute. repeat split. Qed.

(** C7, as the claim states it, fails.  The run of [solve] on two
    variables in [0, 1] and the constraints of errors [|x0 - x1|] and
    [|x0|], which are never negative, reaches at its second loop head
    [error_variables = [0; -1]]: the greatest error is 0 and
    [compute_worst_variables] returns the variable 0 alone, not every
    variable. *)
Lemma compute_worst_variables_skips_negative_error :
  (forall c values, c ∈ _constraints stale_engine -> 0 <= required_error c values)
  /\ loop_heads 5 1000 stale_start !! 1%nat = Some stale_second
  /\ _number_variables (solver stale_second) = 2%nat
  /\ _error_variables (solver stale_second) = [0; -1]
  /\ max_element (_error_variables (solver stale_second)) = 0
  /\ _worst_variables_list (compute_worst_variables (solver stale_second))
     = [0%nat]
  /\ 1%nat ∉ _worst_variables_list (compute_worst_variables (solver stale_second)).
Proof.
  split.
  { intros c values Hc. cbn in Hc.
    repeat (apply elem_of_cons in Hc as [->|Hc]; [cbn; lia|]).
    by apply elem_of_nil in Hc. }
  split; [vm_compute; reflexivity|]. split; [vm_compute; reflexivity|].
  split; [vm_compute; reflexivity|]. split; [vm_compute; reflexivity|].
  assert (E : _worst_variables_list (compute_worst_variables (solver stale_second))
              = [0%nat]) by (vm_compute; reflexivity).
  split; [exact E|]. rewrite E. intros H%list_elem_of_singleton. lia.
Qed.

(** C4, on the code.  On the unsatisfiable problem the second iteration is
    on a plateau and its draw is below 0.1: [restart()] samples [x = 0],
    whose error 10 the engine and the constraint agree on; the pending move
    [x := 3] is then applied all the same, and the iteration ends with
    [x = 3], [error_constraints] at 10 and the constraint's [error()]
    at 7. *)
Theorem plateau_restart_applies_pending_move :
  let '(v, x, mc, _, s) := evaluate_moves (solver unsat_second) in
  let '(below, g) := Rng.uniform_below_tenth (_rng s) in
  let fresh := restart (with_rng g s) in
  let br := iteration 1000 unsat_second in
  (v, x, mc, below) = (0%nat, 3, 0, true)
  /\ br.1 = PlateauRestart
  /\ values (_variables fresh) = [0]
  /\ _error_constraints fresh = [10]
  /\ error <$> _constraints fresh = [10]
  /\ values (_variables (solver br.2)) = [3]
  /\ _error_constraints (solver br.2) = [10]
  /\ _current_sat_error (solver br.2) = 10
  /\ error <$> _constraints (solver br.2) = [7].
Proof. vm_compute. repeat split. Qed.

(** C5, on the code.  Of the ten samples of a restart the first is
    [x = 0], of cost 1, and the last is [x = 2], of cost 3;
    [set_initial_configuration] leaves the last one. *)
Theorem set_initial_configuration_keeps_last_sample :
  values (_variables (monte_carlo_sampling sampling_engine)) = [0]
  /\ sum_call_error
       (broadcast_values (monte_carlo_sampling sampling_engine)) = 1
  /\ values (_variables (set_initial_configuration 10 sampling_engine)) = [2]
  /\ sum_call_error
       (broadcast_values (set_initial_configuration 10 sampling_engine)) = 3.
Proof. vm_compute. repeat split. Qed.

(** C8, on the code.  The first iteration on the unsatisfiable problem is
    an improving move of variable 0 (the error goes from 10 to 7);
    [tabu_time_selected] is 1 and the counter of the variable is still 0
    after it. *)
Theorem improving_move_leaves_tabu_list :
  let br := iteration 1000 unsat_start in
  br.1 = Move
  /\ _worst_variables_list (solver br.2) = [0%nat]
  /\ _current_sat_error (solver unsat_start) = 10
  /\ _current_sat_error (solver br.2) = 7
  /\ _best_sat_error (solver br.2) = 7
  /\ tabu_time_local_min (solver unsat_start) = 1
  /\ tabu_time_selected (solver unsat_start) = 1
  /\ _weak_tabu_list (solver br.2) = [0].
Proof. vm_compute. repeat split. Qed.

(** C9, on the code.  On the permutation problem the sampling leaves
    0, 1, 2, 3; the first move gives the value 1 to variable 0, and [solve]
    returns 1, 1, 2, 3, which is no permutation of the initial values. *)
Theorem permutation_mode_move_assigns :
  values (_variables permutation_engine) = [0; 1; 2; 3]
  /\ values (_variables (restart permutation_engine)) = [0; 1; 2; 3]
  /\ solution <$> solve [] 1000 false [1; 2; 3] permutation_engine
     = Some [1; 1; 2; 3]
  /\ (values ∘ _variables ∘ engine)
       <$> solve [] 1000 false [1; 2; 3] permutation_engine
     = Some [1; 1; 2; 3]
  /\ ~ Permutation [0; 1; 2; 3] [1; 1; 2; 3].
Proof.
  split; [by vm_compute|]. split; [by vm_compute|].
  split; [by vm_compute|]. split; [by vm_compute|].
  intros H. apply (Permutation_in 0) in H; [|by left].
  simpl in H. lia.
Qed.

(** ** The simulations of the older solver *)

Lemma var_eta (a : Var) :
  mkVariable (_id a) (_domain a) (_index a) (_current_value a) = a.
Proof. by destruct a. Qed.

Lemma swap_index_value_lookups (i j : nat) (vars : list Var) :
  (i < length vars)%nat -> (j < length vars)%nat ->
  let a := vars !!! i in
  let b := vars !!! j in
  swap_index_value i j vars !!! j
  = mkVariable (_id b) (_domain b) (_index a) (_current_value a)
  /\ (i <> j ->
      swap_index_value i j vars !!! i
      = mkVariable (_id a) (_domain a) (_index b) (_current_value b)).
Proof.
  intros Hi Hj a b. unfold swap_index_value. fold a b. split.
  - rewrite list_lookup_total_insert_eq; [done|by rewrite length_insert].
  - intros Hne.
    rewrite list_lookup_total_insert_ne by done.
    by rewrite list_lookup_total_insert_eq.
Qed.

Lemma swap_index_value_involutive (i j : nat) (vars : list Var) :
  (i < length vars)%nat -> (j < length vars)%nat ->
  swap_index_value i j (swap_index_value i j vars) = vars.
Proof.
  intros Hi Hj.
  assert (Hlen : length (swap_index_value i j vars) = length vars).
  { unfold swap_index_value. by rewrite !length_insert. }
  destruct (swap_index_value_lookups i j vars Hi Hj) as [Ej Ei].
  destruct (decide (i = j)) as [->|Hne].
  - unfold swap_index_value at 1. rewrite Ej. cbn [_id _domain _index
      _current_value]. rewrite var_eta, list_insert_insert_eq.
    unfold swap_index_value. rewrite var_eta, list_insert_insert_eq.
    rewrite !list_insert_id; [done|by apply list_lookup_lookup_total_lt|].
    rewrite list_insert_id by (by apply list_lookup_lookup_total_lt).
    by apply list_lookup_lookup_total_lt.
  - specialize (Ei Hne). unfold swap_index_value at 1. rewrite Ej, Ei.
    cbn [_id _domain _index _current_value]. rewrite !var_eta.
    apply list_eq. intros k. unfold swap_index_value.
    rewrite !list_lookup_insert, !length_insert.
    destruct (decide (j = k)) as [<-|Hjk].
    + rewrite decide_True by done. symmetry.
      by apply list_lookup_lookup_total_lt.
    + rewrite (decide_False (P := j = k /\ _)) by (intros [? _]; done).
      destruct (decide (i = k)) as [<-|Hik].
      * rewrite decide_True by done. symmetry.
        by apply list_lookup_lookup_total_lt.
      * rewrite !decide_False; [done| | |]; intros [? _]; done.
Qed.

Lemma legacy_simulate_permutation_cost_variables (s : Legacy.Solver)
    (worst other : nat) (cc : list Z) (cur : Z) :
  Legacy._vecVariables (Legacy.simulate_permutation_cost s worst other cc cur).1
  = swap_index_value worst other
      (swap_index_value worst other (Legacy._vecVariables s))
  /\ (Legacy.simulate_permutation_cost s worst other cc cur).1
     = Legacy.with_vecVariables
         (swap_index_value worst other
            (swap_index_value worst other (Legacy._vecVariables s))) s.
Proof.
  unfold Legacy.simulate_permutation_cost.
  destruct (foldl _ _ _) as [c d]. cbn [fst Legacy._vecVariables
    Legacy.with_vecVariables]. split; [done|]. by destruct s.
Qed.

(** C6, as the code has it.  Simulating a swap rolls the swap back: the
    solver is left as it was.  Simulating a value does not: the variable is
    left holding the simulated value ("no value backed-up"), the other
    variables being untouched. *)
Theorem simulation_effects (s : Legacy.Solver) (worst other variable : nat)
    (value : Z) (cc : list Z) (cur : Z) :
  (worst < length (Legacy._vecVariables s))%nat ->
  (other < length (Legacy._vecVariables s))%nat ->
  (variable < length (Legacy._vecVariables s))%nat ->
  (Legacy.simulate_permutation_cost s worst other cc cur).1 = s
  /\ no_net_effect s (Legacy.simulate_permutation_cost s worst other cc cur).1
  /\ Legacy._vecVariables
       (Legacy.simulate_local_move_cost s variable value cc cur).1
     = alter (set_value value) variable (Legacy._vecVariables s)
  /\ values (Legacy._vecVariables
               (Legacy.simulate_local_move_cost s variable value cc cur).1)
     = <[variable := value]> (values (Legacy._vecVariables s)).
Proof.
  intros Hw Ho Hv.
  assert (E : (Legacy.simulate_permutation_cost s worst other cc cur).1 = s).
  { destruct (legacy_simulate_permutation_cost_variables s worst other cc cur)
      as [_ ->].
    rewrite swap_index_value_involutive by done. by destruct s. }
  split; [exact E|]. split; [by rewrite E|].
  unfold Legacy.simulate_local_move_cost.
  cbn [fst Legacy._vecVariables Legacy.with_vecVariables]. split; [done|].
  rewrite values_alter_set_value, list_insert_alter. done.
Qed.

(** C6, as the claim states it, fails for the simulation of a value: on the
    example, simulating the value 1 leaves the variable at 1 instead of 0. *)
Lemma simulate_local_move_cost_keeps_value :
  (1 : Z) ∈ _domain (Legacy._vecVariables legacy_example !!! 0%nat)
  /\ ~ no_net_effect legacy_example
         (Legacy.simulate_local_move_cost legacy_example 0 1 [0] 0).1.
Proof.
  split; [right; left|]. intros [H _]. vm_compute in H. discriminate.
Qed.

(** ** The theorems at concrete inputs *)


Lemma simulation_effects_witness :
  (0 < length (Legacy._vecVariables legacy_example))%nat
  /\ (Legacy.simulate_permutation_cost legacy_example 0 0 [0] 0).1
     = legacy_example
  /\ values (Legacy._vecVariables
               (Legacy.simulate_local_move_cost legacy_example 0 1 [0] 0).1)
     = [1].
Proof.
  assert (H : (0 < length (Legacy._vecVariables legacy_example))%nat)
    by (simpl; lia).
  split; [exact H|].
  destruct (simulation_effects legacy_example 0 0 0 1 [0] 0 H H H)
    as (Hswap & _ & _ & Hvalue).
  split; [exact Hswap|exact Hvalue].
Defined.

Lemma compute_worst_variables_exact_witness :
  length (_error_variables zero_errors_engine)
  = _number_variables zero_errors_engine
  /\ (0 < _number_variables zero_errors_engine)%nat
  /\ max_element (_error_variables zero_errors_engine) = 0
  /\ (forall e, e ∈ _error_variables zero_errors_engine -> 0 <= e)
  /\ (forall v,
        v ∈ _worst_variables_list (compute_worst_variables zero_errors_engine)
        <-> (v < 3)%nat /\ _error_variables zero_errors_engine !!! v = 0)
  /\ forall v, (v < 3)%nat ->
       v ∈ _worst_variables_list (compute_worst_variables zero_errors_engine).
Proof.
  assert (H1 : length (_error_variables zero_errors_engine)
               = _number_variables zero_errors_engine) by reflexivity.
  assert (H2 : (0 < _number_variables zero_errors_engine)%nat)
    by (simpl; lia).
  assert (H3 : max_element (_error_variables zero_errors_engine) = 0)
    by reflexivity.
  assert (H4 : forall e, e ∈ _error_variables zero_errors_engine -> 0 <= e).
  { intros e He. cbn in He.
    repeat (apply elem_of_cons in He as [->|He]; [lia|]).
    by apply elem_of_nil in He. }
  split; [exact H1|]. split; [exact H2|]. split; [exact H3|].
  split; [exact H4|].
  destruct (compute_worst_variables_exact zero_errors_engine H1 H2)
    as (_ & Hiff & _ & _ & Hall).
  split; [exact Hiff|]. exact (Hall H3 H4).
Defined.

Lemma prefers_one_finite (vs : list Var) : prefers_one vs <= DBL_MAX.
Proof. unfold prefers_one, DBL_MAX. destruct (_ =? _); lia. Qed.

Lemma expert_heuristic_value_restores_witness :
  (0 < length one_variable)%nat
  /\ [1; 3] <> ([] : list Z)
  /\ let '(variables', x, _) :=
       ObjectiveImpl.expert_heuristic_value prefers_one one_variable 0
         [1; 3] [] in
     values variables' = [0] /\ x ∈ [1; 3].
Proof.
  assert (H1 : (0 < length one_variable)%nat)
    by (simpl; lia).
  assert (H2 : [1; 3] <> ([] : list Z)) by discriminate.
  split; [exact H1|]. split; [exact H2|].
  pose proof (expert_heuristic_value_restores prefers_one one_variable 0
                [1; 3] [] H1 H2 prefers_one_finite) as H.
  destruct (ObjectiveImpl.expert_heuristic_value _ _ _ _ _) as [[vars x] g].
  destruct H as (_ & Hvalues & Hx & _). split; [exact Hvalues|exact Hx].
Defined.

(** * Further properties of the engine *)

(** ** Tabu list *)

(** X1.  On counters that are [int]s above [INT_MIN] (so that [tabu - 1]
    does not overflow), [decay_weak_tabu_list] replaces every counter [t]
    by [max( 0, t - 1 )]: no counter is negative afterwards, the list keeps
    its length, nothing else changes, and the returned boolean tells
    whether some counter is 0 afterwards. *)
Theorem decay_weak_tabu_list_saturates (s : Solver) :
  (forall t, t ∈ _weak_tabu_list s -> INT_MIN < t <= INT_MAX) ->
  let s' := (decay_weak_tabu_list s).1 in
  let free := (decay_weak_tabu_list s).2 in
  s' = with_weak_tabu_list (_weak_tabu_list s') s
  /\ length (_weak_tabu_list s') = length (_weak_tabu_list s)
  /\ (forall i t, _weak_tabu_list s !! i = Some t ->
        _weak_tabu_list s' !! i = Some (Z.max 0 (t - 1)))
  /\ (forall t, t ∈ _weak_tabu_list s' -> 0 <= t <= INT_MAX)
  /\ (free = true <-> 0 ∈ _weak_tabu_list s')
  /\ (free = true <-> exists t, t ∈ _weak_tabu_list s /\ t <= 1).
Proof.
  intros Hint.
  unfold decay_weak_tabu_list. cbn [fst snd _weak_tabu_list with_weak_tabu_list].
  set (l := _weak_tabu_list s) in *.
  assert (Hfree : existsb (fun tabu => tabu =? 0)
                    ((fun tabu => Z.max 0 (tabu - 1)) <$> l) = true
                  <-> 0 ∈ (fun tabu => Z.max 0 (tabu - 1)) <$> l).
  { rewrite existsb_exists. split.
    - intros (t & Hin & Ht). apply Z.eqb_eq in Ht. subst t.
      by apply list_elem_of_In.
    - intros Hin. exists 0. split; [by apply list_elem_of_In|done]. }
  split; [by destruct s|]. split; [apply length_fmap|].
  split; [|split; [|split; [exact Hfree|]]].
  - intros i t Hi. by rewrite list_lookup_fmap, Hi.
  - intros t (t0 & -> & Ht0)%list_elem_of_fmap.
    specialize (Hint t0 Ht0). unfold INT_MIN, INT_MAX in *. lia.
  - rewrite Hfree. rewrite list_elem_of_fmap. split.
    + intros (t & Ht & Hin). exists t. split; [done|lia].
    + intros (t & Hin & Ht). exists t. split; [lia|done].
Qed.

(** ** Cost bookkeeping *)

(** X2.  [compute_constraints_errors] stores in [_error_constraints[ i ]]
    the [error()] of constraint [i], for each of the
    [_number_constraints] constraints, returns these errors accumulated
    from 0.0 in the order of the constraints ([satisfaction_error += error]),
    and changes nothing else. *)
Theorem compute_constraints_errors_fills (s : Solver) :
  length (_error_constraints s) = _number_constraints s ->
  let s' := (compute_constraints_errors s).1 in
  s' = with_error_constraints (_error_constraints s') s
  /\ length (_error_constraints s') = _number_constraints s
  /\ (forall i, (i < _number_constraints s)%nat ->
        _error_constraints s' !! i = Some (error (_constraints s !!! i)))
  /\ (compute_constraints_errors s).2 = accumulate (_error_constraints s').
Proof.
  intros Hlen. rewrite (compute_constraints_errors_content s Hlen).
  cbn [fst snd _error_constraints with_error_constraints].
  split; [by destruct s|]. split; [by rewrite length_fmap, length_seq|].
  split; [|by rewrite accumulate_total]. intros i Hi.
  by rewrite list_lookup_fmap, lookup_seq_lt.
Qed.

(** X3.  [compute_variables_errors] adds to [_error_variables[ v ]] the
    errors of the constraints listed for [v] in [_matrix_var_ctr], one
    after the other in the order of that list
    ([_error_variables[ v ] += _error_constraints[ c ]]), for each variable
    [v], and changes nothing else. *)
Theorem compute_variables_errors_adds (s : Solver) :
  (_number_variables s <= length (_error_variables s))%nat ->
  let s' := compute_variables_errors s in
  s' = with_error_variables (_error_variables s') s
  /\ length (_error_variables s') = length (_error_variables s)
  /\ forall v, (v < _number_variables s)%nat ->
       _error_variables s' !!! v
       = foldl Z.add (_error_variables s !!! v)
               ((fun c => _error_constraints s !!! c)
                  <$> _matrix_var_ctr s !!! v).
Proof.
  intros Hlen s'.
  destruct (compute_variables_errors_shape s) as (ev & E & Hev).
  assert (Hlook : forall v, (v < _number_variables s)%nat ->
            _error_variables s' !!! v
            = foldl Z.add (_error_variables s !!! v)
                    ((fun c => _error_constraints s !!! c)
                       <$> _matrix_var_ctr s !!! v)).
  { intros v Hv. unfold s', compute_variables_errors.
    rewrite compute_variables_errors_lookup, foldl_add_total.
    - rewrite decide_True; [done|]. apply elem_of_seq. lia.
    - apply NoDup_seq.
    - intros u Hu. apply elem_of_seq in Hu. lia. }
  unfold s' in *. rewrite E in Hlook |- *.
  cbn [_error_variables with_error_variables] in Hlook |- *.
  split; [by destruct s|]. split; [exact Hev|exact Hlook].
Qed.

(** ** The constructor *)

(** X4.  The constructor numbers the variables and the constraints by
    their position, keeps their values, and lists for each variable, in
    increasing order and without repetition, exactly the constraints that
    have it; the error and tabu vectors get one zeroed cell per variable
    or constraint, and the run is an optimization run exactly when an
    objective is given. *)
Theorem constructor_adjacency (variables : list Var) (constraints : list Ctr)
    (objective : option Objective) (permutation_problem : bool) :
  let s := make variables constraints objective permutation_problem in
  _number_variables s = length variables
  /\ _number_constraints s = length constraints
  /\ (forall i v, variables !! i = Some v ->
        _variables s !! i = Some (set_id i v))
  /\ (forall i c, constraints !! i = Some c ->
        _constraints s !! i = Some (set_ctr_id i c))
  /\ (forall v c, (v < length variables)%nat ->
        c ∈ _matrix_var_ctr s !!! v
        <-> exists ctr, constraints !! c = Some ctr
                        /\ v ∈ get_variable_ids ctr)
  /\ (forall v, NoDup (_matrix_var_ctr s !!! v))
  /\ (forall v i j a b, (i < j)%nat ->
        (_matrix_var_ctr s !!! v) !! i = Some a ->
        (_matrix_var_ctr s !!! v) !! j = Some b -> (a < b)%nat)
  /\ _weak_tabu_list s = replicate (length variables) 0
  /\ _error_variables s = replicate (length variables) 0
  /\ _error_constraints s = replicate (length constraints) 0
  /\ _is_optimization s = bool_decide (is_Some objective)
  /\ is_permutation (_neighborhood s) = permutation_problem.
Proof.
  intros s. unfold s, make.
  cbn [_number_variables _number_constraints _variables _constraints
         _matrix_var_ctr _weak_tabu_list _error_variables _error_constraints
         _is_optimization _neighborhood is_permutation].
  split; [done|]. split; [done|].
  split; [intros i v Hi; by rewrite list_lookup_imap, Hi|].
  split; [intros i c Hi; by rewrite list_lookup_imap, Hi|].
  split; [|split; [|split; [|split; [done|split; [done|split; [done|split; [|done]]]]]]].
  - intros v c Hv. rewrite lookup_total_fmap_seq by done.
    rewrite list_elem_of_filter, elem_of_seq. unfold has_variable.
    rewrite bool_decide_eq_true. split.
    + intros [Hin [_ Hc]]. simpl in Hc.
      destruct (lookup_lt_is_Some_2 constraints c Hc) as [ctr Hctr].
      exists ctr. split; [done|].
      rewrite list_lookup_total_alt, list_lookup_imap, Hctr in Hin. exact Hin.
    + intros (ctr & Hctr & Hin).
      pose proof (lookup_lt_Some _ _ _ Hctr) as Hc. split; [|lia].
      rewrite list_lookup_total_alt, list_lookup_imap, Hctr. exact Hin.
  - intros v.
    destruct (decide (v < length variables)%nat) as [Hv|Hv].
    + rewrite lookup_total_fmap_seq by done. apply NoDup_filter, NoDup_seq.
    + rewrite list_lookup_total_alt, list_lookup_fmap, lookup_seq_ge by lia.
      apply NoDup_nil_2.
  - intros v i j a b Hij.
    destruct (decide (v < length variables)%nat) as [Hv|Hv].
    + rewrite lookup_total_fmap_seq by done. by apply filter_seq_increasing.
    + by rewrite list_lookup_total_alt, list_lookup_fmap, lookup_seq_ge by lia.
  - by destruct objective.
Qed.

(** ** Sampling of permutation problems *)

Lemma Permutation_insert_head {A} `{Inhabited A} (l : list A) (j : nat) (x : A) :
  (j < length l)%nat -> Permutation (l !!! j :: <[j := x]> l) (x :: l).
Proof.
  revert j. induction l as [|y l IH]; intros [|j] Hj; simpl in Hj; try lia.
  - apply perm_swap.
  - change ((y :: l) !!! S j) with (l !!! j).
    change (<[S j := x]> (y :: l)) with (y :: <[j := x]> l).
    etrans; [apply perm_swap|]. etrans; [|apply perm_swap].
    apply perm_skip, IH. lia.
Qed.

Lemma Permutation_insert_swap {A} `{Inhabited A} (l : list A) (i j : nat) :
  (i < length l)%nat -> (j < length l)%nat ->
  Permutation (<[j := l !!! i]> (<[i := l !!! j]> l)) l.
Proof.
  revert i j. induction l as [|y l IH]; intros i j Hi Hj; simpl in Hi, Hj;
    [lia|].
  destruct i as [|i], j as [|j].
  - done.
  - change (<[S j := (y :: l) !!! 0%nat]> (<[0%nat := (y :: l) !!! S j]> (y :: l)))
      with (l !!! j :: <[j := y]> l).
    apply Permutation_insert_head. lia.
  - change (<[0%nat := (y :: l) !!! S i]> (<[S i := (y :: l) !!! 0%nat]> (y :: l)))
      with (l !!! i :: <[i := y]> l).
    apply Permutation_insert_head. lia.
  - change (<[S j := (y :: l) !!! S i]> (<[S i := (y :: l) !!! S j]> (y :: l)))
      with (y :: <[j := l !!! i]> (<[i := l !!! j]> l)).
    apply perm_skip, IH; lia.
Qed.

Lemma lookup_total_fmap_lt {A B} `{Inhabited A} `{Inhabited B} (f : A -> B)
    (l : list A) (i : nat) :
  (i < length l)%nat -> (f <$> l) !!! i = f (l !!! i).
Proof.
  intros Hi. rewrite !list_lookup_total_alt, list_lookup_fmap.
  by destruct (lookup_lt_is_Some_2 l i Hi) as [x ->].
Qed.

Lemma pairs_swap_index_value (i j : nat) (vars : list Var) :
  (i < length vars)%nat -> (j < length vars)%nat ->
  pairs (swap_index_value i j vars)
  = <[j := pairs vars !!! i]> (<[i := pairs vars !!! j]> (pairs vars)).
Proof.
  intros Hi Hj. unfold pairs, swap_index_value.
  rewrite !list_fmap_insert. cbn [_index _current_value].
  by rewrite !lookup_total_fmap_lt.
Qed.

Lemma ids_swap_index_value (i j : nat) (vars : list Var) :
  _id <$> swap_index_value i j vars = _id <$> vars.
Proof.
  unfold swap_index_value. rewrite !list_fmap_insert. cbn [_id].
  destruct (decide (i < length vars)%nat) as [Hi|Hi].
  - rewrite <- (lookup_total_fmap_lt _id vars i Hi).
    rewrite (list_insert_id (_id <$> vars) i).
    + destruct (decide (j < length vars)%nat) as [Hj|Hj].
      * rewrite <- (lookup_total_fmap_lt _id vars j Hj).
        apply list_insert_id, list_lookup_lookup_total_lt.
        by rewrite length_fmap.
      * apply list_insert_ge. rewrite length_fmap. lia.
    + apply list_lookup_lookup_total_lt. by rewrite length_fmap.
  - rewrite (list_insert_ge (_id <$> vars) i) by (rewrite length_fmap; lia).
    destruct (decide (j < length vars)%nat) as [Hj|Hj].
    + rewrite <- (lookup_total_fmap_lt _id vars j Hj).
      apply list_insert_id, list_lookup_lookup_total_lt.
      by rewrite length_fmap.
    + apply list_insert_ge. rewrite length_fmap. lia.
Qed.

Lemma swapped_maybe_swap (vars0 : list Var) (i j : nat)
    (st : list Var * Rng.t) :
  (i < length vars0)%nat -> (j < length vars0)%nat ->
  swapped vars0 st -> swapped vars0 (maybe_swap i st j).
Proof.
  intros Hi Hj (Hlen & Hperm & Hids). unfold maybe_swap.
  destruct (Rng.uniform 0 1 st.2) as [r g']. destruct (r =? 0); [|done].
  split; [|split]; cbn [fst].
  - unfold swap_index_value. by rewrite !length_insert.
  - rewrite pairs_swap_index_value by lia.
    etrans; [|exact Hperm]. apply Permutation_insert_swap;
      unfold pairs; rewrite length_fmap; lia.
  - by rewrite ids_swap_index_value.
Qed.

Lemma swapped_random_swaps (vars : list Var) (g : Rng.t) :
  swapped vars (random_swaps vars g).
Proof.
  unfold random_swaps. set (n := length vars).
  assert (Hinner : forall i l st,
             (i < n)%nat -> (forall j, j ∈ l -> (j < n)%nat) ->
             swapped vars st -> swapped vars (foldl (maybe_swap i) st l)).
  { intros i l. induction l as [|j l IH]; intros st Hi Hl Hst; [done|].
    cbn [foldl]. apply IH; [done| |].
    - intros j' Hj'. apply Hl. by right.
    - apply swapped_maybe_swap; [done| |done]. apply Hl. by left. }
  assert (Houter : forall l st,
             (forall i, i ∈ l -> (i < n - 1)%nat) ->
             swapped vars st ->
             swapped vars
               (foldl (fun st i => foldl (maybe_swap i) st (seq (S i) (n - S i)))
                      st l)).
  { intros l. induction l as [|i l IH]; intros st Hl Hst; [done|].
    cbn [foldl]. apply IH.
    - intros i' Hi'. apply Hl. by right.
    - pose proof (Hl i ltac:(by left)) as Hi. apply Hinner; [lia| |done].
      intros j Hj. apply elem_of_seq in Hj. lia. }
  apply Houter.
  - intros i Hi. apply elem_of_seq in Hi. lia.
  - by split.
Qed.

(** X5.  [random_permutations] only swaps (index, value) pairs: the pairs
    held afterwards are a permutation of the pairs held before (and so are
    the values), each variable keeps its id and its domain, and nothing but
    the variables and the generator changes. *)
Theorem random_permutations_permutes (s : Solver) :
  let s' := random_permutations s in
  s' = with_rng (_rng s') (with_variables (_variables s') s)
  /\ Permutation (pairs (_variables s')) (pairs (_variables s))
  /\ Permutation (values (_variables s')) (values (_variables s))
  /\ _id <$> _variables s' = _id <$> _variables s
  /\ _domain <$> _variables s' = _domain <$> _variables s.
Proof.
  unfold random_permutations.
  pose proof (swapped_random_swaps (_variables s) (_rng s)) as (_ & Hperm & Hids).
  pose proof (domains_random_swaps (_variables s) (_rng s)) as Hdom.
  destruct (random_swaps (_variables s) (_rng s)) as [vs g].
  cbn [fst _variables _rng with_rng with_variables] in *.
  split; [by destruct s|]. split; [exact Hperm|]. split; [|by split].
  assert (E : forall l, values l = snd <$> pairs l).
  { intros l. unfold values, pairs. rewrite <- list_fmap_compose. done. }
  rewrite !E. by apply fmap_Permutation.
Qed.

(** ** Evaluation of the moves *)

Lemma select_candidates_lower (cum : list (Z * Z)) (kv : Z * Z) :
  kv ∈ cum -> (select_candidates cum).1 <= kv.2.
Proof.
  unfold select_candidates. revert kv.
  induction cum as [|[k d] cum IH] using rev_ind; intros kv Hkv.
  - by apply elem_of_nil in Hkv.
  - rewrite foldl_app. cbn [foldl].
    destruct (foldl keep_least (DBL_MAX, []) cum) as [mc cands].
    cbn [fst] in IH. unfold keep_least. cbn [fst snd].
    assert (Hcase : kv.2 = d \/ mc <= kv.2).
    { apply elem_of_app in Hkv as [Hkv|Hkv]; [right; by apply IH|left].
      by apply list_elem_of_singleton in Hkv as ->. }
    destruct (Z.gtb_spec mc d); [|destruct (Z.eqb_spec mc d)];
      cbn [fst]; lia.
Qed.

(** X6.  [select_candidates] returns the least of the cumulated deltas (the
    greatest double when there is none below it) and, in the order of the
    map, exactly the values whose cumulated delta is that least one. *)
Theorem select_candidates_least (cum : list (Z * Z)) :
  let mc := (select_candidates cum).1 in
  let cands := (select_candidates cum).2 in
  mc <= DBL_MAX
  /\ (forall kv, kv ∈ cum -> mc <= kv.2)
  /\ (mc = DBL_MAX \/ exists k, (k, mc) ∈ cum)
  /\ cands = (filter (fun kv => kv.2 = mc) cum).*1.
Proof.
  unfold select_candidates.
  induction cum as [|[k d] cum IH] using rev_ind.
  - simpl. split; [lia|]. split; [|split; [by left|done]].
    intros kv Hkv. by apply elem_of_nil in Hkv.
  - rewrite foldl_app. cbn [foldl].
    destruct (foldl keep_least (DBL_MAX, []) cum) as [mc cands].
    cbn [fst snd] in IH. destruct IH as (Hmax & Hle & Hin & Hcands).
    unfold keep_least. cbn [fst snd].
    destruct (Z.gtb_spec mc d) as [Hgt|Hngt];
      [|destruct (Z.eqb_spec mc d) as [Heq|Hne]]; cbn [fst snd].
    + split; [lia|]. split; [|split].
      * intros kv [Hkv|Hkv]%elem_of_app;
          [|apply list_elem_of_singleton in Hkv as ->; simpl; lia].
        specialize (Hle _ Hkv). lia.
      * right. exists k. apply elem_of_app. right. by left.
      * rewrite filter_app, filter_singleton_True by done.
        rewrite fmap_app. replace (filter (fun kv => kv.2 = d) cum) with
          (@nil (Z * Z)); [done|].
        symmetry. apply elem_of_nil_inv. intros kv [E Hkv]%list_elem_of_filter.
        specialize (Hle _ Hkv). lia.
    + subst d. split; [done|]. split; [|split].
      * intros kv [Hkv|Hkv]%elem_of_app;
          [|apply list_elem_of_singleton in Hkv as ->; simpl; lia].
        by apply Hle.
      * right. exists k. apply elem_of_app. right. by left.
      * rewrite filter_app, filter_singleton_True by done.
        by rewrite fmap_app, Hcands.
    + split; [done|]. split; [|split].
      * intros kv [Hkv|Hkv]%elem_of_app;
          [|apply list_elem_of_singleton in Hkv as ->; simpl; lia].
        by apply Hle.
      * destruct Hin as [?|(k' & Hk')]; [by left|]. right. exists k'.
        apply elem_of_app. by left.
      * rewrite filter_app, filter_singleton_False by (simpl; congruence).
        by rewrite app_nil_r.
Qed.

Lemma simulate_values_content (s : Solver) (v : nat) (x : Z) (row : list nat)
    (m : list (Z * list Z)) :
  sorted_keys m ->
  let m' := foldl (simulate_value s v x) m row in
  map_at x m'
  = map_at x m ++ ((fun c => simulate_delta v x (_constraints s !!! c)) <$> row)
  /\ (forall k, k ∈ m'.*1 <-> k ∈ m.*1 \/ (k = x /\ row <> [])).
Proof.
  revert m. induction row as [|c row IH]; intros m Hs.
  - simpl. split; [by rewrite app_nil_r|]. intros k. split; [by left|].
    intros [?|[_ ?]]; done.
  - cbn [foldl]. destruct (IH (simulate_value s v x m c)) as [Hat Hkeys].
    { by apply map_push_sorted. }
    split.
    + rewrite Hat. unfold simulate_value at 1. rewrite map_at_push_eq by done.
      by rewrite <- app_assoc.
    + intros k. rewrite Hkeys. unfold simulate_value at 1.
      rewrite map_push_keys. split.
      * intros [[->|?]|[-> _]]; [right|by left|right]; done.
      * intros [?|[-> _]]; left; [by right|by left].
Qed.

(** What the map of the deltas holds once the values [seen] of the domain
    have been simulated. *)
Lemma simulate_deltas_content (s : Solver) (v : nat) (dom : list Z) :
  NoDup dom ->
  let de := simulate_deltas s v dom in
  sorted_keys de
  /\ (forall k, k ∈ de.*1 <-> k ∈ dom /\ _matrix_var_ctr s !!! v <> [])
  /\ forall x, x ∈ dom -> map_at x de = deltas_of s v x.
Proof.
  intros Hnd. unfold simulate_deltas, deltas_of.
  set (row := _matrix_var_ctr s !!! v).
  set (ds := fun x => (fun c => simulate_delta v x (_constraints s !!! c)) <$> row).
  assert (H : forall seen m,
             NoDup (seen ++ dom) ->
             sorted_keys m ->
             (forall k, k ∈ m.*1 <-> k ∈ seen /\ row <> []) ->
             (forall x, x ∈ seen -> map_at x m = ds x) ->
             let de := foldl (fun m x => foldl (simulate_value s v x) m row)
                             m dom in
             sorted_keys de
             /\ (forall k, k ∈ de.*1 <-> k ∈ seen ++ dom /\ row <> [])
             /\ forall x, x ∈ seen ++ dom -> map_at x de = ds x).
  { clear Hnd. induction dom as [|x dom IH]; intros seen m Hnd Hs Hk Hm.
    - simpl. rewrite app_nil_r. done.
    - cbn [foldl].
      destruct (simulate_values_spec s v x row m Hs) as (Hs' & _ & _ & Hat).
      destruct (simulate_values_content s v x row m Hs) as [Hx Hkeys].
      assert (Hfresh : x ∉ seen).
      { apply NoDup_app in Hnd as (_ & Hdisj & _). intros Hin.
        apply (Hdisj _ Hin). by left. }
      replace (seen ++ x :: dom) with ((seen ++ [x]) ++ dom)
        by (by rewrite <- app_assoc).
      apply IH.
      + by rewrite <- app_assoc.
      + done.
      + intros k. rewrite Hkeys, Hk, elem_of_app, list_elem_of_singleton.
        tauto.
      + intros y [Hy|Hy]%elem_of_app.
        * rewrite Hat; [by apply Hm|]. intros ->. done.
        * apply list_elem_of_singleton in Hy as ->.
          rewrite Hx, map_at_absent; [done|].
          intros Hin. apply Hk in Hin as [? _]. done. }
  apply (H [] []).
  - exact Hnd.
  - done.
  - intros k. split; [intros Hin|intros [Hin _]]; by apply elem_of_nil in Hin.
  - intros x Hx. by apply elem_of_nil in Hx.
Qed.

(** X7.  For a duplicate-free domain, the map of the simulated deltas is
    sorted by value, has one entry per value of the domain (none when the
    variable is in no constraint), and the entry of a value holds the
    deltas that the constraints of the variable simulate for it, one per
    constraint and in the order of [_matrix_var_ctr]; the cumulated map
    holds for each value these deltas accumulated from 0.0, from left to
    right. *)
Theorem simulate_deltas_per_constraint (s : Solver) (v : nat) (dom : list Z) :
  NoDup dom ->
  let de := simulate_deltas s v dom in
  sorted_keys de
  /\ (forall k, k ∈ de.*1 <-> k ∈ dom /\ _matrix_var_ctr s !!! v <> [])
  /\ (forall x, x ∈ dom ->
        map_at x de
        = (fun c => simulate_delta v x (_constraints s !!! c))
            <$> _matrix_var_ctr s !!! v)
  /\ forall x, x ∈ dom -> _matrix_var_ctr s !!! v <> [] ->
       (x, conflict s v x) ∈ cumulate de.
Proof.
  intros Hnd de.
  destruct (simulate_deltas_content s v dom Hnd) as (Hs & Hk & Hm).
  fold de in Hs, Hk, Hm. split; [done|]. split; [done|]. split; [done|].
  intros x Hx Hrow. unfold cumulate.
  assert (Hkey : x ∈ de.*1) by (by apply Hk).
  apply list_elem_of_fmap in Hkey as ([k ds] & -> & Hin). cbn [fst] in *.
  apply list_elem_of_fmap. exists (k, ds). split; [|done]. cbn [fst snd].
  unfold conflict. by rewrite <- (Hm k Hx), (map_at_elem k ds de Hs Hin).
Qed.

Lemma evaluate_moves_candidate (s : Solver) :
  well_formed s ->
  let '(v, x, mc, de, s') := evaluate_moves s in
  let dom := get_full_domain (_variables s !!! v) in
  de = simulate_deltas s v dom
  /\ (_worst_variables_list (compute_worst_variables s) <> [] ->
      v ∈ _worst_variables_list (compute_worst_variables s))
  /\ ((select_candidates (cumulate de)).2 <> [] ->
      x ∈ dom
      /\ _matrix_var_ctr s !!! v <> []
      /\ mc = conflict s v x
      /\ map_at x de = deltas_of s v x
      /\ forall y, y ∈ dom -> mc <= conflict s v y)
  /\ (mc < DBL_MAX -> (select_candidates (cumulate de)).2 <> []).
Proof.
  intros Hwf. unfold evaluate_moves.
  set (s1 := compute_worst_variables s).
  pose proof (pick_elem (_worst_variables_list s1) (_rng s1)) as Hv.
  destruct (Rng.pick (_worst_variables_list s1) (_rng s1)) as [v g].
  cbn [fst] in Hv.
  set (dom := get_full_domain (_variables s1 !!! v)).
  set (de := simulate_deltas s1 v dom).
  destruct (simulate_deltas_content s v dom (domain_lookup_NoDup s v Hwf))
    as (Hs & Hk & Hm).
  change (simulate_deltas s v dom) with de in Hs, Hk, Hm.
  pose proof (select_candidates_lower (cumulate de)) as Hle.
  pose proof (select_candidates_spec (cumulate de)) as Hsel.
  destruct (select_candidates (cumulate de)) as [mc cands] eqn:Esel.
  cbn [fst snd] in Hle. destruct Hsel as [Hin Hne].
  pose proof (pick_elem cands g) as Hpick.
  destruct (Rng.pick cands g) as [x g']. cbn [fst] in Hpick.
  cbn [fst snd]. rewrite Esel. cbn [snd].
  split; [done|]. split; [exact Hv|]. split; [|exact Hne].
  intros Hcands. specialize (Hpick Hcands).
  apply Hin in Hpick. destruct (cumulate_elem _ _ _ Hpick) as (ds & Hds & ->).
  assert (Hkey : x ∈ de.*1).
  { apply list_elem_of_fmap. by exists (x, ds). }
  apply Hk in Hkey as [Hx Hrow].
  split; [exact Hx|]. split; [exact Hrow|].
  assert (Hat : map_at x de = ds) by (by apply map_at_elem).
  split; [|split; [by apply Hm|]].
  - unfold conflict. by rewrite <- (Hm x Hx), Hat.
  - intros y Hy.
    assert (Hykey : y ∈ de.*1) by (by apply Hk).
    apply list_elem_of_fmap in Hykey as ([k dy] & -> & Hyin). cbn [fst] in *.
    assert (Hcum : (k, accumulate dy) ∈ cumulate de).
    { unfold cumulate. apply list_elem_of_fmap. by exists (k, dy). }
    specialize (Hle _ Hcum). cbn [snd] in Hle.
    unfold conflict. by rewrite <- (Hm k Hy), (map_at_elem k dy de Hs Hyin).
Qed.

Lemma inhabited_list_nonempty {A} (l : list A) :
  inhabited_list l = true -> l <> [].
Proof. by destruct l. Qed.

(** X8.  When the picks are defined (neither the list of worst variables
    nor the vector of candidate values is empty), the first half of the
    loop body picks a variable whose error is the greatest of all and a
    value of its domain whose cumulated delta (the deltas simulated by the
    constraints of the variable, accumulated from left to right) is
    [min_conflict], the least over the domain; only the generator and the
    list of worst variables change. *)
Theorem evaluate_moves_min_conflict (s : Solver) :
  well_formed s -> picks_defined s = true ->
  let '(v, x, mc, de, s') := evaluate_moves s in
  (exists w g, s' = with_rng g (with_worst_variables_list w s))
  /\ (v < _number_variables s)%nat
  /\ _error_variables s !!! v = max_element (_error_variables s)
  /\ x ∈ get_full_domain (_variables s !!! v)
  /\ mc = conflict s v x
  /\ forall y, y ∈ get_full_domain (_variables s !!! v) ->
       mc <= conflict s v y.
Proof.
  intros Hwf Hdef. apply andb_prop in Hdef as [Hworst Hcands].
  apply inhabited_list_nonempty in Hworst, Hcands.
  unfold candidate_values in Hcands.
  pose proof (evaluate_moves_spec s Hwf) as Hspec.
  pose proof (evaluate_moves_candidate s Hwf) as Hcand.
  destruct (evaluate_moves s) as [[[[v x] mc] de] s'].
  cbn [fst snd] in Hcands.
  destruct Hspec as [Hshape _]. destruct Hcand as (_ & Hv & Hmc & _).
  split; [exact Hshape|].
  apply Hv in Hworst. unfold compute_worst_variables in Hworst.
  cbn [_worst_variables_list with_worst_variables_list] in Hworst.
  apply list_elem_of_filter in Hworst as [Hmax Hlt].
  apply elem_of_seq in Hlt.
  split; [lia|]. split; [exact Hmax|].
  destruct (Hmc Hcands) as (Hx & _ & Hc & _ & Hmin). done.
Qed.

(** ** An applied move and the constraints' own errors *)

Lemma error_update_variable (v : nat) (x : Z) (c : Ctr) :
  error (update_variable v x c) = error c + simulate_delta v x c.
Proof. unfold error, simulate_delta, update_variable, error. simpl. lia. Qed.

Lemma update_errors_P3 (v : nat) (x : Z) (deltas : list Z) (row : list nat)
    (k : nat) (s : Solver) :
  well_formed s -> NoDup row ->
  (forall c, c ∈ row -> (c < _number_constraints s)%nat) ->
  (forall p c, row !! p = Some c ->
     deltas !! (k + p)%nat
     = Some (simulate_delta v x (_constraints s !!! c))) ->
  P3 s -> P3 (update_errors v x deltas k row s).
Proof.
  revert k s. induction row as [|c row IH]; intros k s Hwf Hnd Hrow Hd HP3;
    [done|].
  rewrite update_errors_cons. apply NoDup_cons in Hnd as [Hc Hnd].
  pose proof (Hrow c ltac:(by left)) as Hcm.
  set (s0 := with_error_constraints _ s).
  destruct (add_deltas_shape (deltas !!! k)
              (get_variable_ids (_constraints s !!! c)) s0) as (ev & -> & Hlen).
  set (s1 := send_value v x (with_error_variables ev s0) c).
  assert (Hsm : same_model s s1).
  { constructor; unfold s1, s0, send_value in *; simpl in *; try done.
    - unfold scopes. simpl. apply scopes_call_update_variable.
    - apply length_alter. }
  assert (Hdk : deltas !!! k = simulate_delta v x (_constraints s !!! c)).
  { apply list_lookup_total_correct. rewrite <- (Hd 0%nat c eq_refl).
    f_equal. lia. }
  apply IH.
  - by eapply well_formed_same_model.
  - done.
  - intros c' Hc'. rewrite (sm_number_constraints _ _ Hsm). apply Hrow.
    by right.
  - intros p c' Hp.
    assert (Hne : c <> c').
    { intros ->. apply Hc. by eapply list_elem_of_lookup_2. }
    replace (S k + p)%nat with (k + S p)%nat by lia.
    rewrite (Hd (S p) c' Hp). unfold s1, s0, send_value, call_update_variable.
    cbn [_constraints with_constraints with_error_variables
           with_error_constraints].
    by rewrite list_lookup_total_alter_ne.
  - intros i Hi. rewrite (sm_number_constraints _ _ Hsm) in Hi.
    unfold s1, s0, send_value, call_update_variable.
    cbn [_constraints _error_constraints with_constraints
           with_error_variables with_error_constraints].
    rewrite !list_lookup_total_alter.
    rewrite (wf_constraints _ Hwf), (wf_error_constraints _ Hwf).
    destruct (decide (c = i)) as [->|Hne].
    + rewrite !decide_True by done. rewrite error_update_variable, Hdk.
      by rewrite (HP3 i Hi).
    + rewrite !decide_False by (intros [? _]; done). by apply HP3.
Qed.

Lemma apply_move_P3 (v : nat) (x mc : Z) (de : list (Z * list Z)) (r : Run) :
  well_formed (solver r) -> P3 (solver r) ->
  NoDup (_matrix_var_ctr (solver r) !!! v) ->
  map_at x de = deltas_of (solver r) v x ->
  P3 (solver (apply_move v x mc de r)).
Proof.
  intros Hwf HP3 Hnd Hat. unfold apply_move.
  set (sb := with_variables _ (with_current_sat_error _ (solver r))).
  assert (Hsb : same_model (solver r) sb).
  { constructor; unfold sb; simpl; try done. apply domains_alter_set_value. }
  assert (HP3' : P3 (update_errors v x (map_at x de) 0
                       (_matrix_var_ctr sb !!! v) sb)).
  { apply update_errors_P3.
    - by eapply well_formed_same_model.
    - exact Hnd.
    - intros c Hc. by eapply (matrix_row_in_range (solver r)).
    - intros p c Hp. rewrite Hat. unfold deltas_of.
      rewrite list_lookup_fmap. cbn [Nat.add].
      change (_matrix_var_ctr sb !!! v) with (_matrix_var_ctr (solver r) !!! v)
        in Hp.
      by rewrite Hp.
    - exact HP3. }
  destruct (update_errors_shape v x (map_at x de) 0 (_matrix_var_ctr sb !!! v) sb)
    as (ec & ev & cs & E & _).
  rewrite E in HP3' |- *. clear E.
  destruct (_ >? _); exact HP3'.
Qed.

Lemma matrix_row_NoDup (s : Solver) (v : nat) :
  well_formed s -> NoDup (_matrix_var_ctr s !!! v).
Proof.
  intros Hwf. destruct (decide (v < _number_variables s)%nat) as [Hv|Hv].
  - rewrite (matrix_row _ _ Hwf Hv). apply NoDup_filter, NoDup_seq.
  - rewrite (wf_matrix _ Hwf).
    rewrite list_lookup_total_alt, list_lookup_fmap, lookup_seq_ge by lia.
    apply NoDup_nil_2.
Qed.

(** X9.  With errors that are integers small enough for the additions to
    be exact, an iteration that applies its move without restarting keeps
    the cached errors in step with the constraints: if every
    [_error_constraints[ i ]] is the [error()] of constraint [i] before the
    iteration, it is so after it. *)
Theorem move_keeps_P3 (timeout : Z) (B : Z) (r : Run) :
  well_formed (solver r) -> exact_errors B (solver r) -> P3 (solver r) ->
  (iteration timeout r).1 = Move ->
  P3 (solver (iteration timeout r).2).
Proof.
  intros Hwf _ HP3. unfold iteration.
  pose proof (evaluate_moves_spec (solver r) Hwf) as Hspec.
  pose proof (evaluate_moves_candidate (solver r) Hwf) as Hcand.
  destruct (evaluate_moves (solver r)) as [[[[v x] mc] de] s'].
  destruct Hspec as [(w & g & ->) _]. destruct Hcand as (_ & _ & Hmc & Hne).
  set (s1 := with_rng g (with_worst_variables_list w (solver r))).
  assert (Hmove : forall g' : Rng.t, mc < DBL_MAX ->
            P3 (solver (read_clock timeout
                          (apply_move v x mc de
                             (on_solver (with_rng g')
                                (mkRun s1 (final_solution r) (elapsed_time r)
                                   (clock r))))))).
  { intros g' Hlt. destruct (Hmc (Hne Hlt)) as (_ & _ & _ & Hat & _).
    destruct (read_clock_solver timeout
                (apply_move v x mc de
                   (on_solver (with_rng g')
                      (mkRun s1 (final_solution r) (elapsed_time r) (clock r)))))
      as [-> _].
    apply apply_move_P3.
    - cbn [solver on_solver]. apply well_formed_with_rng.
      by apply well_formed_with_rng,
        (well_formed_same_model (solver r) (with_worst_variables_list w (solver r))).
    - exact HP3.
    - exact (matrix_row_NoDup (solver r) v Hwf).
    - exact Hat. }
  unfold apply_or_restart. cbn [solver].
  destruct (Z.leb_spec mc 0) as [Hle|Hgt]; [|discriminate].
  assert (Hlt : mc < DBL_MAX) by (unfold DBL_MAX; lia).
  destruct (_ && _).
  - destruct (_ >? _).
    + destruct (if _ >? _ then _ else _). discriminate.
    + destruct (_ =? _); [|discriminate].
      destruct (Rng.uniform_below_tenth _) as [below g'].
      destruct below; discriminate.
  - destruct (mc =? 0).
    + destruct (Rng.uniform_below_tenth _) as [below g'].
      destruct below; [discriminate|]. intros _. cbn [snd].
      exact (Hmove g' Hlt).
    + intros _. cbn [snd]. specialize (Hmove (_rng s1) Hlt).
      replace (on_solver (with_rng (_rng s1))
                 (mkRun s1 (final_solution r) (elapsed_time r) (clock r)))
        with (mkRun s1 (final_solution r) (elapsed_time r) (clock r))
        in Hmove; [exact Hmove|].
      unfold on_solver, s1. cbn. by destruct (solver r).
Qed.

(** ** What [restart] establishes *)

Lemma restart_sampling_shape (s : Solver) :
  exists vs g b,
    (if negb (_no_random_starting_point s)
     then set_initial_configuration 10 s
     else with_no_random_starting_point false s)
    = with_no_random_starting_point b (with_rng g (with_variables vs s))
    /\ _domain <$> vs = _domain <$> _variables s
    /\ (_no_random_starting_point s = true ->
        vs = _variables s /\ g = _rng s /\ b = false).
Proof.
  destruct (_no_random_starting_point s) eqn:Hn; cbn [negb].
  - exists (_variables s), (_rng s), false. split; [by destruct s|done].
  - destruct (set_initial_configuration_shape 10 s) as (vs & g & E & Hd).
    exists vs, g, false. rewrite E. split; [|done].
    destruct s; cbn in *. by rewrite Hn.
Qed.

Lemma restart_content (s : Solver) :
  well_formed s ->
  exists vs g b cs ev,
    restart s
    = with_free_variables true
        (with_error_non_tabu_variables
           (copy_into ev (_error_non_tabu_variables s))
           (with_error_variables ev
              (with_current_sat_error (total (error <$> cs))
                 (with_error_constraints (error <$> cs)
                    (with_constraints cs
                       (with_no_random_starting_point b
                          (with_rng g
                             (with_variables vs
                                (with_weak_tabu_list
                                   (fill 0 (_weak_tabu_list s))
                                   (with_best_sat_error_opt_loop DBL_MAX
                                      (with_best_opt_cost DBL_MAX
                                         (with_best_sat_error DBL_MAX
                                            s))))))))))))
    /\ length cs = _number_constraints s
    /\ (_no_random_starting_point s = true ->
        vs = _variables s /\ g = _rng s /\ b = false).
Proof.
  intros Hwf. unfold restart.
  set (s1 := with_weak_tabu_list _ _).
  destruct (restart_sampling_shape s1) as (vs & g & b & -> & Hd & Hkeep).
  set (s3 := with_error_constraints _ _).
  destruct (broadcast_values_shape s3) as (cs & -> & Hcs).
  set (s4 := with_constraints cs s3).
  assert (Hlen : length cs = _number_constraints s).
  { rewrite <- (wf_constraints _ Hwf).
    apply (f_equal length) in Hcs. unfold scopes in Hcs.
    by rewrite !length_fmap in Hcs. }
  assert (Hlen4 : length (_error_constraints s4) = _number_constraints s4).
  { unfold s4, s3, fill. simpl. rewrite length_replicate.
    apply (wf_error_constraints _ Hwf). }
  rewrite (compute_constraints_errors_content s4 Hlen4).
  assert (Hec : call_error s4 <$> seq 0 (_number_constraints s4) = error <$> cs).
  { change (_number_constraints s4) with (_number_constraints s).
    rewrite <- Hlen. unfold call_error.
    change (_constraints s4) with cs. clear.
    induction cs as [|c cs IH] using rev_ind; [done|].
    rewrite length_app, Nat.add_1_r, seq_S, !fmap_app. cbn [fmap list_fmap].
    f_equal.
    - rewrite <- IH. apply list_fmap_ext. intros i k Hk.
      apply lookup_seq in Hk as [-> Hk]. cbn [Nat.add].
      by rewrite lookup_total_app_l.
    - cbn [Nat.add]. rewrite lookup_total_app_r by lia.
      by rewrite Nat.sub_diag. }
  rewrite Hec.
  set (s7 := with_error_variables _ _).
  destruct (compute_variables_errors_shape s7) as (ev & -> & _).
  exists vs, g, b, cs, ev. split; [|split; [exact Hlen|]].
  - clear Hwf Hd Hkeep Hcs Hlen Hlen4 Hec. subst s7 s4 s3 s1. by destruct s.
  - intros Hn. apply Hkeep. unfold s1. by destruct s.
Qed.

Lemma restart_P3 (s : Solver) : well_formed s -> P3 (restart s).
Proof.
  intros Hwf.
  destruct (restart_content s Hwf) as (vs & g & b & cs & ev & -> & Hlen & _).
  intros i Hi.
  cbn [_constraints _error_constraints _number_constraints
         with_free_variables with_error_non_tabu_variables
         with_error_variables with_current_sat_error with_error_constraints
         with_constraints] in *.
  assert (Hi' : (i < length cs)%nat).
  { rewrite Hlen. by destruct s. }
  destruct (lookup_lt_is_Some_2 cs i Hi') as [c Hc].
  rewrite (list_lookup_total_correct _ _ _ Hc).
  symmetry. apply list_lookup_total_correct.
  by rewrite list_lookup_fmap, Hc.
Qed.

(** X10.  [restart] leaves every [_error_constraints[ i ]] equal to the
    [error()] of constraint [i], and the weak tabu list zeroed. *)
Theorem restart_recomputes_errors (s : Solver) :
  well_formed s ->
  P3 (restart s)
  /\ _weak_tabu_list (restart s)
     = replicate (length (_weak_tabu_list s)) 0.
Proof.
  intros Hwf. split; [by apply restart_P3|].
  destruct (restart_content s Hwf) as (vs & g & b & cs & ev & -> & _).
  by destruct s.
Qed.

(** X11.  The resume feature: with [_no_random_starting_point] set,
    [restart] samples nothing (the variables and the generator are the
    caller's) and clears the flag, so that a later [restart] samples
    again. *)
Theorem restart_keeps_assignment (s : Solver) :
  well_formed s -> _no_random_starting_point s = true ->
  _variables (restart s) = _variables s
  /\ _rng (restart s) = _rng s
  /\ _no_random_starting_point (restart s) = false.
Proof.
  intros Hwf Hn.
  destruct (restart_content s Hwf) as (vs & g & b & cs & ev & -> & _ & Hkeep).
  destruct (Hkeep Hn) as (-> & -> & ->). by destruct s.
Qed.

(** ** The vector of the solution *)

Lemma length_resize (n : nat) (l : list Z) : length (resize n l) = n.
Proof.
  unfold resize. rewrite length_app, length_take, length_replicate. lia.
Qed.


Lemma length_set_values_from (n : nat) (src : list Z) (vars : list Var) :
  length (set_values_from n src vars) = length vars.
Proof.
  unfold set_values_from. generalize (seq 0 n). intros l. revert vars.
  induction l as [|i l IH]; intros vars; [done|].
  cbn [foldl]. rewrite IH. apply length_alter.
Qed.

Lemma alter_middle {A} (f : A -> A) (l1 : list A) (y : A) (l2 : list A) :
  alter f (length l1) (l1 ++ y :: l2) = l1 ++ f y :: l2.
Proof. induction l1 as [|a l1 IH]; [done|]. cbn. f_equal. apply IH. Qed.

Lemma values_set_values_from (n : nat) (src : list Z) (vars : list Var) :
  (n <= length vars)%nat -> (n <= length src)%nat ->
  values (set_values_from n src vars) = take n src ++ drop n (values vars).
Proof.
  unfold set_values_from. induction n as [|n IH]; intros Hv Hs.
  - by rewrite take_0, drop_0.
  - rewrite seq_S, foldl_app. cbn [foldl Nat.add].
    rewrite values_alter_set_value, IH by lia.
    destruct (lookup_lt_is_Some_2 src n ltac:(lia)) as [x Hx].
    rewrite (list_lookup_total_correct _ _ _ Hx), (take_S_r _ _ _ Hx).
    assert (Hlv : (n < length (values vars))%nat).
    { unfold values. rewrite length_fmap. lia. }
    destruct (lookup_lt_is_Some_2 (values vars) n Hlv) as [y Hy].
    rewrite (drop_S _ _ _ Hy).
    assert (Hlt : length (take n src) = n) by (rewrite length_take; lia).
    rewrite <- Hlt at 1. rewrite alter_middle.
    by rewrite <- app_assoc.
Qed.





(** ** Whole runs of [solve] *)


Lemma same_model_variables_length (s s' : Solver) :
  same_model s s' -> length (_variables s') = length (_variables s).
Proof.
  intros Hsm. pose proof (sm_domains _ _ Hsm) as H.
  apply (f_equal length) in H. by rewrite !length_fmap in H.
Qed.


Lemma start_run_solution (fs : list Z) (timeout : Z) (nrs : bool)
    (ck : list Z) (s : Solver) :
  well_formed s ->
  let r := start_run fs timeout nrs ck s in
  final_solution r = resize (_number_variables s) fs
  /\ solver r = restart (with_no_random_starting_point nrs s)
  /\ same_model s (solver r)
  /\ length (final_solution r) = length (_variables (solver r)).
Proof.
  intros Hwf r. unfold r, start_run.
  destruct (read_clock_solver timeout
              (mkRun (restart (with_no_random_starting_point nrs s))
                 (resize (_number_variables
                            (with_no_random_starting_point nrs s)) fs) 0 ck))
    as [-> ->].
  cbn [solver final_solution].
  assert (Hwf' : well_formed (with_no_random_starting_point nrs s)).
  { eapply well_formed_same_model; [exact Hwf|by constructor]. }
  assert (Hsm : same_model s (restart (with_no_random_starting_point nrs s))).
  { eapply same_model_trans; [|by apply restart_same_model]. by constructor. }
  split; [by destruct s|]. split; [done|]. split; [exact Hsm|].
  rewrite length_resize, (same_model_variables_length _ _ Hsm).
  symmetry. replace (_number_variables (with_no_random_starting_point nrs s))
    with (_number_variables s) by (by destruct s).
  apply (wf_variables _ Hwf).
Qed.

Lemma DBL_MAX_positive : 0 < DBL_MAX.
Proof. by vm_compute. Qed.



Lemma loop_heads_tabu (timeout : Z) (fuel k : nat) (r0 r : Run) :
  well_formed (solver r0) -> P1 (solver r0) -> P2 (solver r0) ->
  _weak_tabu_list (solver r0) = replicate k 0 ->
  r ∈ loop_heads fuel timeout r0 ->
  _weak_tabu_list (solver r) = replicate k 0.
Proof.
  revert r0. induction fuel as [|fuel IH]; intros r0 Hwf HP1 HP2 Ht Hin.
  - simpl in Hin. apply list_elem_of_singleton in Hin as ->. done.
  - cbn [loop_heads] in Hin. apply elem_of_cons in Hin as [->|Hin]; [done|].
    destruct (continue_search timeout r0); [|by apply elem_of_nil in Hin].
    destruct (iteration_spec timeout r0 Hwf HP1 HP2)
      as (Hwf' & HP1' & HP2' & _ & mc & Heff).
    apply (IH (iteration timeout r0).2); try done.
    assert (Hfill : fill 0 (_weak_tabu_list (solver r0)) = replicate k 0).
    { unfold fill. by rewrite Ht, length_replicate. }
    destruct ((iteration timeout r0).1); cbn [branch_effect] in Heff.
    + destruct Heff as (_ & _ & ->). done.
    + destruct Heff as (_ & ->). done.
    + destruct Heff as (_ & _ & ->). done.
    + destruct Heff as (_ & ->). done.
    + destruct Heff as (_ & ->). done.
    + destruct Heff as (_ & _ & _ & ->). done.
    + destruct Heff as (_ & ->). done.
Qed.

(** X14.  [solve] never marks a variable tabu: at the head of the loop,
    before every iteration of every run, each counter of the weak tabu list
    is 0. *)
Theorem weak_tabu_list_stays_zero (fs : list Z) (timeout : Z) (nrs : bool)
    (ck : list Z) (fuel : nat) (s : Solver) (r : Run) :
  well_formed s ->
  r ∈ loop_heads fuel timeout (start_run fs timeout nrs ck s) ->
  _weak_tabu_list (solver r) = replicate (length (_weak_tabu_list s)) 0.
Proof.
  intros Hwf Hin.
  destruct (start_run_invariant fs timeout nrs ck s Hwf) as (Hwf0 & HP1 & HP2).
  apply (loop_heads_tabu timeout fuel _ _ r Hwf0 HP1 HP2); [|exact Hin].
  destruct (start_run_solution fs timeout nrs ck s Hwf) as (_ & -> & _).
  assert (Hwf' : well_formed (with_no_random_starting_point nrs s)).
  { eapply well_formed_same_model; [exact Hwf|by constructor]. }
  destruct (restart_shape _ Hwf') as (vs & g & b & cs & ec & ev & ent & -> & _).
  by destruct s.
Qed.

(** * Further properties of the older solver *)

(** ** Tabu list *)

Lemma legacy_decay_loop (done todo : list Z) (free : bool) :
  foldl (fun '(l, free) i =>
           if l !!! i =? 0 then (l, true)
           else (alter (fun t => t - 1) i l, free))
        (done ++ todo, free) (seq (length done) (length todo))
  = (done ++ (legacy_decay <$> todo),
     free || existsb (fun t => t =? 0) todo).
Proof.
  revert done free. induction todo as [|t todo IH]; intros done free.
  - cbn. by rewrite orb_false_r.
  - cbn [length seq foldl].
    assert (Ht : (done ++ t :: todo) !!! length done = t).
    { by rewrite lookup_total_app_r, Nat.sub_diag by lia. }
    rewrite Ht. cbn [fmap list_fmap existsb]. unfold legacy_decay at 1.
    destruct (t =? 0) eqn:E.
    + apply Z.eqb_eq in E. subst t.
      replace (done ++ 0 :: todo) with ((done ++ [0]) ++ todo)
        by (by rewrite <- app_assoc).
      replace (S (length done)) with (length (done ++ [0]))
        by (rewrite length_app; simpl; lia).
      rewrite IH. rewrite <- app_assoc. cbn. by rewrite orb_true_r.
    + rewrite alter_middle.
      replace (done ++ (t - 1) :: todo) with ((done ++ [t - 1]) ++ todo)
        by (by rewrite <- app_assoc).
      replace (S (length done)) with (length (done ++ [t - 1]))
        by (rewrite length_app; simpl; lia).
      rewrite IH. rewrite <- app_assoc. done.
Qed.

Lemma legacy_decay_closed (s : Legacy.Solver) (free : bool) :
  Legacy.decay_weak_tabu_list s free
  = (Legacy.with_weakTabuList (legacy_decay <$> Legacy._weakTabuList s) s,
     free || existsb (fun t => t =? 0) (Legacy._weakTabuList s)).
Proof.
  unfold Legacy.decay_weak_tabu_list.
  pose proof (legacy_decay_loop [] (Legacy._weakTabuList s) free) as H.
  cbn [app length] in H. by rewrite H.
Qed.

(** X15.  On a tabu list whose counters are not negative (they are
    [int]s), the older [decay_weak_tabu_list] decrements every counter that
    is not 0 and keeps the zeros; [freeVariables] is set when some counter
    was 0 before the call and is otherwise left as passed; every counter is
    still a non-negative [int] after its update, so that the [assert] of
    the loop holds at every cell; nothing else changes. *)
Theorem legacy_decay_weak_tabu_list (s : Legacy.Solver) (free : bool) :
  (forall t, t ∈ Legacy._weakTabuList s -> 0 <= t <= INT_MAX) ->
  let r := Legacy.decay_weak_tabu_list s free in
  r.1 = Legacy.with_weakTabuList (legacy_decay <$> Legacy._weakTabuList s) s
  /\ r.2 = free || existsb (fun t => t =? 0) (Legacy._weakTabuList s)
  /\ (forall i t, Legacy._weakTabuList s !! i = Some t ->
        Legacy._weakTabuList r.1 !! i
        = Some (if t =? 0 then 0 else t - 1))
  /\ (forall t, t ∈ Legacy._weakTabuList r.1 -> 0 <= t <= INT_MAX).
Proof.
  intros Hpos. rewrite legacy_decay_closed. cbn [fst snd].
  cbn [Legacy._weakTabuList Legacy.with_weakTabuList].
  split; [done|]. split; [done|]. split.
  - intros i t Hi. rewrite list_lookup_fmap, Hi. cbn. unfold legacy_decay.
    by destruct (Z.eqb_spec t 0) as [->|].
  - intros t (t0 & -> & Hin)%list_elem_of_fmap. specialize (Hpos _ Hin).
    unfold legacy_decay, INT_MAX in *. destruct (Z.eqb_spec t0 0); lia.
Qed.

(** ** Worst variables *)

Lemma filter_none {A} (P : A -> Prop) `{forall x, Decision (P x)} (l : list A) :
  (forall x, x ∈ l -> ~ P x) -> filter P l = [].
Proof.
  induction l as [|a l IH]; intros Hn; [done|].
  rewrite filter_cons_False by (apply Hn; by left).
  apply IH. intros x Hx. apply Hn. by right.
Qed.

Lemma filter_snoc {A} (P : A -> Prop) `{forall x, Decision (P x)} (l : list A)
    (x : A) :
  filter P (l ++ [x]) = filter P l ++ (if decide (P x) then [x] else []).
Proof.
  rewrite filter_app. f_equal.
Qed.

Lemma legacy_worst_loop (s : Legacy.Solver) (free : bool) (cv : list Z)
    (l : list nat) :
  let st :=
    foldl (fun '(worstVariableList, worstVariableCost) p =>
             let v := Legacy._vecVariables s !!! p in
             let id := Legacy.var_slot s v in
             if negb free || (Legacy._weakTabuList s !!! id =? 0) then
               if worstVariableCost <? cv !!! id
               then ([p], cv !!! id)
               else if worstVariableCost =? cv !!! id
                    then (worstVariableList ++ [p], worstVariableCost)
                    else (worstVariableList, worstVariableCost)
             else (worstVariableList, worstVariableCost))
          ([], 0) l in
  0 <= st.2
  /\ (forall q, q ∈ l -> legacy_eligible s free q = true ->
        legacy_cost_of s cv q <= st.2)
  /\ (st.2 = 0 \/ exists q, q ∈ l /\ legacy_eligible s free q = true
                            /\ legacy_cost_of s cv q = st.2)
  /\ st.1 = filter (fun p => legacy_eligible s free p = true
                             /\ legacy_cost_of s cv p = st.2) l.
Proof.
  induction l as [|p l IH] using rev_ind.
  - cbn. split; [lia|]. split; [|split; [by left|done]].
    intros q Hq. by apply elem_of_nil in Hq.
  - rewrite foldl_app. cbn [foldl].
    destruct (foldl _ _ l) as [wl wc]. cbn [fst snd] in IH |- *.
    destruct IH as (Hpos & Hub & Hatt & Hl).
    change (negb free || (Legacy._weakTabuList s
              !!! Legacy.var_slot s (Legacy._vecVariables s !!! p) =? 0))
      with (legacy_eligible s free p).
    change (cv !!! Legacy.var_slot s (Legacy._vecVariables s !!! p))
      with (legacy_cost_of s cv p).
    destruct (legacy_eligible s free p) eqn:He.
    + destruct (Z.ltb_spec wc (legacy_cost_of s cv p)) as [Hlt|Hge];
        [|destruct (Z.eqb_spec wc (legacy_cost_of s cv p)) as [Heq|Hne]];
        cbn [fst snd].
      * split; [lia|]. split; [|split].
        -- intros q [Hq|Hq]%elem_of_app Hel.
           ++ specialize (Hub q Hq Hel). lia.
           ++ apply list_elem_of_singleton in Hq as ->. lia.
        -- right. exists p. split; [apply elem_of_app; right; by left|done].
        -- rewrite filter_snoc, decide_True by done.
           rewrite filter_none; [done|].
           intros q Hq [Hel Hc]. specialize (Hub q Hq Hel). lia.
      * split; [done|]. split; [|split].
        -- intros q [Hq|Hq]%elem_of_app Hel; [by apply Hub|].
           apply list_elem_of_singleton in Hq as ->. lia.
        -- destruct Hatt as [?|(q & Hq & ? & ?)]; [by left|right].
           exists q. split; [apply elem_of_app; by left|done].
        -- rewrite filter_snoc, decide_True by done. by rewrite Hl.
      * split; [done|]. split; [|split].
        -- intros q [Hq|Hq]%elem_of_app Hel; [by apply Hub|].
           apply list_elem_of_singleton in Hq as ->. lia.
        -- destruct Hatt as [?|(q & Hq & ? & ?)]; [by left|right].
           exists q. split; [apply elem_of_app; by left|done].
        -- rewrite filter_snoc, decide_False, app_nil_r; [exact Hl|].
           intros [_ ?]. lia.
    + cbn [fst snd]. split; [done|]. split; [|split].
      * intros q [Hq|Hq]%elem_of_app Hel; [by apply Hub|].
        apply list_elem_of_singleton in Hq as ->. congruence.
      * destruct Hatt as [?|(q & Hq & ? & ?)]; [by left|right].
        exists q. split; [apply elem_of_app; by left|done].
      * rewrite filter_snoc, decide_False, app_nil_r; [exact Hl|].
        intros [? _]. congruence.
Qed.

(** X16.  The older [compute_worst_variables] returns, in the order of
    [_vecVariables] (by increasing position) and without repetition,
    exactly the variables that may be chosen (all of them if
    [freeVariables] is false, those whose tabu counter is 0 otherwise),
    whose cost is not negative and is the greatest among the variables that
    may be chosen. *)
Theorem legacy_compute_worst_variables (s : Legacy.Solver) (free : bool)
    (cv : list Z) :
  NoDup (Legacy.compute_worst_variables s free cv)
  /\ (forall i j p q, (i < j)%nat ->
        Legacy.compute_worst_variables s free cv !! i = Some p ->
        Legacy.compute_worst_variables s free cv !! j = Some q ->
        (p < q)%nat)
  /\ forall p,
       p ∈ Legacy.compute_worst_variables s free cv
       <-> (p < length (Legacy._vecVariables s))%nat
           /\ legacy_eligible s free p = true
           /\ 0 <= legacy_cost_of s cv p
           /\ forall q, (q < length (Legacy._vecVariables s))%nat ->
                legacy_eligible s free q = true ->
                legacy_cost_of s cv q <= legacy_cost_of s cv p.
Proof.
  unfold Legacy.compute_worst_variables.
  pose proof (legacy_worst_loop s free cv
                (seq 0 (length (Legacy._vecVariables s)))) as H.
  cbn zeta in H. destruct H as (Hpos & Hub & Hatt & ->).
  set (wc := (foldl _ _ _).2) in *. clearbody wc.
  split; [apply NoDup_filter, NoDup_seq|].
  split; [intros i j p q Hij; by apply filter_seq_increasing|].
  intros p. rewrite list_elem_of_filter, elem_of_seq. split.
  - intros [[Hel Hc] [_ Hp]]. split; [lia|]. split; [done|].
    split; [lia|]. intros q Hq Hq'. rewrite Hc. apply Hub; [|done].
    apply elem_of_seq. lia.
  - intros (Hp & Hel & Hc & Hmax). split; [|lia]. split; [done|].
    assert (legacy_cost_of s cv p <= wc).
    { apply Hub; [apply elem_of_seq; lia|done]. }
    destruct Hatt as [->|(q & Hq & Hel' & <-)]; [lia|].
    apply elem_of_seq in Hq. specialize (Hmax q ltac:(lia) Hel'). lia.
Qed.

(** ** Simulated moves *)

Lemma legacy_sum_costs_fold (vars : list Var) (z : Z) (l : list Legacy.Constr) :
  foldl (fun acc c => acc + Legacy.cost c vars) z l
  = z + total ((fun c => Legacy.cost c vars) <$> l).
Proof.
  revert z. induction l as [|c l IH]; intros z; cbn; [lia|].
  rewrite IH. unfold total. lia.
Qed.

Lemma legacy_simulated_sum (P : Legacy.Constr -> Prop)
    `{forall c, Decision (P c)} (new old cached : Legacy.Constr -> Z) (z : Z)
    (l : list Legacy.Constr) :
  (forall c, c ∈ l -> cached c = old c) ->
  (forall c, c ∈ l -> ~ P c -> new c = old c) ->
  foldl (fun acc c => acc + (new c - cached c)) z (filter P l)
  = z + total (new <$> l) - total (old <$> l).
Proof.
  revert z. induction l as [|c l IH]; intros z Hcc Hloc; [cbn; lia|].
  destruct (decide (P c)) as [Hc|Hc].
  - rewrite filter_cons_True by done. cbn [foldl fmap list_fmap total foldr].
    rewrite IH; [|intros c' Hc'; apply Hcc; by right
                 |intros c' Hc'; apply Hloc; by right].
    rewrite (Hcc c ltac:(by left)). unfold total. lia.
  - rewrite filter_cons_False by done. cbn [fmap list_fmap total foldr].
    rewrite IH; [|intros c' Hc'; apply Hcc; by right
                 |intros c' Hc'; apply Hloc; by right].
    rewrite (Hloc c ltac:(by left) Hc). unfold total. lia.
Qed.

(** X17.  When the costs are integers small enough for the sums of
    doubles to be exact ([legacy_exact_costs]), [costConstraints] holds the
    cost of every constraint, [currentSatCost] is their sum, and the
    constraints without the variable do not depend on it, the older
    [simulate_local_move_cost] returns the sum of the costs of all the
    constraints on the configuration it leaves (the variable holding the
    simulated value). *)
Theorem legacy_simulate_local_move_cost_exact (B : Z) (s : Legacy.Solver)
    (variable : nat) (value : Z) (cc : list Z) (cur : Z) :
  legacy_exact_costs B s
    (alter (set_value value) variable (Legacy._vecVariables s)) ->
  legacy_costs_cached s cc ->
  cur = Legacy.sum_costs s ->
  legacy_local s variable ->
  let r := Legacy.simulate_local_move_cost s variable value cc cur in
  r.2 = Legacy.sum_costs r.1
  /\ r.1 = Legacy.with_vecVariables
             (alter (set_value value) variable (Legacy._vecVariables s)) s.
Proof.
  intros _ Hcc -> Hloc. unfold Legacy.simulate_local_move_cost.
  cbn [fst snd]. split; [|done].
  set (s' := Legacy.with_vecVariables _ s).
  set (vars' := alter (set_value value) variable (Legacy._vecVariables s)).
  unfold Legacy.sum_costs.
  change (Legacy._vecVariables s') with vars'.
  change (Legacy._vecConstraints s') with (Legacy._vecConstraints s).
  rewrite !legacy_sum_costs_fold.
  assert (Hid : _id (vars' !!! variable)
                = _id (Legacy._vecVariables s !!! variable)).
  { unfold vars'. rewrite list_lookup_total_alter.
    destruct (decide _); [|done]. done. }
  unfold Legacy._mapVarCtr.
  change (Legacy._vecConstraints s') with (Legacy._vecConstraints s).
  rewrite (legacy_simulated_sum _
             (fun c => Legacy.cost c vars')
             (fun c => Legacy.cost c (Legacy._vecVariables s))
             (fun c => cc !!! Legacy.ctr_slot s' c)).
  - lia.
  - intros c Hc. by apply Hcc.
  - intros c Hc Hn. apply Hloc; [done|].
    apply not_true_is_false. intros Hh. apply Hn.
    unfold Legacy.has_variable in *. by rewrite Hid.
Qed.

(** ** Moves *)

Lemma legacy_permutation_loop (s : Legacy.Solver) (variable : nat)
    (cc : list Z) (cur : Z) (l : list nat) :
  (variable < length (Legacy._vecVariables s))%nat ->
  (forall q, q ∈ l -> (q < length (Legacy._vecVariables s))%nat) ->
  let st :=
    foldl (fun '(s, bestCost, bestVarToSwapList) otherVariable =>
             if bool_decide (_id (Legacy._vecVariables s !!! otherVariable)
                             = _id (Legacy._vecVariables s !!! variable))
             then (s, bestCost, bestVarToSwapList)
             else
               let '(s, newCurrentSatCost) :=
                 Legacy.simulate_permutation_cost s variable otherVariable
                   cc cur in
               if bestCost >? newCurrentSatCost
               then (s, newCurrentSatCost, [otherVariable])
               else if bestCost =? newCurrentSatCost
                    then (s, bestCost, bestVarToSwapList ++ [otherVariable])
                    else (s, bestCost, bestVarToSwapList))
          (s, DBL_MAX, []) l in
  st.1.1 = s
  /\ st.1.2 <= DBL_MAX
  /\ (forall q, q ∈ l -> legacy_other s variable q ->
        st.1.2 <= legacy_swap_cost s variable cc cur q)
  /\ st.2 = filter (fun q => legacy_other s variable q
                             /\ legacy_swap_cost s variable cc cur q = st.1.2) l
  /\ (st.2 = [] -> st.1.2 = DBL_MAX).
Proof.
  intros Hv. induction l as [|p l IH] using rev_ind; intros Hl.
  - cbn. split; [done|]. split; [lia|]. split; [|done].
    intros q Hq. by apply elem_of_nil in Hq.
  - rewrite foldl_app. cbn [foldl].
    destruct IH as (Hs & Hfin & Hub & Hlst & Hnil).
    { intros q Hq. apply Hl, elem_of_app. by left. }
    destruct (foldl _ _ l) as [[s0 best] lst]. cbn [fst snd] in *. subst s0.
    assert (Hp : (p < length (Legacy._vecVariables s))%nat).
    { apply Hl, elem_of_app. right. by left. }
    destruct (bool_decide_reflect
                (_id (Legacy._vecVariables s !!! p)
                 = _id (Legacy._vecVariables s !!! variable))) as [Heq|Hne].
    + cbn [fst snd]. split; [done|]. split; [done|]. split; [|split; [|done]].
      * intros q [Hq|Hq]%elem_of_app Ho; [by apply Hub|].
        apply list_elem_of_singleton in Hq as ->. by destruct Ho.
      * rewrite filter_snoc, decide_False, app_nil_r; [exact Hlst|].
        intros [Ho _]. by destruct Ho.
    + destruct (legacy_simulate_permutation_cost_variables s variable p cc cur)
        as [_ Hs1].
      rewrite swap_index_value_involutive in Hs1 by done.
      assert (Hnew : (Legacy.simulate_permutation_cost s variable p cc cur).2
                     = legacy_swap_cost s variable cc cur p) by done.
      destruct (Legacy.simulate_permutation_cost s variable p cc cur)
        as [s1 new]. cbn [fst snd] in Hs1, Hnew. subst new.
      assert (s1 = s) as -> by (rewrite Hs1; by destruct s).
      set (new := legacy_swap_cost s variable cc cur p) in *.
      assert (Ho : legacy_other s variable p) by exact Hne.
      destruct (Z.gtb_spec best new) as [Hgt|Hle];
        [|destruct (Z.eqb_spec best new) as [Hbn|Hbn]]; cbn [fst snd].
      * split; [done|]. split; [lia|]. split; [|split; [|done]].
        -- intros q [Hq|Hq]%elem_of_app Hoq.
           ++ specialize (Hub q Hq Hoq). lia.
           ++ apply list_elem_of_singleton in Hq as ->. fold new. lia.
        -- rewrite filter_snoc, decide_True by done.
           rewrite filter_none; [done|].
           intros q Hq [Hoq Hc]. specialize (Hub q Hq Hoq). lia.
      * split; [done|]. split; [done|]. split; [|split].
        -- intros q [Hq|Hq]%elem_of_app Hoq; [by apply Hub|].
           apply list_elem_of_singleton in Hq as ->. fold new. lia.
        -- rewrite filter_snoc, decide_True by done. by rewrite Hlst.
        -- intros E. by apply app_eq_nil in E as [_ ?].
      * split; [done|]. split; [done|]. split; [|split; [|done]].
        -- intros q [Hq|Hq]%elem_of_app Hoq; [by apply Hub|].
           apply list_elem_of_singleton in Hq as ->. fold new. lia.
        -- rewrite filter_snoc, decide_False, app_nil_r; [exact Hlst|].
           intros [_ ?]. done.
Qed.

(** X18.  The older [permutation_move] simulates the swap of the variable
    with every other variable and sets [currentSatCost] to the least of the
    simulated costs (the greatest double if none is below it); when some
    swap was simulated with a cost that a double can hold, the variable is
    swapped with a variable of least simulated cost.  The move is a swap:
    the (index, value) pairs held by the variables are permuted, the ids
    are kept, and only the variables and the generator change. *)
Theorem legacy_permutation_move_least (s : Legacy.Solver) (variable : nat)
    (cc : list Z) (cur : Z) :
  (variable < length (Legacy._vecVariables s))%nat ->
  let r := Legacy.permutation_move s variable cc cur in
  r.2 <= DBL_MAX
  /\ (forall q, (q < length (Legacy._vecVariables s))%nat ->
        legacy_other s variable q ->
        r.2 <= legacy_swap_cost s variable cc cur q)
  /\ exists b g,
       r.1 = Legacy.with_rng g
               (Legacy.with_vecVariables
                  (swap_index_value variable b (Legacy._vecVariables s)) s)
       /\ _id <$> Legacy._vecVariables r.1 = _id <$> Legacy._vecVariables s
       /\ ((exists q, (q < length (Legacy._vecVariables s))%nat
                      /\ legacy_other s variable q
                      /\ legacy_swap_cost s variable cc cur q <= DBL_MAX) ->
           (b < length (Legacy._vecVariables s))%nat
           /\ legacy_other s variable b
           /\ legacy_swap_cost s variable cc cur b = r.2
           /\ Permutation (pairs (Legacy._vecVariables r.1))
                          (pairs (Legacy._vecVariables s))).
Proof.
  intros Hv. unfold Legacy.permutation_move.
  pose proof (legacy_permutation_loop s variable cc cur
                (seq 0 (length (Legacy._vecVariables s))) Hv) as H.
  cbn zeta in H. destruct H as (Hs & Hfin & Hub & Hlst & Hnil).
  { intros q Hq. apply elem_of_seq in Hq. lia. }
  destruct (foldl _ _ _) as [[s0 best] lst]. cbn [fst snd] in *. subst s0.
  set (choice := if (1 <? length lst)%nat
                 then ObjectiveImpl.expert_heuristic_variable lst
                        (Legacy._rng s)
                 else (lst !!! 0%nat, Legacy._rng s)).
  assert (Hchoice : lst <> [] -> choice.1 ∈ lst).
  { intros Hne. unfold choice. destruct (1 <? length lst)%nat.
    - by apply pick_elem.
    - cbn [fst]. apply list_elem_of_lookup_total_2.
      destruct lst; [done|simpl; lia]. }
  destruct choice as [b g]. cbn [fst snd] in *.
  split; [done|]. split.
  { intros q Hq Ho. apply Hub; [|done]. apply elem_of_seq. lia. }
  exists b, g. split; [done|]. split.
  { cbn [Legacy._vecVariables Legacy.with_rng Legacy.with_vecVariables].
    apply ids_swap_index_value. }
  intros (q & Hq & Ho & Hc).
  assert (Hne : lst <> []).
  { intros E. specialize (Hnil E). subst best.
    assert (Hin : q ∈ lst).
    { rewrite Hlst. apply list_elem_of_filter. split.
      - split; [done|]. specialize (Hub q ltac:(apply elem_of_seq; lia) Ho).
        lia.
      - apply elem_of_seq. lia. }
    rewrite E in Hin. by apply elem_of_nil in Hin. }
  specialize (Hchoice Hne). rewrite Hlst in Hchoice.
  apply list_elem_of_filter in Hchoice as [[Hob Hcb] Hb].
  apply elem_of_seq in Hb.
  split; [lia|]. split; [done|]. split; [done|].
  cbn [Legacy._vecVariables Legacy.with_rng Legacy.with_vecVariables].
  rewrite pairs_swap_index_value by lia.
  apply Permutation_insert_swap; unfold pairs; rewrite length_fmap; lia.
Qed.

Lemma legacy_simulate_from (s : Legacy.Solver) (vs : list Var)
    (variable : nat) (x : Z) (cc : list Z) (cur : Z) :
  alter (set_value x) variable vs
  = alter (set_value x) variable (Legacy._vecVariables s) ->
  Legacy.simulate_local_move_cost (Legacy.with_vecVariables vs s) variable x
    cc cur
  = (Legacy.with_vecVariables
       (alter (set_value x) variable (Legacy._vecVariables s)) s,
     legacy_move_cost s variable cc cur x).
Proof.
  intros E. unfold legacy_move_cost, Legacy.simulate_local_move_cost.
  cbn [fst snd Legacy._vecVariables Legacy.with_vecVariables
         Legacy._vecConstraints Legacy._objective Legacy._weakTabuList
         Legacy._isOptimization Legacy._permutationProblem
         Legacy._number_variables Legacy._varOffset Legacy._ctrOffset
         Legacy._bestSatCost Legacy._bestSatCostOptLoop Legacy._bestOptCost
         Legacy._rng].
  rewrite E. reflexivity.
Qed.

Lemma legacy_local_loop (s : Legacy.Solver) (variable : nat)
    (cc : list Z) (cur : Z) (l : list Z) :
  let st :=
    foldl (fun '(s, bestCost, bestValuesList) val =>
             let '(s, newCurrentSatCost) :=
               Legacy.simulate_local_move_cost s variable val cc cur in
             if bestCost >? newCurrentSatCost then (s, newCurrentSatCost, [val])
             else if bestCost =? newCurrentSatCost
                  then (s, bestCost, bestValuesList ++ [val])
                  else (s, bestCost, bestValuesList))
          (s, DBL_MAX, []) l in
  (exists vs, st.1.1 = Legacy.with_vecVariables vs s
              /\ forall x, alter (set_value x) variable vs
                           = alter (set_value x) variable
                               (Legacy._vecVariables s))
  /\ st.1.2 <= DBL_MAX
  /\ (forall x, x ∈ l -> st.1.2 <= legacy_move_cost s variable cc cur x)
  /\ st.2 = filter (fun x => legacy_move_cost s variable cc cur x = st.1.2) l
  /\ (st.2 = [] -> st.1.2 = DBL_MAX).
Proof.
  induction l as [|v l IH] using rev_ind.
  - cbn. split.
    { exists (Legacy._vecVariables s). split; [by destruct s|done]. }
    split; [lia|]. split; [|done].
    intros q Hq. by apply elem_of_nil in Hq.
  - rewrite foldl_app. cbn [foldl].
    destruct (foldl _ _ l) as [[s0 best] lst]. cbn [fst snd] in *.
    destruct IH as ((vs & -> & Hvs) & Hfin & Hub & Hlst & Hnil).
    rewrite (legacy_simulate_from s vs variable v cc cur (Hvs v)).
    set (new := legacy_move_cost s variable cc cur v).
    assert (Hstate : exists vs0,
               Legacy.with_vecVariables
                 (alter (set_value v) variable (Legacy._vecVariables s)) s
               = Legacy.with_vecVariables vs0 s
               /\ forall x, alter (set_value x) variable vs0
                            = alter (set_value x) variable
                                (Legacy._vecVariables s)).
    { eexists. split; [done|]. intros x. apply alter_set_value_twice. }
    destruct (Z.gtb_spec best new) as [Hgt|Hle];
      [|destruct (Z.eqb_spec best new) as [Hbn|Hbn]]; cbn [fst snd].
    + split; [done|]. split; [lia|]. split; [|split; [|done]].
      * intros q [Hq|Hq]%elem_of_app.
        -- specialize (Hub q Hq). lia.
        -- apply list_elem_of_singleton in Hq as ->. fold new. lia.
      * rewrite filter_snoc, decide_True by done.
        rewrite filter_none; [done|].
        intros q Hq Hc. specialize (Hub q Hq). lia.
    + split; [done|]. split; [done|]. split; [|split].
      * intros q [Hq|Hq]%elem_of_app; [by apply Hub|].
        apply list_elem_of_singleton in Hq as ->. fold new. lia.
      * rewrite filter_snoc, decide_True by done. by rewrite Hlst.
      * intros E. by apply app_eq_nil in E as [_ ?].
    + split; [done|]. split; [done|]. split; [|split; [|done]].
      * intros q [Hq|Hq]%elem_of_app; [by apply Hub|].
        apply list_elem_of_singleton in Hq as ->. fold new. lia.
      * rewrite filter_snoc, decide_False, app_nil_r; [exact Hlst|]. done.
Qed.

(** X19.  The older [local_move] simulates every value of the domain of
    the variable and sets [currentSatCost] to the least of the simulated
    costs; with an objective whose costs a double can hold, the variable
    ends with a value of its domain of least simulated cost when some
    simulated cost is not above the greatest double.  Only this variable
    (and the generator) changes. *)
Theorem legacy_local_move_least (s : Legacy.Solver) (variable : nat)
    (cc : list Z) (cur : Z) :
  (forall vs, Legacy._objective s vs <= DBL_MAX) ->
  let dom := _domain (Legacy._vecVariables s !!! variable) in
  let r := Legacy.local_move s variable cc cur in
  r.2 <= DBL_MAX
  /\ (forall x, x ∈ dom -> r.2 <= legacy_move_cost s variable cc cur x)
  /\ exists x g,
       r.1 = Legacy.with_rng g
               (Legacy.with_vecVariables
                  (alter (set_value x) variable (Legacy._vecVariables s)) s)
       /\ ((exists y, y ∈ dom
                      /\ legacy_move_cost s variable cc cur y <= DBL_MAX) ->
           x ∈ dom /\ legacy_move_cost s variable cc cur x = r.2).
Proof.
  intros Hobj dom r. unfold r, Legacy.local_move. fold dom.
  pose proof (legacy_local_loop s variable cc cur dom) as H.
  cbn zeta in H. destruct H as ((vs & Hs & Hvs) & Hfin & Hub & Hlst & Hnil).
  destruct (foldl _ _ dom) as [[s0 best] lst]. cbn [fst snd] in *. subst s0.
  assert (Hne : (exists y, y ∈ dom
                   /\ legacy_move_cost s variable cc cur y <= DBL_MAX) ->
                lst <> []).
  { intros (y & Hy & Hc) E. specialize (Hnil E). subst best.
    assert (Hin : y ∈ lst).
    { rewrite Hlst. apply list_elem_of_filter. split; [|done].
      specialize (Hub y Hy). lia. }
    rewrite E in Hin. by apply elem_of_nil in Hin. }
  assert (Hsel : forall x, x ∈ lst ->
            x ∈ dom /\ legacy_move_cost s variable cc cur x = best).
  { intros x Hx. rewrite Hlst in Hx.
    by apply list_elem_of_filter in Hx as [? ?]. }
  destruct (1 <? length lst)%nat eqn:Hlen.
  - unfold Legacy.heuristic_value, ObjectiveImpl.expert_heuristic_value.
    cbn [Legacy._objective Legacy._vecVariables Legacy._rng
           Legacy.with_vecVariables].
    pose proof (rescore_rescored (Legacy._objective s) variable vs lst Hobj)
      as Hres.
    destruct (ObjectiveImpl.rescore (Legacy._objective s) variable lst vs)
      as [[vars minCost] bestValues].
    destruct Hres as (Hvars & _ & Hbest & _ & Hbne & _).
    pose proof (pick_elem bestValues (Legacy._rng s)) as Hpick.
    destruct (Rng.pick bestValues (Legacy._rng s)) as [x g].
    cbn [fst snd] in *.
    split; [done|]. split; [exact Hub|]. exists x, g. split.
    + cbn [Legacy._vecVariables Legacy.with_rng Legacy.with_vecVariables].
      rewrite alter_set_value_twice, Hvars, Hvs. by destruct s.
    + intros Hex. apply Hsel.
      assert (Hl : lst <> []) by (by apply Hne).
      by apply Hbest, Hpick, Hbne.
  - cbn [fst snd Legacy._vecVariables Legacy.with_vecVariables].
    split; [done|]. split; [exact Hub|].
    exists (lst !!! 0%nat), (Legacy._rng s). split.
    + rewrite Hvs. by destruct s.
    + intros Hex. apply Hsel. apply list_elem_of_lookup_total_2.
      specialize (Hne Hex). destruct lst; [done|simpl; lia].
Qed.

(** ** One turn of the satisfaction loop *)

Lemma ids_alter_set_value (x : Z) (i : nat) (l : list Var) :
  _id <$> alter (set_value x) i l = _id <$> l.
Proof.
  revert i. induction l as [|v l IH]; intros [|i]; cbn; try done.
  f_equal. apply IH.
Qed.

Lemma ids_lookup_total (l l' : list Var) (i : nat) :
  _id <$> l' = _id <$> l -> _id (l' !!! i) = _id (l !!! i).
Proof.
  intros E. rewrite !list_lookup_total_alt.
  assert (H : (_id <$> l') !! i = (_id <$> l) !! i) by (by rewrite E).
  rewrite !list_lookup_fmap in H.
  destruct (l' !! i), (l !! i); cbn in *; congruence.
Qed.

Lemma ids_rescore (cost : list Var -> Z) (var : nat) (possible : list Z)
    (vars : list Var) :
  _id <$> (ObjectiveImpl.rescore cost var possible vars).1.1 = _id <$> vars.
Proof.
  unfold ObjectiveImpl.rescore.
  induction possible as [|v l IH] using rev_ind; [done|].
  rewrite foldl_app. cbn [foldl].
  destruct (foldl _ _ l) as [[vs m] b]. cbn [fst] in IH.
  destruct (_ >? _); [|destruct (_ =? _)]; cbn [fst];
    by rewrite ids_alter_set_value.
Qed.

Lemma legacy_local_move_shape (s : Legacy.Solver) (variable : nat)
    (cc : list Z) (cur : Z) :
  exists vars g,
    (Legacy.local_move s variable cc cur).1
    = Legacy.with_rng g (Legacy.with_vecVariables vars s)
    /\ _id <$> vars = _id <$> Legacy._vecVariables s.
Proof.
  unfold Legacy.local_move.
  pose proof (legacy_local_loop s variable cc cur
                (_domain (Legacy._vecVariables s !!! variable))) as H.
  cbn zeta in H. destruct H as ((vs & Hs & Hvs) & _).
  destruct (foldl _ _ _) as [[s0 best] lst]. cbn [fst snd] in *. subst s0.
  assert (Hids : _id <$> vs = _id <$> Legacy._vecVariables s).
  { rewrite <- (ids_alter_set_value 0 variable vs), Hvs.
    apply ids_alter_set_value. }
  destruct (1 <? length lst)%nat.
  - unfold Legacy.heuristic_value, ObjectiveImpl.expert_heuristic_value.
    cbn [Legacy._objective Legacy._vecVariables Legacy._rng
           Legacy.with_vecVariables].
    pose proof (ids_rescore (Legacy._objective s) variable lst vs) as Hres.
    destruct (ObjectiveImpl.rescore (Legacy._objective s) variable lst vs)
      as [[vars minCost] bestValues].
    destruct (Rng.pick bestValues (Legacy._rng s)) as [x g].
    cbn [fst snd] in *.
    exists (alter (set_value x) variable
              (alter (set_value (get_value (vs !!! variable))) variable vars)),
      g.
    split.
    + cbn [Legacy._vecVariables Legacy.with_rng Legacy.with_vecVariables].
      by destruct s.
    + by rewrite !ids_alter_set_value, Hres.
  - cbn [fst snd Legacy._vecVariables Legacy.with_vecVariables].
    exists (alter (set_value (lst !!! 0%nat)) variable vs), (Legacy._rng s).
    split; [by destruct s|].
    by rewrite ids_alter_set_value.
Qed.

Lemma legacy_permutation_loop_shape (s : Legacy.Solver) (variable : nat)
    (cc : list Z) (cur : Z) (l : list nat) (vs : list Var) (best : Z)
    (lst : list nat) :
  _id <$> vs = _id <$> Legacy._vecVariables s ->
  exists vs',
    (foldl (fun '(s, bestCost, bestVarToSwapList) otherVariable =>
              if bool_decide (_id (Legacy._vecVariables s !!! otherVariable)
                              = _id (Legacy._vecVariables s !!! variable))
              then (s, bestCost, bestVarToSwapList)
              else
                let '(s, newCurrentSatCost) :=
                  Legacy.simulate_permutation_cost s variable otherVariable
                    cc cur in
                if bestCost >? newCurrentSatCost
                then (s, newCurrentSatCost, [otherVariable])
                else if bestCost =? newCurrentSatCost
                     then (s, bestCost, bestVarToSwapList ++ [otherVariable])
                     else (s, bestCost, bestVarToSwapList))
           (Legacy.with_vecVariables vs s, best, lst) l).1.1
    = Legacy.with_vecVariables vs' s
    /\ _id <$> vs' = _id <$> Legacy._vecVariables s.
Proof.
  revert vs best lst. induction l as [|p l IH]; intros vs best lst Hids.
  - by exists vs.
  - cbn [foldl]. destruct (bool_decide _); [by apply IH|].
    destruct (legacy_simulate_permutation_cost_variables
                (Legacy.with_vecVariables vs s) variable p cc cur) as [_ Hs1].
    destruct (Legacy.simulate_permutation_cost
                (Legacy.with_vecVariables vs s) variable p cc cur)
      as [s1 new]. cbn [fst] in Hs1. subst s1.
    cbn [Legacy._vecVariables Legacy.with_vecVariables].
    set (vs1 := swap_index_value variable p (swap_index_value variable p vs)).
    assert (E : Legacy.with_vecVariables vs1 (Legacy.with_vecVariables vs s)
                = Legacy.with_vecVariables vs1 s) by (by destruct s).
    rewrite E.
    assert (Hids1 : _id <$> vs1 = _id <$> Legacy._vecVariables s).
    { unfold vs1. by rewrite !ids_swap_index_value. }
    destruct (_ >? _); [|destruct (_ =? _)]; by apply IH.
Qed.

Lemma legacy_permutation_move_shape (s : Legacy.Solver) (variable : nat)
    (cc : list Z) (cur : Z) :
  exists vars g,
    (Legacy.permutation_move s variable cc cur).1
    = Legacy.with_rng g (Legacy.with_vecVariables vars s)
    /\ _id <$> vars = _id <$> Legacy._vecVariables s.
Proof.
  unfold Legacy.permutation_move.
  pose proof (legacy_permutation_loop_shape s variable cc cur
                (seq 0 (length (Legacy._vecVariables s)))
                (Legacy._vecVariables s) DBL_MAX [] eq_refl) as H.
  replace (Legacy.with_vecVariables (Legacy._vecVariables s) s) with s in H
    by (by destruct s).
  destruct H as (vs & Hs & Hids).
  destruct (foldl _ _ _) as [[s0 best] lst]. cbn [fst snd] in *. subst s0.
  destruct (if (1 <? length lst)%nat then _ else _) as [b g].
  cbn [fst]. exists (swap_index_value variable b vs), g. split.
  - cbn [Legacy._vecVariables Legacy.with_vecVariables]. by destruct s.
  - by rewrite ids_swap_index_value.
Qed.

(** X20.  Every turn of the satisfaction loop of the older solver makes
    tabu the variable it has moved, and this one only: after the turn the
    counter of this variable is [tabuTimeSelected] if the turn has improved
    [_bestSatCostOptLoop], [tabuTimeLocalMin] otherwise, both being at
    least 1, and every other counter has decayed by one step. *)
Theorem legacy_turn_freezes_moved_variable (s : Legacy.Solver)
    (finalSolution : list Z) :
  let '(s', _, worstVariable, currentSatCost) :=
    Legacy.satisfaction_turn s finalSolution in
  let slot := Legacy.var_slot s (Legacy._vecVariables s !!! worstVariable) in
  (slot < length (Legacy._weakTabuList s))%nat ->
  Legacy._weakTabuList s' !!! slot
  = (if Legacy._bestSatCostOptLoop s >? currentSatCost
     then Legacy.tabuTimeSelected s else Legacy.tabuTimeLocalMin s)
  /\ 1 <= Legacy._weakTabuList s' !!! slot
  /\ (forall i, i <> slot ->
        Legacy._weakTabuList s' !! i
        = legacy_decay <$> Legacy._weakTabuList s !! i)
  /\ _id <$> Legacy._vecVariables s' = _id <$> Legacy._vecVariables s.
Proof.
  unfold Legacy.satisfaction_turn.
  destruct (Legacy.compute_constraints_costs s _) as [cc cur].
  destruct (Legacy.compute_variables_costs s cc _ _) as [cv cnt].
  rewrite legacy_decay_closed.
  set (s1 := Legacy.with_weakTabuList _ s).
  set (free := false || _).
  destruct (if (1 <? length (Legacy.compute_worst_variables s1 free cv))%nat
            then _ else _) as [w g].
  set (s2 := Legacy.with_rng g s1).
  assert (Hmove : exists vars g' c,
             (if Legacy._permutationProblem s2
              then Legacy.permutation_move s2 w cc cur
              else Legacy.local_move s2 w cc cur)
             = (Legacy.with_rng g' (Legacy.with_vecVariables vars s2), c)
             /\ _id <$> vars = _id <$> Legacy._vecVariables s).
  { destruct (Legacy._permutationProblem s2).
    - destruct (legacy_permutation_move_shape s2 w cc cur)
        as (vars & g' & E & Hids).
      destruct (Legacy.permutation_move s2 w cc cur) as [s3 c].
      cbn [fst] in E. subst s3. by exists vars, g', c.
    - destruct (legacy_local_move_shape s2 w cc cur)
        as (vars & g' & E & Hids).
      destruct (Legacy.local_move s2 w cc cur) as [s3 c].
      cbn [fst] in E. subst s3. by exists vars, g', c. }
  destruct Hmove as (vars & g' & c & -> & Hids).
  set (s3 := Legacy.with_rng g' (Legacy.with_vecVariables vars s2)).
  assert (Hslot : Legacy.var_slot s3 (Legacy._vecVariables s3 !!! w)
                  = Legacy.var_slot s (Legacy._vecVariables s !!! w)).
  { unfold Legacy.var_slot.
    change (Legacy._vecVariables s3) with vars.
    change (Legacy._varOffset s3) with (Legacy._varOffset s).
    by rewrite (ids_lookup_total _ _ w Hids). }
  rewrite Hslot.
  set (slot := Legacy.var_slot s (Legacy._vecVariables s !!! w)).
  change (Legacy._bestSatCostOptLoop s3) with (Legacy._bestSatCostOptLoop s).
  assert (Htimes : 1 <= Legacy.tabuTimeSelected s
                   /\ 1 <= Legacy.tabuTimeLocalMin s).
  { unfold Legacy.tabuTimeSelected, Legacy.tabuTimeLocalMin. lia. }
  assert (Hlook : forall (T : Z) (i : nat), i <> slot ->
            <[slot := T]> (legacy_decay <$> Legacy._weakTabuList s) !! i
            = legacy_decay <$> Legacy._weakTabuList s !! i).
  { intros T i Hi. rewrite list_lookup_insert_ne by done.
    by rewrite list_lookup_fmap. }
  assert (Hat : forall T : Z, (slot < length (Legacy._weakTabuList s))%nat ->
            <[slot := T]> (legacy_decay <$> Legacy._weakTabuList s) !!! slot = T).
  { intros T Hs. apply list_lookup_total_insert_eq. by rewrite length_fmap. }
  destruct (Legacy._bestSatCostOptLoop s >? c) eqn:Himp.
  - set (s4 := Legacy.with_bestSatCostOptLoop c s3).
    destruct ((Legacy._bestSatCost s4 >=? Legacy._bestSatCostOptLoop s4)
              && (Legacy._bestSatCost s4 >? 0));
      match goal with
      | |- context [if ?b then _ else _] => destruct b
      end;
      intros Hs;
      cbn [Legacy._weakTabuList Legacy.with_weakTabuList
             Legacy.with_bestSatCost Legacy.with_bestSatCostOptLoop
             Legacy._vecVariables];
      rewrite Himp;
      (split; [by apply Hat|]); (split; [rewrite Hat by done; tauto|]);
      (split; [by apply Hlook|exact Hids]).
  - match goal with
    | |- context [if ?b then _ else _] => destruct b
    end;
    intros Hs;
    cbn [Legacy._weakTabuList Legacy.with_weakTabuList
           Legacy.with_bestSatCost Legacy.with_bestSatCostOptLoop
           Legacy._vecVariables];
    rewrite Himp;
    (split; [by apply Hat|]); (split; [rewrite Hat by done; tauto|]);
    (split; [by apply Hlook|exact Hids]).
Qed.

(** * The tie-break of the older objective *)

Lemma heuristicValue_scan (costs helper : list Z) (est val : Z) (n : nat) :
  (n <= length costs)%nat -> (length costs <= length helper)%nat ->
  exists st,
    foldl (OldObjective.heuristicValue_turn costs helper)
          (Some (OldObjective.mkScan 0 OldObjective.INT_MAX est val))
          (seq 0 n) = Some st
    /\ OldObjective.bestEstimatedCost st <= est
    /\ (forall j c, (j < n)%nat -> costs !! j = Some c ->
          OldObjective.bestEstimatedCost st <= c)
    /\ ((OldObjective.bestEstimatedCost st = est
         /\ OldObjective.best st = 0%nat
         /\ OldObjective.bestValue st = val
         /\ OldObjective.bestHelp st = OldObjective.INT_MAX)
        \/ ((OldObjective.best st < n)%nat
            /\ costs !! OldObjective.best st
               = Some (OldObjective.bestEstimatedCost st)
            /\ OldObjective.bestValue st
               = Z.of_nat (OldObjective.best st) - 1
            /\ ((forall h, h ∈ helper -> h = OldObjective.INT_MAX) ->
                OldObjective.bestHelp st = OldObjective.INT_MAX
                /\ forall j c, (j < OldObjective.best st)%nat ->
                     costs !! j = Some c ->
                     OldObjective.bestEstimatedCost st < c))).
Proof.
  intros Hn Hlen. induction n as [|n IH].
  - eexists. split; [done|]. cbn. split; [lia|]. split; [intros; lia|].
    by left.
  - destruct IH as (st & Hst & Hle & Hub & Hcase); [lia|].
    rewrite seq_S, foldl_app, Hst. cbn [foldl Nat.add].
    destruct (lookup_lt_is_Some_2 costs n ltac:(lia)) as [c Hc].
    destruct (lookup_lt_is_Some_2 helper n ltac:(lia)) as [h Hh].
    unfold OldObjective.heuristicValue_turn.
    rewrite (list_lookup_total_correct _ _ _ Hc), Hh.
    assert (Hprev : forall j c', (j < S n)%nat -> costs !! j = Some c' ->
              (j < n)%nat \/ (j = n /\ c' = c)).
    { intros j c' Hj Hjc. destruct (decide (j = n)) as [->|]; [|left; lia].
      right. split; [done|congruence]. }
    assert (Henter :
      (c < OldObjective.bestEstimatedCost st
       \/ (c = OldObjective.bestEstimatedCost st
           /\ (n = 0%nat \/ h < OldObjective.bestHelp st))) ->
      let st' := OldObjective.mkScan n
                   (if h <? OldObjective.bestHelp st then h
                    else OldObjective.bestHelp st) c (Z.of_nat n - 1) in
      OldObjective.bestEstimatedCost st' <= est
      /\ (forall j c', (j < S n)%nat -> costs !! j = Some c' ->
            OldObjective.bestEstimatedCost st' <= c')
      /\ ((OldObjective.bestEstimatedCost st' = est
           /\ OldObjective.best st' = 0%nat
           /\ OldObjective.bestValue st' = val
           /\ OldObjective.bestHelp st' = OldObjective.INT_MAX)
          \/ ((OldObjective.best st' < S n)%nat
              /\ costs !! OldObjective.best st'
                 = Some (OldObjective.bestEstimatedCost st')
              /\ OldObjective.bestValue st'
                 = Z.of_nat (OldObjective.best st') - 1
              /\ ((forall h, h ∈ helper -> h = OldObjective.INT_MAX) ->
                  OldObjective.bestHelp st' = OldObjective.INT_MAX
                  /\ forall j c', (j < OldObjective.best st')%nat ->
                       costs !! j = Some c' ->
                       OldObjective.bestEstimatedCost st' < c')))).
    { intros Hwhy st'. cbn [OldObjective.bestEstimatedCost
        OldObjective.best OldObjective.bestValue OldObjective.bestHelp st'].
      split; [destruct Hwhy as [?|[-> _]]; lia|]. split.
      - intros j c' Hj Hjc. destruct (Hprev j c' Hj Hjc) as [Hlt|[-> ->]];
          [|lia].
        specialize (Hub j c' Hlt Hjc). destruct Hwhy as [?|[-> _]]; lia.
      - right. split; [lia|]. split; [done|]. split; [done|].
        intros Hfresh.
        assert (Hh' : h = OldObjective.INT_MAX).
        { apply Hfresh. by eapply list_elem_of_lookup_2. }
        assert (Hbh : OldObjective.bestHelp st = OldObjective.INT_MAX).
        { destruct Hcase as [(_ & _ & _ & ?)|(_ & _ & _ & Hf)]; [done|].
          by destruct (Hf Hfresh). }
        split; [rewrite Hbh, Hh'; by destruct (_ <? _)|].
        intros j c' Hj Hjc. specialize (Hub j c' Hj Hjc).
        destruct Hwhy as [?|[_ [->|Hlt]]]; [lia|lia|].
        rewrite Hbh, Hh' in Hlt. lia. }
    assert (Hkeep :
      OldObjective.bestEstimatedCost st <= c ->
      OldObjective.bestEstimatedCost st <= est
      /\ (forall j c', (j < S n)%nat -> costs !! j = Some c' ->
            OldObjective.bestEstimatedCost st <= c')
      /\ ((OldObjective.bestEstimatedCost st = est
           /\ OldObjective.best st = 0%nat
           /\ OldObjective.bestValue st = val
           /\ OldObjective.bestHelp st = OldObjective.INT_MAX)
          \/ ((OldObjective.best st < S n)%nat
              /\ costs !! OldObjective.best st
                 = Some (OldObjective.bestEstimatedCost st)
              /\ OldObjective.bestValue st
                 = Z.of_nat (OldObjective.best st) - 1
              /\ ((forall h, h ∈ helper -> h = OldObjective.INT_MAX) ->
                  OldObjective.bestHelp st = OldObjective.INT_MAX
                  /\ forall j c', (j < OldObjective.best st)%nat ->
                       costs !! j = Some c' ->
                       OldObjective.bestEstimatedCost st < c')))).
    { intros Hc'. split; [done|]. split.
      - intros j c' Hj Hjc. destruct (Hprev j c' Hj Hjc) as [Hlt|[-> ->]];
          [by eapply Hub|done].
      - destruct Hcase as [?|(? & ? & ? & ?)]; [by left|right].
        split; [lia|done]. }
    destruct (Z.ltb_spec c (OldObjective.bestEstimatedCost st)) as [Hlt|Hge].
    { eexists. split; [done|]. apply Henter; by left. }
    destruct (Z.eqb_spec c (OldObjective.bestEstimatedCost st)) as [Heq|Hne];
      cbn [andb].
    + destruct (c <? OldObjective.INT_MAX).
      * destruct (Nat.eqb_spec n 0) as [Hz|Hnz].
        { eexists. split; [done|]. apply Henter. right.
          split; [done|by left]. }
        destruct (Z.ltb_spec h (OldObjective.bestHelp st)) as [Hh'|Hh'].
        { eexists. split; [done|]. apply Henter. right.
          split; [done|by right]. }
        eexists. split; [done|]. apply Hkeep. lia.
      * eexists. split; [done|]. apply Hkeep. lia.
    + eexists. split; [done|]. apply Hkeep. lia.
Qed.

(** X21.  With a helper vector that has an entry for every cost,
    [heuristicValue] throws nothing; [bestEstimatedCost] ends as the least
    of its initial value and of the costs; either no cost has been taken
    and [bestValue] is untouched, the function returning 0, or the
    returned index holds the final [bestEstimatedCost] and [bestValue] is
    this index minus 1.  With a freshly reset helper the returned index is
    then the first one that holds this cost. *)
Theorem heuristicValue_least (costs helper : list Z) (est val : Z) :
  (length costs <= length helper)%nat ->
  exists b e v,
    OldObjective.heuristicValue costs helper est val = Some (b, e, v)
    /\ e <= est
    /\ (forall c, c ∈ costs -> e <= c)
    /\ ((e = est /\ b = 0%nat /\ v = val)
        \/ (costs !! b = Some e /\ v = Z.of_nat b - 1
            /\ ((forall h, h ∈ helper -> h = OldObjective.INT_MAX) ->
                forall j c, (j < b)%nat -> costs !! j = Some c -> e < c))).
Proof.
  intros Hlen.
  destruct (heuristicValue_scan costs helper est val (length costs)
              ltac:(lia) Hlen) as (st & Hst & Hle & Hub & Hcase).
  exists (OldObjective.best st), (OldObjective.bestEstimatedCost st),
    (OldObjective.bestValue st).
  unfold OldObjective.heuristicValue. rewrite Hst. split; [done|].
  split; [done|]. split.
  - intros c Hc. apply list_elem_of_lookup in Hc as [j Hj].
    apply (Hub j c); [|done]. by eapply lookup_lt_Some.
  - destruct Hcase as [(? & ? & ? & _)|(_ & ? & ? & Hf)]; [by left|right].
    split; [done|]. split; [done|]. intros Hfresh. by destruct (Hf Hfresh).
Qed.

Lemma heuristicValue_thrown (costs helper : list Z) (l : list nat) :
  foldl (OldObjective.heuristicValue_turn costs helper) None l = None.
Proof. induction l as [|i l IH]; [done|exact IH]. Qed.

Lemma heuristicValue_prefix (costs helper : list Z) (est val : Z) (n : nat)
    (st : OldObjective.Scan) :
  foldl (OldObjective.heuristicValue_turn costs helper)
        (Some (OldObjective.mkScan 0 OldObjective.INT_MAX est val))
        (seq 0 n) = Some st ->
  OldObjective.bestEstimatedCost st = est
  \/ exists j, (j < n)%nat
               /\ OldObjective.bestEstimatedCost st = costs !!! j.
Proof.
  revert st. induction n as [|n IH]; intros st.
  - cbn. intros [= <-]. by left.
  - rewrite seq_S, foldl_app. cbn [foldl Nat.add].
    destruct (foldl _ _ (seq 0 n)) as [st0|]; [|done].
    specialize (IH st0 eq_refl).
    assert (Hold : OldObjective.bestEstimatedCost st0 = est
                   \/ exists j, (j < S n)%nat
                        /\ OldObjective.bestEstimatedCost st0 = costs !!! j).
    { destruct IH as [?|(j & ? & ?)]; [by left|right]. exists j.
      split; [lia|done]. }
    unfold OldObjective.heuristicValue_turn.
    destruct (_ <? _).
    { destruct (helper !! n); [|done]. intros [= <-]. right. exists n.
      split; [lia|done]. }
    destruct (_ && _).
    + destruct (n =? 0)%nat.
      { destruct (helper !! n); [|done]. intros [= <-]. right. exists n.
        split; [lia|done]. }
      destruct (helper !! n) as [h|]; [|done].
      destruct (h <? _).
      * intros [= <-]. right. exists n. split; [lia|done].
      * by intros [= <-].
    + by intros [= <-].
Qed.

(** X22.  [heuristicValue] throws [std::out_of_range] when a cost beyond
    the end of the helper vector is below the initial [bestEstimatedCost]
    and below every cost before it. *)
Theorem heuristicValue_out_of_range (costs helper : list Z) (est val : Z)
    (i : nat) :
  (length helper <= i)%nat -> (i < length costs)%nat ->
  costs !!! i < est ->
  (forall j, (j < i)%nat -> costs !!! i < costs !!! j) ->
  OldObjective.heuristicValue costs helper est val = None.
Proof.
  intros Hh Hi Hest Hprev. unfold OldObjective.heuristicValue.
  replace (length costs) with (i + S (length costs - S i))%nat by lia.
  rewrite seq_app, foldl_app. cbn [seq foldl Nat.add].
  pose proof (heuristicValue_prefix costs helper est val i) as Hpre.
  destruct (foldl _ _ (seq 0 i)) as [st|];
    [|by rewrite heuristicValue_thrown].
  specialize (Hpre st eq_refl).
  assert (Hlt : costs !!! i < OldObjective.bestEstimatedCost st).
  { destruct Hpre as [->|(j & Hj & ->)]; [done|by apply Hprev]. }
  unfold OldObjective.heuristicValue_turn at 2.
  destruct (Z.ltb_spec (costs !!! i) (OldObjective.bestEstimatedCost st));
    [|lia].
  rewrite (lookup_ge_None_2 helper i Hh).
  by rewrite heuristicValue_thrown.
Qed.

(** * The cost vectors of the older solver *)

Lemma legacy_record_costs (s : Legacy.Solver) (l : list Legacy.Constr)
    (cc : list Z) (z : Z) :
  foldl (fun '(costConstraints, satisfactionCost) c =>
           let cost := Legacy.cost c (Legacy._vecVariables s) in
           (<[Legacy.ctr_slot s c := cost]> costConstraints,
            satisfactionCost + cost))
        (cc, z) l
  = (foldl (fun cc c =>
              <[Legacy.ctr_slot s c
                := Legacy.cost c (Legacy._vecVariables s)]> cc) cc l,
     foldl (fun acc c => acc + Legacy.cost c (Legacy._vecVariables s)) z l).
Proof.
  revert cc z. induction l as [|c l IH]; intros cc z; [done|].
  cbn [foldl]. apply IH.
Qed.

Lemma legacy_recorded_length (s : Legacy.Solver) (l : list Legacy.Constr)
    (cc : list Z) :
  length (foldl (fun cc c =>
                   <[Legacy.ctr_slot s c
                     := Legacy.cost c (Legacy._vecVariables s)]> cc) cc l)
  = length cc.
Proof.
  revert cc. induction l as [|c l IH]; intros cc; [done|].
  cbn [foldl]. rewrite IH. apply length_insert.
Qed.

Lemma legacy_recorded_lookup (s : Legacy.Solver) (l : list Legacy.Constr)
    (cc : list Z) (c : Legacy.Constr) :
  (forall c, c ∈ l -> (Legacy.ctr_slot s c < length cc)%nat) ->
  (forall c c', c ∈ l -> c' ∈ l ->
     Legacy.ctr_slot s c = Legacy.ctr_slot s c' -> c = c') ->
  c ∈ l ->
  foldl (fun cc c =>
           <[Legacy.ctr_slot s c
             := Legacy.cost c (Legacy._vecVariables s)]> cc) cc l
  !!! Legacy.ctr_slot s c
  = Legacy.cost c (Legacy._vecVariables s).
Proof.
  induction l as [|c' l IH] using rev_ind; intros Hr Hinj Hc.
  - by apply elem_of_nil in Hc.
  - rewrite foldl_app. cbn [foldl].
    destruct (decide (Legacy.ctr_slot s c = Legacy.ctr_slot s c')) as [E|E].
    + assert (c = c') as <-.
      { apply Hinj; [done| |done]. apply elem_of_app. right. by left. }
      apply list_lookup_total_insert_eq. rewrite legacy_recorded_length.
      by apply Hr.
    + rewrite list_lookup_total_insert_ne by done.
      apply IH.
      * intros c0 Hc0. apply Hr, elem_of_app. by left.
      * intros c0 c1 H0 H1. apply Hinj; apply elem_of_app; by left.
      * apply elem_of_app in Hc as [Hc|Hc]; [done|].
        apply list_elem_of_singleton in Hc. by subst c'.
Qed.

(** X23.  When the constraints have slots of their own in
    [costConstraints], the older [compute_constraints_costs] leaves in it
    the cost of every constraint on the current configuration and returns
    the sum of these costs; the vector keeps its length. *)
Theorem legacy_compute_constraints_costs_caches (s : Legacy.Solver)
    (cc : list Z) :
  legacy_slots_distinct s (length cc) ->
  let r := Legacy.compute_constraints_costs s cc in
  r.2 = Legacy.sum_costs s
  /\ legacy_costs_cached s r.1
  /\ length r.1 = length cc.
Proof.
  intros [Hr Hinj]. unfold Legacy.compute_constraints_costs.
  rewrite legacy_record_costs. cbn [fst snd].
  split; [done|]. split; [|apply legacy_recorded_length].
  intros c Hc. by apply legacy_recorded_lookup.
Qed.

Lemma legacy_marks_split (slot : Legacy.Constr -> nat)
    (f : Legacy.Constr -> Z) (l : list Legacy.Constr) (z : Z)
    (d : list bool) :
  foldl (fun '(acc, done) c => (acc + f c, <[slot c := true]> done)) (z, d) l
  = (foldl (fun acc c => acc + f c) z l,
     foldl (fun done c => <[slot c := true]> done) d l).
Proof.
  revert z d. induction l as [|c l IH]; intros z d; [done|].
  cbn [foldl]. apply IH.
Qed.

Lemma legacy_marks_length (slot : Legacy.Constr -> nat)
    (l : list Legacy.Constr) (d : list bool) :
  length (foldl (fun done c => <[slot c := true]> done) d l) = length d.
Proof.
  revert d. induction l as [|c l IH]; intros d; [done|].
  cbn [foldl]. rewrite IH. apply length_insert.
Qed.

Lemma legacy_marks_lookup (slot : Legacy.Constr -> nat)
    (l : list Legacy.Constr) (n i : nat) :
  (i < n)%nat ->
  foldl (fun done c => <[slot c := true]> done) (replicate n false) l !!! i
  = true
  <-> exists c, c ∈ l /\ slot c = i.
Proof.
  intros Hi. induction l as [|c l IH] using rev_ind.
  - cbn. rewrite (list_lookup_total_correct (replicate n false) i false)
      by (apply lookup_replicate_2; lia).
    split; [done|]. intros (c & Hc & _). by apply elem_of_nil in Hc.
  - rewrite foldl_app. cbn [foldl].
    destruct (decide (slot c = i)) as [E|E].
    + rewrite E, list_lookup_total_insert_eq
        by (rewrite legacy_marks_length, length_replicate; lia).
      split; [|done]. intros _. exists c.
      split; [apply elem_of_app; right; by left|done].
    + rewrite list_lookup_total_insert_ne by done. rewrite IH.
      split.
      * intros (c' & Hc' & Hs). exists c'. split; [|done].
        apply elem_of_app. by left.
      * intros (c' & [Hc'|Hc']%elem_of_app & Hs); [by exists c'|].
        apply list_elem_of_singleton in Hc'. by subst c'.
Qed.

Lemma legacy_filtered_sum (P : Legacy.Constr -> Prop)
    `{forall c, Decision (P c)} (f : Legacy.Constr -> Z) (z : Z)
    (l : list Legacy.Constr) :
  foldl (fun acc c => acc + f c) z (filter P l)
  = z + total ((fun c => if decide (P c) then f c else 0) <$> l).
Proof.
  revert z. induction l as [|c l IH]; intros z; [cbn; lia|].
  cbn [fmap list_fmap total foldr]. destruct (decide (P c)).
  - rewrite filter_cons_True by done. cbn [foldl]. rewrite IH.
    unfold total. lia.
  - rewrite filter_cons_False by done. rewrite IH. unfold total. lia.
Qed.

Lemma legacy_guarded_sum (P : Legacy.Constr -> Prop)
    `{forall c, Decision (P c)} (g : Legacy.Constr -> bool)
    (f : Legacy.Constr -> Z) (z : Z) (l : list Legacy.Constr) :
  foldl (fun acc c => if g c then acc + f c else acc) z (filter P l)
  = z + total ((fun c => if decide (P c) then if g c then f c else 0 else 0)
                 <$> l).
Proof.
  revert z. induction l as [|c l IH]; intros z; [cbn; lia|].
  cbn [fmap list_fmap total foldr]. destruct (decide (P c)).
  - rewrite filter_cons_True by done. cbn [foldl]. rewrite IH.
    unfold total. destruct (g c); lia.
  - rewrite filter_cons_False by done. rewrite IH. unfold total. lia.
Qed.

Lemma total_pointwise (f g h : Legacy.Constr -> Z) (l : list Legacy.Constr) :
  (forall c, c ∈ l -> f c + g c = h c) ->
  total (f <$> l) + total (g <$> l) = total (h <$> l).
Proof.
  induction l as [|c l IH]; intros Hp; [done|].
  cbn [fmap list_fmap total foldr].
  specialize (IH ltac:(intros c' Hc'; apply Hp; by right)).
  specialize (Hp c ltac:(by left)). unfold total in *. lia.
Qed.

(** X24.  When the costs are integers small enough for the sums of
    doubles to be exact ([legacy_exact_costs]), [costConstraints] holds the
    cost of every constraint, each in a slot of its own, [currentSatCost]
    is their sum, and the constraints that have neither variable do not
    depend on the swap, the older [simulate_permutation_cost] returns the
    sum of the costs of all the constraints on the configuration where the
    two variables are swapped: a constraint that has both variables is
    counted once. *)
Theorem legacy_simulate_permutation_cost_exact (B : Z) (s : Legacy.Solver)
    (worst other : nat) (cc : list Z) (cur : Z) :
  legacy_exact_costs B s
    (swap_index_value worst other (Legacy._vecVariables s)) ->
  legacy_costs_cached s cc ->
  cur = Legacy.sum_costs s ->
  legacy_slots_distinct s (length cc) ->
  legacy_swap_local s worst other ->
  (Legacy.simulate_permutation_cost s worst other cc cur).2
  = Legacy.sum_costs
      (Legacy.with_vecVariables
         (swap_index_value worst other (Legacy._vecVariables s)) s).
Proof.
  intros _ Hcc -> [Hr Hinj] Hloc. unfold Legacy.simulate_permutation_cost.
  set (vars' := swap_index_value worst other (Legacy._vecVariables s)).
  set (s' := Legacy.with_vecVariables vars' s).
  set (L := Legacy._vecConstraints s).
  set (f := fun c => Legacy.cost c (Legacy._vecVariables s')
                     - cc !!! Legacy.ctr_slot s' c).
  unfold Legacy._mapVarCtr.
  change (Legacy._vecConstraints s') with L.
  set (P := fun c => Legacy.has_variable c (Legacy._vecVariables s' !!! worst)
                     = true).
  set (Q := fun c => Legacy.has_variable c (Legacy._vecVariables s' !!! other)
                     = true).
  change (foldl _ (Legacy.sum_costs s, replicate (length cc) false)
            (filter P L))
    with (foldl (fun '(acc, done) c =>
                   (acc + f c, <[Legacy.ctr_slot s' c := true]> done))
                (Legacy.sum_costs s, replicate (length cc) false)
                (filter P L)).
  rewrite legacy_marks_split.
  set (marks := foldl (fun done c => <[Legacy.ctr_slot s' c := true]> done)
                      (replicate (length cc) false) (filter P L)).
  cbn [snd].
  change (foldl _ _ (filter Q L))
    with (foldl (fun acc c =>
                   if negb (marks !!! Legacy.ctr_slot s' c)
                   then acc + f c else acc)
                (foldl (fun acc c => acc + f c) (Legacy.sum_costs s)
                   (filter P L))
                (filter Q L)).
  rewrite (legacy_guarded_sum Q
             (fun c => negb (marks !!! Legacy.ctr_slot s' c)) f).
  rewrite (legacy_filtered_sum P f).
  unfold Legacy.sum_costs at 2.
  change (Legacy._vecConstraints s') with L.
  change (Legacy._vecVariables s') with vars'.
  rewrite legacy_sum_costs_fold.
  unfold Legacy.sum_costs. fold L. rewrite legacy_sum_costs_fold.
  rewrite <- Z.add_assoc. rewrite Z.add_0_l.
  rewrite (total_pointwise _ _
             (fun c => Legacy.cost c vars'
                       - Legacy.cost c (Legacy._vecVariables s))).
  - assert (Hsub : forall l : list Legacy.Constr,
              total ((fun c => Legacy.cost c vars'
                               - Legacy.cost c (Legacy._vecVariables s)) <$> l)
              = total ((fun c => Legacy.cost c vars') <$> l)
                - total ((fun c => Legacy.cost c (Legacy._vecVariables s))
                           <$> l)).
    { intros l. induction l as [|c l IH]; [done|].
      cbn [fmap list_fmap total foldr]. unfold total in *. lia. }
    rewrite Hsub. lia.
  - intros c Hc.
    assert (Hid : forall p, _id (vars' !!! p)
                            = _id (Legacy._vecVariables s !!! p)).
    { intros p. apply ids_lookup_total, ids_swap_index_value. }
    assert (HP : P c <-> Legacy.has_variable c
                           (Legacy._vecVariables s !!! worst) = true).
    { unfold P, Legacy.has_variable.
      change (Legacy._vecVariables s') with vars'. by rewrite Hid. }
    assert (HQ : Q c <-> Legacy.has_variable c
                           (Legacy._vecVariables s !!! other) = true).
    { unfold Q, Legacy.has_variable.
      change (Legacy._vecVariables s') with vars'. by rewrite Hid. }
    assert (Hmark : marks !!! Legacy.ctr_slot s' c = bool_decide (P c)).
    { assert (Hiff : marks !!! Legacy.ctr_slot s' c = true <-> P c).
      { unfold marks. rewrite legacy_marks_lookup by (by apply Hr). split.
        - intros (c' & Hc' & Hs).
          apply list_elem_of_filter in Hc' as [HP' Hc'].
          by rewrite <- (Hinj c' c Hc' Hc Hs).
        - intros Hp. exists c. split; [|done].
          apply list_elem_of_filter. by split. }
      destruct (marks !!! Legacy.ctr_slot s' c).
      - symmetry. apply bool_decide_eq_true_2. by apply Hiff.
      - symmetry. apply bool_decide_eq_false_2. intros Hp.
        by apply Hiff in Hp. }
    rewrite Hmark. unfold f.
    change (Legacy._vecVariables s') with vars'.
    change (Legacy.ctr_slot s' c) with (Legacy.ctr_slot s c).
    rewrite (Hcc c Hc).
    destruct (decide (P c)) as [Hp|Hp].
    + rewrite bool_decide_eq_true_2 by done. cbn [negb].
      destruct (decide (Q c)); lia.
    + rewrite bool_decide_eq_false_2 by done. cbn [negb].
      destruct (decide (Q c)) as [Hq|Hq]; [lia|].
      rewrite Hloc; [lia|done| |].
      * apply not_true_is_false. intros Hh. by apply Hp, HP.
      * apply not_true_is_false. intros Hh. by apply Hq, HQ.
Qed.

(** * The further properties at concrete inputs *)

Lemma decay_weak_tabu_list_saturates_witness :
  (forall t, t ∈ _weak_tabu_list (with_weak_tabu_list [0; 1; 5] three_errors_engine) ->
     INT_MIN < t <= INT_MAX)
  /\ (forall i t, [0; 1; 5] !! i = Some t ->
        _weak_tabu_list
          (decay_weak_tabu_list
             (with_weak_tabu_list [0; 1; 5] three_errors_engine)).1 !! i
        = Some (Z.max 0 (t - 1)))
  /\ forall t,
       t ∈ _weak_tabu_list
             (decay_weak_tabu_list
                (with_weak_tabu_list [0; 1; 5] three_errors_engine)).1 ->
       0 <= t <= INT_MAX.
Proof.
  assert (H : forall t,
            t ∈ _weak_tabu_list
                  (with_weak_tabu_list [0; 1; 5] three_errors_engine) ->
            INT_MIN < t <= INT_MAX).
  { intros t Ht. cbn in Ht. unfold INT_MIN, INT_MAX.
    repeat (apply elem_of_cons in Ht as [->|Ht]; [lia|]).
    by apply elem_of_nil in Ht. }
  split; [exact H|].
  destruct (decay_weak_tabu_list_saturates
              (with_weak_tabu_list [0; 1; 5] three_errors_engine) H)
    as (_ & _ & Hcells & Hrange & _).
  split; [exact Hcells|exact Hrange].
Defined.

Lemma compute_constraints_errors_fills_witness :
  length (_error_constraints stale_engine) = _number_constraints stale_engine
  /\ (compute_constraints_errors stale_engine).2
     = accumulate (_error_constraints (compute_constraints_errors stale_engine).1).
Proof.
  assert (H : length (_error_constraints stale_engine)
              = _number_constraints stale_engine) by reflexivity.
  split; [exact H|].
  exact (proj2 (proj2 (proj2 (compute_constraints_errors_fills
                                stale_engine H)))).
Defined.

Lemma compute_variables_errors_adds_witness :
  (_number_variables (solver stale_start)
   <= length (_error_variables (solver stale_start)))%nat
  /\ forall v, (v < _number_variables (solver stale_start))%nat ->
       _error_variables (compute_variables_errors (solver stale_start)) !!! v
       = foldl Z.add (_error_variables (solver stale_start) !!! v)
               ((fun c => _error_constraints (solver stale_start) !!! c)
                  <$> _matrix_var_ctr (solver stale_start) !!! v).
Proof.
  assert (H : (_number_variables (solver stale_start)
               <= length (_error_variables (solver stale_start)))%nat)
    by (vm_compute; lia).
  split; [exact H|].
  exact (proj2 (proj2 (compute_variables_errors_adds (solver stale_start) H))).
Defined.

Lemma domain_0_3_NoDup : NoDup [0; 1; 2; 3].
Proof.
  repeat (apply NoDup_cons; split;
          [intros H; repeat (apply elem_of_cons in H as [H|H]; [lia|]);
           by apply elem_of_nil in H|]).
  apply NoDup_nil_2.
Qed.

Lemma simulate_deltas_per_constraint_witness :
  NoDup [0; 1; 2; 3]
  /\ sorted_keys (simulate_deltas (unsat_engine []) 0 [0; 1; 2; 3]).
Proof.
  split; [exact domain_0_3_NoDup|].
  exact (proj1 (simulate_deltas_per_constraint (unsat_engine []) 0
                  [0; 1; 2; 3] domain_0_3_NoDup)).
Defined.

Lemma unsat_engine_picks : picks_defined (unsat_engine []) = true.
Proof. vm_compute. reflexivity. Qed.

Lemma evaluate_moves_min_conflict_witness :
  well_formed (unsat_engine [])
  /\ picks_defined (unsat_engine []) = true
  /\ let '(v, x, mc, de, s') := evaluate_moves (unsat_engine []) in
     (v < _number_variables (unsat_engine []))%nat
     /\ _error_variables (unsat_engine []) !!! v
        = max_element (_error_variables (unsat_engine []))
     /\ x ∈ get_full_domain (_variables (unsat_engine []) !!! v)
     /\ mc = conflict (unsat_engine []) v x
     /\ forall y, y ∈ get_full_domain (_variables (unsat_engine []) !!! v) ->
          mc <= conflict (unsat_engine []) v y.
Proof.
  split; [apply unsat_engine_well_formed|].
  split; [exact unsat_engine_picks|].
  pose proof (evaluate_moves_min_conflict (unsat_engine [])
                (unsat_engine_well_formed []) unsat_engine_picks) as H.
  destruct (evaluate_moves (unsat_engine [])) as [[[[v x] mc] de] s'].
  exact (proj2 H).
Defined.

Lemma bounded_start_well_formed : well_formed (solver bounded_start).
Proof.
  exact (proj1 (start_run_invariant [] 1000 true [1; 2; 3] (bounded_engine [])
                  (bounded_engine_well_formed []))).
Qed.

Lemma bounded_start_P3 : P3 (solver bounded_start).
Proof.
  destruct (start_run_solution [] 1000 true [1; 2; 3] (bounded_engine [])
              (bounded_engine_well_formed [])) as (_ & E & _).
  unfold bounded_start. rewrite E. apply restart_P3.
  eapply well_formed_same_model; [apply (bounded_engine_well_formed [])|].
  by constructor.
Qed.

Lemma bounded_start_branch : (iteration 1000 bounded_start).1 = Move.
Proof. vm_compute. reflexivity. Qed.

Lemma bounded_start_exact : exact_errors 10 (solver bounded_start).
Proof.
  assert (E : _constraints (solver bounded_start)
              = [mkCtr 0 [0%nat]
                   (fun vs => Z.min 10 (Z.abs (vs !!! 0%nat - 10))) [0]])
    by (vm_compute; reflexivity).
  split; [|vm_compute; discriminate].
  intros c values Hc. rewrite E in Hc.
  apply list_elem_of_singleton in Hc as ->. cbn. lia.
Qed.

Lemma move_keeps_P3_witness :
  well_formed (solver bounded_start)
  /\ exact_errors 10 (solver bounded_start)
  /\ P3 (solver bounded_start)
  /\ (iteration 1000 bounded_start).1 = Move
  /\ P3 (solver (iteration 1000 bounded_start).2).
Proof.
  split; [exact bounded_start_well_formed|].
  split; [exact bounded_start_exact|]. split; [exact bounded_start_P3|].
  split; [exact bounded_start_branch|].
  exact (move_keeps_P3 1000 10 bounded_start bounded_start_well_formed
           bounded_start_exact bounded_start_P3 bounded_start_branch).
Defined.

Lemma restart_recomputes_errors_witness :
  well_formed (unsat_engine [])
  /\ P3 (restart (unsat_engine [])).
Proof.
  split; [apply unsat_engine_well_formed|].
  exact (proj1 (restart_recomputes_errors (unsat_engine [])
                  (unsat_engine_well_formed []))).
Defined.

Lemma unsat_resumed_well_formed :
  well_formed (with_no_random_starting_point true (unsat_engine [])).
Proof.
  eapply well_formed_same_model; [apply (unsat_engine_well_formed [])|].
  by constructor.
Qed.

Lemma restart_keeps_assignment_witness :
  well_formed (with_no_random_starting_point true (unsat_engine []))
  /\ _no_random_starting_point
       (with_no_random_starting_point true (unsat_engine [])) = true
  /\ _variables (restart (with_no_random_starting_point true (unsat_engine [])))
     = _variables (with_no_random_starting_point true (unsat_engine [])).
Proof.
  split; [exact unsat_resumed_well_formed|]. split; [reflexivity|].
  exact (proj1 (restart_keeps_assignment
                  (with_no_random_starting_point true (unsat_engine []))
                  unsat_resumed_well_formed eq_refl)).
Defined.






Lemma unsat_second_head : unsat_second ∈ loop_heads 2 1000 unsat_start.
Proof.
  apply list_elem_of_lookup. exists 1%nat. vm_compute. reflexivity.
Qed.

Lemma weak_tabu_list_stays_zero_witness :
  well_formed (unsat_engine [])
  /\ unsat_second ∈ loop_heads 2 1000 unsat_start
  /\ _weak_tabu_list (solver unsat_second)
     = replicate (length (_weak_tabu_list (unsat_engine []))) 0.
Proof.
  split; [apply unsat_engine_well_formed|]. split; [exact unsat_second_head|].
  exact (weak_tabu_list_stays_zero [] 1000 true [1; 2; 3] 2 (unsat_engine [])
           unsat_second (unsat_engine_well_formed []) unsat_second_head).
Defined.

Lemma legacy_pair_cached : legacy_costs_cached legacy_pair [0; 2].
Proof.
  intros c Hc. apply elem_of_cons in Hc as [->|Hc]; [reflexivity|].
  apply elem_of_cons in Hc as [->|Hc]; [reflexivity|].
  by apply elem_of_nil in Hc.
Qed.

Lemma legacy_pair_sum : 2 = Legacy.sum_costs legacy_pair.
Proof. reflexivity. Qed.

Lemma legacy_pair_local : legacy_local legacy_pair 1.
Proof.
  intros c x Hc Hh. apply elem_of_cons in Hc as [->|Hc]; [reflexivity|].
  apply elem_of_cons in Hc as [->|Hc]; [discriminate Hh|].
  by apply elem_of_nil in Hc.
Qed.

Lemma legacy_pair_slots : legacy_slots_distinct legacy_pair (length [0; 2]).
Proof.
  split.
  - intros c Hc. apply elem_of_cons in Hc as [->|Hc]; [vm_compute; lia|].
    apply elem_of_cons in Hc as [->|Hc]; [vm_compute; lia|].
    by apply elem_of_nil in Hc.
  - intros c c' Hc Hc'.
    apply elem_of_cons in Hc as [->|Hc];
      [|apply elem_of_cons in Hc as [->|Hc]; [|by apply elem_of_nil in Hc]];
      (apply elem_of_cons in Hc' as [->|Hc'];
       [|apply elem_of_cons in Hc' as [->|Hc'];
         [|by apply elem_of_nil in Hc']]);
      intros E; try reflexivity; discriminate E.
Qed.

Lemma legacy_pair_swap_local : legacy_swap_local legacy_pair 0 1.
Proof.
  intros c Hc Hw Ho. apply elem_of_cons in Hc as [->|Hc]; [discriminate Hw|].
  apply elem_of_cons in Hc as [->|Hc]; [discriminate Hw|].
  by apply elem_of_nil in Hc.
Qed.

Lemma legacy_pair_objective (vs : list Var) :
  Legacy._objective legacy_pair vs <= DBL_MAX.
Proof. pose proof DBL_MAX_positive. cbn. lia. Qed.

Lemma legacy_pair_exact_move :
  legacy_exact_costs 10 legacy_pair
    (alter (set_value 0) 1%nat (Legacy._vecVariables legacy_pair)).
Proof.
  split; [|vm_compute; discriminate].
  intros c Hc.
  apply elem_of_cons in Hc as [->|Hc]; [cbn; lia|].
  apply elem_of_cons in Hc as [->|Hc]; [cbn; lia|].
  by apply elem_of_nil in Hc.
Qed.

Lemma legacy_pair_exact_swap :
  legacy_exact_costs 10 legacy_pair
    (swap_index_value 0 1 (Legacy._vecVariables legacy_pair)).
Proof.
  split; [|vm_compute; discriminate].
  intros c Hc.
  apply elem_of_cons in Hc as [->|Hc]; [cbn; lia|].
  apply elem_of_cons in Hc as [->|Hc]; [cbn; lia|].
  by apply elem_of_nil in Hc.
Qed.

Lemma legacy_decay_weak_tabu_list_witness :
  (forall t, t ∈ Legacy._weakTabuList (Legacy.with_weakTabuList [0; 2] legacy_pair) ->
     0 <= t <= INT_MAX)
  /\ (Legacy.decay_weak_tabu_list
        (Legacy.with_weakTabuList [0; 2] legacy_pair) false).2
     = false || existsb (fun t => t =? 0) [0; 2]
  /\ forall t,
       t ∈ Legacy._weakTabuList
             (Legacy.decay_weak_tabu_list
                (Legacy.with_weakTabuList [0; 2] legacy_pair) false).1 ->
       0 <= t <= INT_MAX.
Proof.
  assert (H : forall t,
            t ∈ Legacy._weakTabuList
                  (Legacy.with_weakTabuList [0; 2] legacy_pair) ->
            0 <= t <= INT_MAX).
  { intros t Ht. cbn in Ht. unfold INT_MAX.
    repeat (apply elem_of_cons in Ht as [->|Ht]; [lia|]).
    by apply elem_of_nil in Ht. }
  split; [exact H|].
  destruct (legacy_decay_weak_tabu_list
              (Legacy.with_weakTabuList [0; 2] legacy_pair) false H)
    as (_ & Hfree & _ & Hrange).
  split; [exact Hfree|exact Hrange].
Defined.

Lemma legacy_simulate_local_move_cost_exact_witness :
  legacy_exact_costs 10 legacy_pair
    (alter (set_value 0) 1%nat (Legacy._vecVariables legacy_pair))
  /\ legacy_costs_cached legacy_pair [0; 2]
  /\ 2 = Legacy.sum_costs legacy_pair
  /\ legacy_local legacy_pair 1
  /\ (Legacy.simulate_local_move_cost legacy_pair 1 0 [0; 2] 2).2
     = Legacy.sum_costs
         (Legacy.simulate_local_move_cost legacy_pair 1 0 [0; 2] 2).1.
Proof.
  split; [exact legacy_pair_exact_move|].
  split; [exact legacy_pair_cached|]. split; [exact legacy_pair_sum|].
  split; [exact legacy_pair_local|].
  exact (proj1 (legacy_simulate_local_move_cost_exact 10 legacy_pair 1 0
                  [0; 2] 2 legacy_pair_exact_move legacy_pair_cached
                  legacy_pair_sum legacy_pair_local)).
Defined.

Lemma legacy_pair_first :
  (0 < length (Legacy._vecVariables legacy_pair))%nat.
Proof. vm_compute. lia. Qed.

Lemma legacy_permutation_move_least_witness :
  (0 < length (Legacy._vecVariables legacy_pair))%nat
  /\ (Legacy.permutation_move legacy_pair 0 [0; 2] 2).2 <= DBL_MAX.
Proof.
  split; [exact legacy_pair_first|].
  exact (proj1 (legacy_permutation_move_least legacy_pair 0 [0; 2] 2
                  legacy_pair_first)).
Defined.

Lemma legacy_local_move_least_witness :
  (forall vs, Legacy._objective legacy_pair vs <= DBL_MAX)
  /\ (Legacy.local_move legacy_pair 1 [0; 2] 2).2 <= DBL_MAX.
Proof.
  split; [exact legacy_pair_objective|].
  exact (proj1 (legacy_local_move_least legacy_pair 1 [0; 2] 2
                  legacy_pair_objective)).
Defined.

Lemma legacy_compute_constraints_costs_caches_witness :
  legacy_slots_distinct legacy_pair (length [0; 2])
  /\ (Legacy.compute_constraints_costs legacy_pair [0; 2]).2
     = Legacy.sum_costs legacy_pair.
Proof.
  split; [exact legacy_pair_slots|].
  exact (proj1 (legacy_compute_constraints_costs_caches legacy_pair [0; 2]
                  legacy_pair_slots)).
Defined.

Lemma legacy_simulate_permutation_cost_exact_witness :
  legacy_exact_costs 10 legacy_pair
    (swap_index_value 0 1 (Legacy._vecVariables legacy_pair))
  /\ legacy_costs_cached legacy_pair [0; 2]
  /\ 2 = Legacy.sum_costs legacy_pair
  /\ legacy_slots_distinct legacy_pair (length [0; 2])
  /\ legacy_swap_local legacy_pair 0 1
  /\ (Legacy.simulate_permutation_cost legacy_pair 0 1 [0; 2] 2).2
     = Legacy.sum_costs
         (Legacy.with_vecVariables
            (swap_index_value 0 1 (Legacy._vecVariables legacy_pair))
            legacy_pair).
Proof.
  split; [exact legacy_pair_exact_swap|].
  split; [exact legacy_pair_cached|]. split; [exact legacy_pair_sum|].
  split; [exact legacy_pair_slots|]. split; [exact legacy_pair_swap_local|].
  exact (legacy_simulate_permutation_cost_exact 10 legacy_pair 0 1 [0; 2] 2
           legacy_pair_exact_swap legacy_pair_cached legacy_pair_sum
           legacy_pair_slots legacy_pair_swap_local).
Defined.

Lemma heuristicValue_least_witness :
  (length [3; 1; 2; 1] <= length (OldObjective.initHelper 4))%nat
  /\ exists b e v,
       OldObjective.heuristicValue [3; 1; 2; 1] (OldObjective.initHelper 4)
         10 (-1)
       = Some (b, e, v)
       /\ e <= 10.
Proof.
  assert (H : (length [3; 1; 2; 1]
               <= length (OldObjective.initHelper 4))%nat)
    by (vm_compute; lia).
  split; [exact H|].
  destruct (heuristicValue_least [3; 1; 2; 1] (OldObjective.initHelper 4)
              10 (-1) H) as (b & e & v & E & Hle & _).
  exists b, e, v. split; [exact E|exact Hle].
Defined.

Lemma heuristicValue_out_of_range_witness :
  (length [OldObjective.INT_MAX] <= 1)%nat
  /\ (1 < length [5; 1])%nat
  /\ [5; 1] !!! 1%nat < 10
  /\ (forall j, (j < 1)%nat -> [5; 1] !!! 1%nat < [5; 1] !!! j)
  /\ OldObjective.heuristicValue [5; 1] [OldObjective.INT_MAX] 10 (-1) = None.
Proof.
  assert (H1 : (length [OldObjective.INT_MAX] <= 1)%nat) by (simpl; lia).
  assert (H2 : (1 < length [5; 1])%nat) by (simpl; lia).
  assert (H3 : [5; 1] !!! 1%nat < 10) by (cbn; lia).
  assert (H4 : forall j, (j < 1)%nat -> [5; 1] !!! 1%nat < [5; 1] !!! j).
  { intros [|j] Hj; [cbn; lia|lia]. }
  split; [exact H1|]. split; [exact H2|]. split; [exact H3|].
  split; [exact H4|].
  exact (heuristicValue_out_of_range [5; 1] [OldObjective.INT_MAX] 10 (-1) 1
           H1 H2 H3 H4).
Defined.

Lemma legacy_turn_freezes_moved_variable_witness :
  let '(s', _, worstVariable, _) :=
    Legacy.satisfaction_turn legacy_pair [0; 0] in
  (Legacy.var_slot legacy_pair
     (Legacy._vecVariables legacy_pair !!! worstVariable)
   < length (Legacy._weakTabuList legacy_pair))%nat
  /\ 1 <= Legacy._weakTabuList s'
            !!! Legacy.var_slot legacy_pair
                  (Legacy._vecVariables legacy_pair !!! worstVariable).
Proof.
  pose proof (legacy_turn_freezes_moved_variable legacy_pair [0; 0]) as H.
  destruct (Legacy.satisfaction_turn legacy_pair [0; 0])
    as [[[s' fs] w] c] eqn:E.
  assert (Hw : w = 0%nat).
  { apply (f_equal (fun r => r.1.2)) in E. vm_compute in E. congruence. }
  subst w. cbv zeta in H.
  assert (Hslot : (Legacy.var_slot legacy_pair
                     (Legacy._vecVariables legacy_pair !!! 0%nat)
                   < length (Legacy._weakTabuList legacy_pair))%nat)
    by (vm_compute; lia).
  split; [exact Hslot|]. exact (proj1 (proj2 (H Hslot))).
Defined.

(** * The starting configuration of the older solver *)

Lemma legacy_sampler_shape (s0 s : Legacy.Solver) :
  exists vs g,
    legacy_sampler s0 s = Legacy.with_rng g (Legacy.with_vecVariables vs s)
    /\ length vs = length (Legacy._vecVariables s).
Proof.
  unfold legacy_sampler. destruct (Legacy._permutationProblem s0).
  - unfold Legacy.random_permutations.
    pose proof (domains_random_swaps (Legacy._vecVariables s) (Legacy._rng s))
      as Hd.
    destruct (random_swaps _ _) as [vs g]. exists vs, g. split; [done|].
    apply (f_equal length) in Hd. by rewrite !length_fmap in Hd.
  - unfold Legacy.monte_carlo_sampling.
    pose proof (domains_pick_random_values (Legacy._vecVariables s)
                  (Legacy._rng s)) as Hd.
    destruct (pick_random_values _ _) as [vs g]. exists vs, g.
    split; [done|].
    apply (f_equal length) in Hd. by rewrite !length_fmap in Hd.
Qed.

Lemma values_lookups (vars : list Var) :
  (fun i => get_value (vars !!! i)) <$> seq 0 (length vars) = values vars.
Proof.
  induction vars as [|v vars IH] using rev_ind; [done|].
  rewrite length_app, Nat.add_1_r, seq_S. unfold values in *.
  rewrite !fmap_app. cbn [fmap list_fmap Nat.add]. f_equal.
  - rewrite <- IH. apply list_fmap_ext. intros i k Hk.
    apply lookup_seq in Hk as [-> Hk]. cbn [Nat.add].
    by rewrite lookup_total_app_l.
  - by rewrite lookup_total_app_r, Nat.sub_diag by lia.
Qed.

Lemma legacy_update_better (s : Legacy.Solver) (cur : Z) (conf : list Z) :
  length conf = Legacy._number_variables s ->
  length (Legacy._vecVariables s) = Legacy._number_variables s ->
  Legacy.update_better_configuration s cur conf
  = (cur, values (Legacy._vecVariables s)).
Proof.
  intros Hc Hv. unfold Legacy.update_better_configuration. f_equal.
  rewrite <- Hc.
  rewrite (inserts_seq (fun i => get_value (Legacy._vecVariables s !!! i))).
  rewrite Hc, <- Hv. apply values_lookups.
Qed.

Lemma legacy_sampling_loop (s0 : Legacy.Solver) (i : nat) (best : Z)
    (bv : list Z) (s : Legacy.Solver) :
  length (Legacy._vecVariables s) = Legacy._number_variables s ->
  length bv = Legacy._number_variables s ->
  let r := Legacy.sampling_loop (legacy_sampler s0) i best bv s in
  (exists vs g, r.1 = Legacy.with_rng g (Legacy.with_vecVariables vs s)
                /\ length vs = length (Legacy._vecVariables s))
  /\ length r.2 = Legacy._number_variables s
  /\ (forall sj, sj ∈ legacy_samples (legacy_sampler s0) i s ->
        Legacy._vecConstraints sj = Legacy._vecConstraints s)
  /\ exists best',
       best' <= best
       /\ (forall sj, sj ∈ legacy_samples (legacy_sampler s0) i s ->
             best' <= Legacy.sum_costs sj)
       /\ ((best' = best /\ r.2 = bv)
           \/ exists sj, sj ∈ legacy_samples (legacy_sampler s0) i s
                         /\ Legacy.sum_costs sj = best'
                         /\ r.2 = values (Legacy._vecVariables sj)).
Proof.
  revert best bv s. induction i as [|i IH]; intros best bv s Hv Hb.
  - cbn. split; [exists (Legacy._vecVariables s), (Legacy._rng s);
                 split; [by destruct s|done]|].
    split; [done|]. split; [intros sj Hsj; by apply elem_of_nil in Hsj|].
    exists best. split; [lia|]. split; [|by left].
    intros sj Hsj. by apply elem_of_nil in Hsj.
  - cbn [Legacy.sampling_loop legacy_samples].
    destruct (legacy_sampler_shape s0 s) as (vs1 & g1 & E1 & Hl1).
    set (s1 := legacy_sampler s0 s) in *.
    assert (Hn1 : Legacy._number_variables s1 = Legacy._number_variables s)
      by (by rewrite E1).
    assert (Hc1 : Legacy._vecConstraints s1 = Legacy._vecConstraints s)
      by (by rewrite E1).
    assert (Hv1 : length (Legacy._vecVariables s1)
                  = Legacy._number_variables s1).
    { rewrite Hn1, <- Hv, <- Hl1. by rewrite E1. }
    set (cur := Legacy.sum_costs s1).
    assert (Hupd : exists best1 bv1,
               (if best >? cur
                then Legacy.update_better_configuration s1 cur bv
                else (best, bv)) = (best1, bv1)
               /\ length bv1 = Legacy._number_variables s
               /\ best1 <= best /\ best1 <= cur
               /\ ((best1 = best /\ bv1 = bv)
                   \/ (best1 = cur
                       /\ bv1 = values (Legacy._vecVariables s1)))).
    { destruct (Z.gtb_spec best cur) as [Hgt|Hle].
      - rewrite legacy_update_better; [|by rewrite Hn1|exact Hv1].
        exists cur, (values (Legacy._vecVariables s1)). split; [done|]. split.
        + unfold values. by rewrite length_fmap, Hv1.
        + split; [lia|]. split; [lia|]. by right.
      - exists best, bv. split; [done|]. split; [done|].
        split; [lia|]. split; [lia|]. by left. }
    destruct Hupd as (best1 & bv1 & -> & Hlb1 & Hle1 & Hle2 & Hcase1).
    assert (Hshape1 : exists vs g,
               s1 = Legacy.with_rng g (Legacy.with_vecVariables vs s)
               /\ length vs = length (Legacy._vecVariables s)).
    { by exists vs1, g1. }
    destruct (Z.eqb_spec cur 0) as [Hz|Hnz].
    + cbn [fst snd]. split; [exact Hshape1|]. split; [exact Hlb1|].
      split.
      { intros sj Hsj. apply list_elem_of_singleton in Hsj as ->. exact Hc1. }
      exists best1. split; [lia|]. split.
      * intros sj Hsj. apply list_elem_of_singleton in Hsj as ->.
        fold cur. lia.
      * destruct Hcase1 as [?|[? ?]]; [by left|right].
        exists s1. split; [by left|done].
    + destruct (IH best1 bv1 s1 Hv1 ltac:(by rewrite Hn1))
        as ((vs & g & Er & Hlr) & Hlen & Hcs & best' & Hb' & Hub & Hcase).
      split.
      { exists vs, g. split.
        - rewrite Er, E1. by destruct s.
        - rewrite Hlr, E1. exact Hl1. }
      split; [by rewrite Hlen|]. split.
      { intros sj [->|Hsj]%elem_of_cons; [exact Hc1|].
        by rewrite (Hcs sj Hsj). }
      exists best'. split; [lia|]. split.
      * intros sj [->|Hsj]%elem_of_cons; [fold cur; lia|by apply Hub].
      * destruct Hcase as [[-> ->]|(sj & Hsj & Hcost & Hval)].
        -- destruct Hcase1 as [?|[? ?]]; [by left|right].
           exists s1. split; [by left|done].
        -- right. exists sj. split; [by right|done].
Qed.

Lemma legacy_sum_costs_values (s s' : Legacy.Solver) :
  legacy_values_only s ->
  Legacy._vecConstraints s' = Legacy._vecConstraints s ->
  forall s'', Legacy._vecConstraints s'' = Legacy._vecConstraints s ->
    values (Legacy._vecVariables s') = values (Legacy._vecVariables s'') ->
    Legacy.sum_costs s' = Legacy.sum_costs s''.
Proof.
  intros Hvo Hc s'' Hc'' Hval. unfold Legacy.sum_costs.
  rewrite Hc, Hc'', !legacy_sum_costs_fold. f_equal. f_equal.
  apply list_fmap_ext. intros i c Hi. apply Hvo; [|done].
  by eapply list_elem_of_lookup_2.
Qed.

Lemma legacy_set_initial_configuration_unfold (samplings : Z)
    (s : Legacy.Solver) :
  Legacy._permutationProblem s = true \/ samplings <> 1 ->
  Legacy.set_initial_configuration samplings s
  = let r := Legacy.sampling_loop (legacy_sampler s)
               (legacy_sample_count s samplings) DBL_MAX
               (replicate (Legacy._number_variables s) 0) s in
    Legacy.with_vecVariables
      (set_values_from (Legacy._number_variables r.1) r.2
         (Legacy._vecVariables r.1)) r.1.
Proof.
  intros H. unfold Legacy.set_initial_configuration, legacy_sampler,
    legacy_sample_count.
  destruct (Legacy._permutationProblem s); cbn [negb].
  - by destruct (Legacy.sampling_loop _ _ _ _ _).
  - destruct H as [?|H]; [done|].
    destruct (Z.eqb_spec samplings 1); [done|].
    by destruct (Legacy.sampling_loop _ _ _ _ _).
Qed.

(** X25.  Outside the case of a single Monte Carlo sample, the older
    [set_initial_configuration] starts the search from the best of its
    samples: when the costs depend on the values only and some sample has
    a cost below the greatest double, the variables end with the values of
    one of the sampled configurations, and the cost of the configuration
    left is at most the cost of every sample. *)
Theorem legacy_set_initial_configuration_best (samplings : Z)
    (s : Legacy.Solver) :
  Legacy._permutationProblem s = true \/ samplings <> 1 ->
  length (Legacy._vecVariables s) = Legacy._number_variables s ->
  legacy_values_only s ->
  let samples :=
    legacy_samples (legacy_sampler s) (legacy_sample_count s samplings) s in
  let s' := Legacy.set_initial_configuration samplings s in
  (exists sj, sj ∈ samples /\ Legacy.sum_costs sj < DBL_MAX) ->
  (exists sj, sj ∈ samples
              /\ values (Legacy._vecVariables s')
                 = values (Legacy._vecVariables sj))
  /\ forall sj, sj ∈ samples -> Legacy.sum_costs s' <= Legacy.sum_costs sj.
Proof.
  intros Hmode Hv Hvo samples s' (s1 & Hs1 & Hfin).
  unfold s'. rewrite (legacy_set_initial_configuration_unfold _ _ Hmode).
  cbv zeta.
  destruct (legacy_sampling_loop s (legacy_sample_count s samplings) DBL_MAX
              (replicate (Legacy._number_variables s) 0) s Hv
              ltac:(by rewrite length_replicate))
    as ((vs & g & Er & Hlr) & Hlen & Hcs & best' & Hb' & Hub & Hcase).
  fold samples in Hcs, Hub, Hcase.
  set (r := Legacy.sampling_loop _ _ _ _ _) in *.
  destruct Hcase as [[-> _]|(sj & Hsj & Hcost & Hval)].
  { specialize (Hub s1 Hs1). lia. }
  set (s2 := Legacy.with_vecVariables _ r.1).
  assert (Hvals : values (Legacy._vecVariables s2)
                  = values (Legacy._vecVariables sj)).
  { unfold s2. cbn [Legacy._vecVariables Legacy.with_vecVariables].
    assert (Hn : Legacy._number_variables r.1 = Legacy._number_variables s)
      by (by rewrite Er).
    assert (Hl : length (Legacy._vecVariables r.1)
                 = Legacy._number_variables s).
    { rewrite Er. cbn [Legacy._vecVariables Legacy.with_rng
        Legacy.with_vecVariables]. by rewrite Hlr. }
    rewrite values_set_values_from by (rewrite ?Hn, ?Hl, ?Hlen; lia).
    rewrite Hn, take_ge, drop_ge, app_nil_r by
      (unfold values; rewrite ?length_fmap, ?Hl, ?Hlen; lia).
    exact Hval. }
  split; [by exists sj|].
  intros sk Hsk.
  assert (Hc2 : Legacy._vecConstraints s2 = Legacy._vecConstraints s).
  { unfold s2. rewrite Er. done. }
  rewrite (legacy_sum_costs_values s s2 Hvo Hc2 sj (Hcs sj Hsj) Hvals).
  rewrite Hcost. by apply Hub.
Qed.

Lemma values_lookup_total (l l' : list Var) (i : nat) :
  values l = values l' -> get_value (l !!! i) = get_value (l' !!! i).
Proof.
  intros E. rewrite !list_lookup_total_alt.
  assert (H : values l !! i = values l' !! i) by (by rewrite E).
  unfold values in H. rewrite !list_lookup_fmap in H.
  destruct (l !! i), (l' !! i); cbn in *; congruence.
Qed.

Lemma legacy_pair_values_only : legacy_values_only legacy_pair.
Proof.
  intros c vs vs' Hc E.
  apply elem_of_cons in Hc as [->|Hc].
  { cbn. by apply values_lookup_total. }
  apply elem_of_cons in Hc as [->|Hc]; [|by apply elem_of_nil in Hc].
  cbn. by rewrite (values_lookup_total vs vs' 0 E),
         (values_lookup_total vs vs' 1 E).
Qed.

Lemma legacy_pair_mode :
  Legacy._permutationProblem legacy_pair = true \/ 10 <> 1.
Proof. right. lia. Qed.

Lemma legacy_pair_sample :
  exists sj,
    sj ∈ legacy_samples (legacy_sampler legacy_pair)
           (legacy_sample_count legacy_pair 10) legacy_pair
    /\ Legacy.sum_costs sj < DBL_MAX.
Proof.
  exists (Legacy.monte_carlo_sampling legacy_pair). split.
  - apply list_elem_of_lookup. exists 0%nat. reflexivity.
  - vm_compute. reflexivity.
Qed.

Lemma legacy_set_initial_configuration_best_witness :
  (Legacy._permutationProblem legacy_pair = true \/ 10 <> 1)
  /\ length (Legacy._vecVariables legacy_pair)
     = Legacy._number_variables legacy_pair
  /\ legacy_values_only legacy_pair
  /\ (exists sj,
        sj ∈ legacy_samples (legacy_sampler legacy_pair)
               (legacy_sample_count legacy_pair 10) legacy_pair
        /\ Legacy.sum_costs sj < DBL_MAX)
  /\ forall sj,
       sj ∈ legacy_samples (legacy_sampler legacy_pair)
              (legacy_sample_count legacy_pair 10) legacy_pair ->
       Legacy.sum_costs (Legacy.set_initial_configuration 10 legacy_pair)
       <= Legacy.sum_costs sj.
Proof.
  split; [exact legacy_pair_mode|]. split; [reflexivity|].
  split; [exact legacy_pair_values_only|]. split; [exact legacy_pair_sample|].
  exact (proj2 (legacy_set_initial_configuration_best 10 legacy_pair
                  legacy_pair_mode eq_refl legacy_pair_values_only
                  legacy_pair_sample)).
Defined.

(** * The costs of the variables in the older solver *)

Lemma alter_adds_length (A : Type) (g : A -> Z) (id : nat) (l : list A)
    (cv : list Z) :
  length (foldl (fun cv c => alter (fun e => e + g c) id cv) cv l)
  = length cv.
Proof.
  revert cv. induction l as [|c l IH]; intros cv; [done|].
  cbn [foldl]. rewrite IH. apply length_alter.
Qed.

Lemma alter_adds_lookup (A : Type) (g : A -> Z) (id : nat) (l : list A)
    (cv : list Z) (i : nat) :
  (id < length cv)%nat ->
  foldl (fun cv c => alter (fun e => e + g c) id cv) cv l !!! i
  = cv !!! i + (if decide (i = id) then total (g <$> l) else 0).
Proof.
  revert cv. induction l as [|c l IH]; intros cv Hid.
  - cbn. destruct (decide _); lia.
  - cbn [foldl fmap list_fmap total foldr].
    rewrite IH by (by rewrite length_alter).
    rewrite list_lookup_total_alter.
    destruct (decide (i = id)) as [->|Hne].
    + rewrite decide_True by done. unfold total. lia.
    + rewrite decide_False by (intros [? _]; congruence). lia.
Qed.

Lemma legacy_variables_costs_loop (s : Legacy.Solver) (cc cv0 cnt0 : list Z)
    (l : list Var) :
  NoDup (Legacy.var_slot s <$> l) ->
  (forall v, v ∈ l -> (Legacy.var_slot s v < length cv0)%nat
                      /\ (Legacy.var_slot s v < length cnt0)%nat) ->
  let r :=
    foldl (fun '(costVariables, costNonTabuVariables) v =>
             let id := Legacy.var_slot s v in
             let costVariables :=
               foldl (fun cv c =>
                        alter (fun e => e + cc !!! Legacy.ctr_slot s c) id cv)
                     costVariables (Legacy._mapVarCtr s v) in
             (costVariables,
              if Legacy._weakTabuList s !!! id =? 0
              then <[id := costVariables !!! id]> costNonTabuVariables
              else costNonTabuVariables))
          (cv0, cnt0) l in
  length r.1 = length cv0 /\ length r.2 = length cnt0
  /\ (forall i, i ∉ Legacy.var_slot s <$> l ->
        r.1 !!! i = cv0 !!! i /\ r.2 !!! i = cnt0 !!! i)
  /\ forall v, v ∈ l ->
       r.1 !!! Legacy.var_slot s v
       = cv0 !!! Legacy.var_slot s v
         + total ((fun c => cc !!! Legacy.ctr_slot s c)
                    <$> Legacy._mapVarCtr s v)
       /\ r.2 !!! Legacy.var_slot s v
          = (if Legacy._weakTabuList s !!! Legacy.var_slot s v =? 0
             then r.1 !!! Legacy.var_slot s v
             else cnt0 !!! Legacy.var_slot s v).
Proof.
  induction l as [|w l IH] using rev_ind; intros Hnd Hr.
  - cbn. split; [done|]. split; [done|]. split; [done|].
    intros v Hv. by apply elem_of_nil in Hv.
  - rewrite fmap_app in Hnd. cbn [fmap list_fmap] in Hnd.
    apply NoDup_app in Hnd as (Hnd & Hfresh & _).
    destruct IH as (Hl1 & Hl2 & Hout & Hin); [done| |].
    { intros v Hv. apply Hr, elem_of_app. by left. }
    rewrite foldl_app. cbn [foldl].
    destruct (foldl _ (cv0, cnt0) l) as [cv cnt]. cbn [fst snd] in *.
    destruct (Hr w ltac:(apply elem_of_app; right; by left)) as [Hw1 Hw2].
    set (id := Legacy.var_slot s w) in *.
    assert (Hw : id ∉ Legacy.var_slot s <$> l).
    { intros Hmem. apply (Hfresh id Hmem). by left. }
    set (cv' := foldl _ cv (Legacy._mapVarCtr s w)).
    assert (Hcv' : forall i, cv' !!! i
              = cv !!! i
                + (if decide (i = id)
                   then total ((fun c => cc !!! Legacy.ctr_slot s c)
                                 <$> Legacy._mapVarCtr s w) else 0)).
    { intros i. unfold cv'.
      apply (alter_adds_lookup _ (fun c => cc !!! Legacy.ctr_slot s c)).
      by rewrite Hl1. }
    assert (Hlen' : length cv' = length cv0).
    { unfold cv'.
      rewrite (alter_adds_length _ (fun c => cc !!! Legacy.ctr_slot s c)).
      exact Hl1. }
    set (cnt' := if Legacy._weakTabuList s !!! id =? 0
                 then <[id := cv' !!! id]> cnt else cnt).
    assert (Hcnt' : forall i, cnt' !!! i
              = if decide (i = id)
                then (if Legacy._weakTabuList s !!! id =? 0
                      then cv' !!! id else cnt !!! id)
                else cnt !!! i).
    { intros i. unfold cnt'. destruct (_ =? 0).
      - destruct (decide (i = id)) as [->|Hne].
        + apply list_lookup_total_insert_eq. by rewrite Hl2.
        + by rewrite list_lookup_total_insert_ne.
      - destruct (decide _) as [->|]; done. }
    assert (Hlc' : length cnt' = length cnt0).
    { unfold cnt'. destruct (_ =? 0); [rewrite length_insert|]; exact Hl2. }
    change (foldl _ cv (Legacy._mapVarCtr s w), _) with (cv', cnt').
    cbn [fst snd]. split; [exact Hlen'|]. split; [exact Hlc'|]. split.
    + intros i Hi.
      assert (Hi1 : i ∉ Legacy.var_slot s <$> l).
      { intros Hm. apply Hi. rewrite fmap_app. apply elem_of_app. by left. }
      assert (Hi2 : i <> id).
      { intros ->. apply Hi. rewrite fmap_app. apply elem_of_app. right.
        by left. }
      rewrite Hcv', Hcnt', !decide_False by done.
      destruct (Hout i Hi1) as [-> ->]. split; [lia|done].
    + intros v [Hv|Hv]%elem_of_app.
      * assert (Hne : Legacy.var_slot s v <> id).
        { intros E. apply Hw. rewrite <- E. apply list_elem_of_fmap.
          by exists v. }
        rewrite Hcv', Hcnt', !decide_False by done.
        destruct (Hin v Hv) as [E1 E2]. split; [rewrite E1; lia|].
        rewrite E2.
        destruct (Legacy._weakTabuList s !!! Legacy.var_slot s v =? 0); lia.
      * apply list_elem_of_singleton in Hv as ->. fold id.
        rewrite Hcv', Hcnt', !decide_True by done.
        destruct (Hout id Hw) as [E1 E2]. split; [by rewrite E1|].
        destruct (Legacy._weakTabuList s !!! id =? 0); [|exact E2].
        rewrite Hcv', decide_True by done. by rewrite E1.
Qed.

(** X26.  When the variables have slots of their own in [costVariables]
    and [costNonTabuVariables], the older [compute_variables_costs] adds to
    the cost of every variable the costs, read in [costConstraints], of
    the constraints that have it, one after the other in the order of
    [_mapVarCtr]; [costNonTabuVariables] is zeroed and then given the new
    cost of every variable whose tabu counter is 0; both vectors keep their
    length. *)
Theorem legacy_compute_variables_costs_adds (s : Legacy.Solver)
    (cc cv cnt : list Z) :
  NoDup (Legacy.var_slot s <$> Legacy._vecVariables s) ->
  (forall v, v ∈ Legacy._vecVariables s ->
     (Legacy.var_slot s v < length cv)%nat
     /\ (Legacy.var_slot s v < length cnt)%nat) ->
  let r := Legacy.compute_variables_costs s cc cv cnt in
  length r.1 = length cv /\ length r.2 = length cnt
  /\ forall v, v ∈ Legacy._vecVariables s ->
       r.1 !!! Legacy.var_slot s v
       = foldl Z.add (cv !!! Legacy.var_slot s v)
               ((fun c => cc !!! Legacy.ctr_slot s c)
                  <$> Legacy._mapVarCtr s v)
       /\ r.2 !!! Legacy.var_slot s v
          = (if Legacy._weakTabuList s !!! Legacy.var_slot s v =? 0
             then r.1 !!! Legacy.var_slot s v else 0).
Proof.
  intros Hnd Hr. unfold Legacy.compute_variables_costs.
  destruct (legacy_variables_costs_loop s cc cv
              (replicate (length cnt) 0) (Legacy._vecVariables s) Hnd)
    as (Hl1 & Hl2 & _ & Hin).
  { intros v Hv. rewrite length_replicate. by apply Hr. }
  cbv zeta in *. split; [exact Hl1|].
  split; [by rewrite Hl2, length_replicate|].
  intros v Hv. destruct (Hin v Hv) as [E1 E2].
  split; [by rewrite foldl_add_total|].
  rewrite E2. destruct (_ =? 0); [done|].
  apply list_lookup_total_correct, lookup_replicate_2.
  by apply Hr.
Qed.

Lemma legacy_pair_var_slots :
  NoDup (Legacy.var_slot legacy_pair <$> Legacy._vecVariables legacy_pair).
Proof.
  repeat (apply NoDup_cons; split;
          [intros H; repeat (apply elem_of_cons in H as [H|H]; [done|]);
           by apply elem_of_nil in H|]).
  apply NoDup_nil_2.
Qed.

Lemma legacy_pair_var_range (v : Var) :
  v ∈ Legacy._vecVariables legacy_pair ->
  (Legacy.var_slot legacy_pair v < length [0; 0])%nat
  /\ (Legacy.var_slot legacy_pair v < length [0; 0])%nat.
Proof.
  intros Hv. apply elem_of_cons in Hv as [->|Hv]; [vm_compute; lia|].
  apply elem_of_cons in Hv as [->|Hv]; [vm_compute; lia|].
  by apply elem_of_nil in Hv.
Qed.

Lemma legacy_compute_variables_costs_adds_witness :
  NoDup (Legacy.var_slot legacy_pair <$> Legacy._vecVariables legacy_pair)
  /\ (forall v, v ∈ Legacy._vecVariables legacy_pair ->
        (Legacy.var_slot legacy_pair v < length [0; 0])%nat
        /\ (Legacy.var_slot legacy_pair v < length [0; 0])%nat)
  /\ forall v, v ∈ Legacy._vecVariables legacy_pair ->
       (Legacy.compute_variables_costs legacy_pair [0; 2] [0; 0] [0; 0]).1
         !!! Legacy.var_slot legacy_pair v
       = foldl Z.add ([0; 0] !!! Legacy.var_slot legacy_pair v)
               ((fun c => [0; 2] !!! Legacy.ctr_slot legacy_pair c)
                  <$> Legacy._mapVarCtr legacy_pair v).
Proof.
  split; [exact legacy_pair_var_slots|].
  split; [exact legacy_pair_var_range|].
  intros v Hv.
  exact (proj1 (proj2 (proj2 (legacy_compute_variables_costs_adds legacy_pair
                                [0; 2] [0; 0] [0; 0] legacy_pair_var_slots
                                legacy_pair_var_range)) v Hv)).
Defined.
